(** * Inboxer: the mail store contract, its two backends and the manager

    A shallow embedding of the Go package [inboxer]:
    - [Mail] and [MailFilter] (the data model),
    - [copyMail] and [matchMail] (the helpers of the in-memory store),
    - [MemoryMailStore] (a map guarded by a lock) and [GormMailStore]
      (rows of [MailEntity] behind GORM), both implementing [MailStore],
    - [DefaultMailManager.MarkAsRead] on top of the [MailStore] interface.

    Locks are not modelled: every method of the in-memory store holds its
    mutex for its whole body, so each call is one atomic state transition. *)

From Stdlib Require Import ZArith Ascii String.
From stdpp Require Import gmap strings list sorting pretty.

Local Open Scope Z_scope.

(** ** Go's [int]: 64-bit two's complement with silent wrap-around *)
Module GoInt.
Definition min_int : Z := - 2 ^ 63.
Definition max_int : Z := 2 ^ 63 - 1.

Definition wrap (z : Z) : Z := (z + 2 ^ 63) mod 2 ^ 64 - 2 ^ 63.

Definition add (a b : Z) : Z := wrap (a + b).
Definition sub (a b : Z) : Z := wrap (a - b).
Definition mul (a b : Z) : Z := wrap (a * b).

Definition in_range (z : Z) : Prop := min_int ≤ z ≤ max_int.
End GoInt.

(** ** [time.Time]

    An instant is its offset in nanoseconds from the zero [Time]; the
    monotonic reading and the location, which [Before], [After] and
    [IsZero] ignore, are left out. *)
Module GoTime.
Abbreviation Time := Z (only parsing).
Definition zero : Time := 0.
Definition IsZero (t : Time) : bool := t =? 0.
Definition Before (t u : Time) : bool := t <? u.
Definition After (t u : Time) : bool := u <? t.
End GoTime.
Import GoTime.

(** ** Errors

    The stores return [errors.New]/[fmt.Errorf] values; each constructor
    stands for one message, and [error_kind] files it under the taxonomy
    of the contract. *)
Inductive ErrorKind := InvalidArgument | NotFound | SerializationError | StorageError.

Inductive error :=
  | ErrMailNil                    (* "mail cannot be nil" *)
  | ErrMailNilOrNoID              (* "mail cannot be nil and must have an ID" *)
  | ErrMailIDEmpty                (* "mail ID cannot be empty" *)
  | ErrRecipientEmpty             (* "recipientID cannot be empty" *)
  | ErrMailNotFound (id : string) (* "mail with ID %s not found" *)
  | ErrMarshalAttachments         (* "failed to marshal attachments: %w" *)
  | ErrUnmarshalAttachments       (* "failed to unmarshal attachments: %w" *)
  | ErrUnmarshalTags              (* "failed to unmarshal tags: %w" *)
  | ErrCreate                     (* "failed to create mail: %w" *)
  | ErrCreateBatch                (* "failed to create batch mails: %w" *)
  | ErrMarshalIndent.             (* "error marshaling mails to JSON: %w" *)

Definition error_kind (e : error) : ErrorKind :=
  match e with
  | ErrMailNil | ErrMailNilOrNoID | ErrMailIDEmpty | ErrRecipientEmpty => InvalidArgument
  | ErrMailNotFound _ => NotFound
  | ErrMarshalAttachments | ErrUnmarshalAttachments | ErrUnmarshalTags
  | ErrMarshalIndent => SerializationError
  | ErrCreate | ErrCreateBatch => StorageError
  end.

(** What a call does: return a value, return an error, or panic (a slice
    expression out of bounds). *)
Inductive result (A : Type) :=
  | Ok (a : A)
  | Err (e : error)
  | Panic.
Arguments Ok {A} a.
Arguments Err {A} e.
Arguments Panic {A}.

Definition is_Ok {A} (r : result A) : bool :=
  match r with Ok _ => true | _ => false end.

(** ** Slices

    A Go slice is [nil] or holds elements: [None] is the nil slice,
    [Some []] an empty non-nil one.  [len] and [range] do not tell them
    apart. *)
Definition elems {A} (s : option (list A)) : list A := default [] s.

(** [s[lo:hi]] on a slice of length and capacity [length l]. *)
Definition slice_expr {A} (l : list A) (lo hi : Z) : result (list A) :=
  if bool_decide (0 ≤ lo ∧ lo ≤ hi ∧ hi ≤ Z.of_nat (length l))
  then Ok (take (Z.to_nat (hi - lo)) (drop (Z.to_nat lo) l))
  else Panic.

(** ** [encoding/json] on a [[]string]

    The tags of a mail are stored as the text [json.Marshal] gives for a
    slice of strings: the elements between brackets, separated by commas,
    each between double quotes with Go's escapes (the HTML-safe set of
    [json.Marshal]).  Bytes from 0x80 on are copied as they are, which is
    what Go does for well-formed UTF-8 other than U+2028 and U+2029; its
    replacement of ill-formed UTF-8 is not modelled. *)
Module GoJSON.
Definition dquote : ascii := ascii_of_nat 34.
Definition backslash : ascii := ascii_of_nat 92.

Definition hex_digit (n : nat) : ascii :=
  if (n <? 10)%nat then ascii_of_nat (48 + n) else ascii_of_nat (87 + n).

Definition escape_byte (c : ascii) : string :=
  let n := nat_of_ascii c in
  if (n =? 34)%nat || (n =? 92)%nat then String backslash (String c EmptyString)
  else if (n =? 8)%nat then "\b"
  else if (n =? 12)%nat then "\f"
  else if (n =? 10)%nat then "\n"
  else if (n =? 13)%nat then "\r"
  else if (n =? 9)%nat then "\t"
  else if (n <? 32)%nat || (n =? 38)%nat || (n =? 60)%nat || (n =? 62)%nat
       then "\u00" +:+ String (hex_digit (n / 16))
                              (String (hex_digit (n mod 16)) EmptyString)
  else String c EmptyString.

Fixpoint escape_string (s : string) : string :=
  match s with
  | EmptyString => EmptyString
  | String c rest => escape_byte c +:+ escape_string rest
  end.

Definition Marshal_string (s : string) : string :=
  String dquote (escape_string s +:+ String dquote EmptyString).

Fixpoint Marshal_elements (l : list string) : string :=
  match l with
  | [] => EmptyString
  | [s] => Marshal_string s
  | s :: rest => Marshal_string s +:+ "," +:+ Marshal_elements rest
  end.

(** [json.Marshal] on a non-nil [[]string]; it cannot fail. *)
Definition Marshal_strings (l : list string) : string :=
  "[" +:+ Marshal_elements l +:+ "]".

(** Reading the text back into a [[]string].  The reader accepts [null]
    (the slice stays nil) and an array of string literals with white space
    between the tokens; anything else is an error.  Escapes [\uXXXX] are
    read for code points below 0x80 only, which are the ones the writer
    above emits; [null] elements and escapes of larger code points, which
    Go accepts, are outside this model. *)
Definition hex_value (c : ascii) : option nat :=
  let n := nat_of_ascii c in
  if (48 <=? n)%nat && (n <=? 57)%nat then Some (n - 48)%nat
  else if (97 <=? n)%nat && (n <=? 102)%nat then Some (n - 87)%nat
  else if (65 <=? n)%nat && (n <=? 70)%nat then Some (n - 55)%nat
  else None.

Definition unescape_u (a b c d : ascii) : option ascii :=
  match hex_value a, hex_value b, hex_value c, hex_value d with
  | Some 0%nat, Some 0%nat, Some hi, Some lo =>
      if (hi <? 8)%nat then Some (ascii_of_nat (16 * hi + lo)) else None
  | _, _, _, _ => None
  end.

Definition unescape_simple (e : ascii) : option ascii :=
  let n := nat_of_ascii e in
  if (n =? 34)%nat || (n =? 92)%nat || (n =? 47)%nat then Some e
  else if (n =? 98)%nat then Some (ascii_of_nat 8)
  else if (n =? 102)%nat then Some (ascii_of_nat 12)
  else if (n =? 110)%nat then Some (ascii_of_nat 10)
  else if (n =? 114)%nat then Some (ascii_of_nat 13)
  else if (n =? 116)%nat then Some (ascii_of_nat 9)
  else None.

Definition is_space (c : ascii) : bool :=
  let n := nat_of_ascii c in
  (n =? 32)%nat || (n =? 9)%nat || (n =? 10)%nat || (n =? 13)%nat.

Inductive reader_state :=
  | BeforeArray      (* nothing read yet *)
  | AfterOpen        (* after the opening bracket *)
  | InString         (* inside a string literal *)
  | AfterString      (* after the closing quote of an element *)
  | AfterComma       (* after a comma *)
  | AfterClose.      (* after the closing bracket *)

(** [cur] holds the characters of the literal being read, [done] the
    elements already read. *)
Fixpoint read_strings
    (st : reader_state) (cur : string) (done : list string) (text : string)
  : option (list string) :=
  match text with
  | EmptyString => match st with AfterClose => Some done | _ => None end
  | String c rest =>
      match st with
      | BeforeArray =>
          if is_space c then read_strings BeforeArray cur done rest
          else if Ascii.eqb c "[" then read_strings AfterOpen cur done rest
          else None
      | AfterOpen =>
          if is_space c then read_strings AfterOpen cur done rest
          else if Ascii.eqb c "]" then read_strings AfterClose cur done rest
          else if Ascii.eqb c dquote then read_strings InString EmptyString done rest
          else None
      | AfterComma =>
          if is_space c then read_strings AfterComma cur done rest
          else if Ascii.eqb c dquote then read_strings InString EmptyString done rest
          else None
      | AfterString =>
          if is_space c then read_strings AfterString cur done rest
          else if Ascii.eqb c "," then read_strings AfterComma cur done rest
          else if Ascii.eqb c "]" then read_strings AfterClose cur done rest
          else None
      | AfterClose =>
          if is_space c then read_strings AfterClose cur done rest else None
      | InString =>
          if Ascii.eqb c dquote
          then read_strings AfterString EmptyString (done ++ [cur]) rest
          else if Ascii.eqb c backslash then
            match rest with
            | String e rest' =>
                if Ascii.eqb e "u" then
                  match rest' with
                  | String h1 (String h2 (String h3 (String h4 rest''))) =>
                      match unescape_u h1 h2 h3 h4 with
                      | Some x =>
                          read_strings InString (cur +:+ String x EmptyString) done rest''
                      | None => None
                      end
                  | _ => None
                  end
                else
                  match unescape_simple e with
                  | Some x =>
                      read_strings InString (cur +:+ String x EmptyString) done rest'
                  | None => None
                  end
            | EmptyString => None
            end
          else if (nat_of_ascii c <? 32)%nat then None
          else read_strings InString (cur +:+ String c EmptyString) done rest
      end
  end.

Fixpoint trim_left (text : string) : string :=
  match text with
  | String c rest => if is_space c then trim_left rest else text
  | EmptyString => EmptyString
  end.

Fixpoint only_space (text : string) : bool :=
  match text with
  | String c rest => is_space c && only_space rest
  | EmptyString => true
  end.

(** [json.Unmarshal(text, &tags)] with [tags] a nil [[]string]: [None] is
    an error, [Some None] leaves the slice nil. *)
Definition Unmarshal_strings (text : string) : option (option (list string)) :=
  match trim_left text with
  | String "n" (String "u" (String "l" (String "l" rest))) =>
      if only_space rest then Some None else None
  | _ => Some <$> read_strings BeforeArray EmptyString [] text
  end.
End GoJSON.

(** ** [LIKE]

    The operator as SQLite, the engine of the package's tests, evaluates
    it: [%] stands for any run of characters, [_] for any single one, other
    characters for themselves, ASCII letters without regard to case.
    Characters are bytes here. *)
Module SQL.
Definition lower (c : ascii) : ascii :=
  let n := nat_of_ascii c in
  if (65 <=? n)%nat && (n <=? 90)%nat then ascii_of_nat (n + 32) else c.

Fixpoint like (pattern : string) : string → bool :=
  match pattern with
  | EmptyString => λ s, match s with EmptyString => true | _ => false end
  | String p pattern' =>
      if Ascii.eqb p "%" then
        fix any_run (s : string) : bool :=
          like pattern' s
          || match s with EmptyString => false | String _ s' => any_run s' end
      else if Ascii.eqb p "_" then
        λ s, match s with EmptyString => false | String _ s' => like pattern' s' end
      else
        λ s, match s with
             | EmptyString => false
             | String c s' => Ascii.eqb (lower p) (lower c) && like pattern' s'
             end
  end.
End SQL.

(** ** [encoding/json] on attachments

    [Attachments] is a [map[string]interface{}]: the values are open-ended
    and their JSON text is produced and read back by Go's library, which is
    not part of the package.  The value type and the two library calls are
    taken as given, with the facts about them that the stores rely on:
    [Marshal] never emits the empty text, the text [{}] decodes to an empty
    non-nil map, and what [Marshal] emitted for a map, [Unmarshal] reads
    back as some non-nil map. *)
Class AttachmentJSON := {
  AttValue : Type;
  Marshal_attachments : gmap string AttValue → option string;
  Unmarshal_attachments : string → option (option (gmap string AttValue));
  Marshal_not_empty : ∀ a, Marshal_attachments a ≠ Some EmptyString;
  Unmarshal_empty_object : Unmarshal_attachments "{}" = Some (Some ∅);
  Unmarshal_Marshal : ∀ a text,
    Marshal_attachments a = Some text →
    ∃ a', Unmarshal_attachments text = Some (Some a');
}.

Section Inboxer.
Context `{AttachmentJSON}.

(** ** The data model *)
Record Mail := mkMail {
  ID : string;
  SenderID : string;
  RecipientID : string;
  Title : string;
  Content : string;
  Attachments : option (gmap string AttValue);   (* [None] is the nil map *)
  ReadStatus : bool;
  CreateTime : Time;
  ExpireTime : Time;
  Tags : option (list string);                   (* [None] is the nil slice *)
}.

Record MailFilter := mkMailFilter {
  fSenderID : string;
  fRecipientID : string;
  fReadStatus : option bool;     (* [*bool] *)
  fStartTime : option Time;      (* [*time.Time] *)
  fEndTime : option Time;        (* [*time.Time] *)
  fExpiredOnly : bool;
  fTags : list string;           (* only [len] and [range] are used *)
}.

Definition set_ID (id : string) (m : Mail) : Mail :=
  mkMail id (SenderID m) (RecipientID m) (Title m) (Content m) (Attachments m)
         (ReadStatus m) (CreateTime m) (ExpireTime m) (Tags m).

Definition set_ReadStatus (b : bool) (m : Mail) : Mail :=
  mkMail (ID m) (SenderID m) (RecipientID m) (Title m) (Content m) (Attachments m)
         b (CreateTime m) (ExpireTime m) (Tags m).

(** ** Helpers of the in-memory store *)

(** [copyMail]: a field-by-field copy; nil tags and nil attachments stay
    nil, non-nil ones are copied element by element. *)
Definition copyMail (mail : Mail) : Mail :=
  mkMail (ID mail) (SenderID mail) (RecipientID mail) (Title mail) (Content mail)
         (match Attachments mail with
          | Some a => Some (map_fold (λ k v acc, <[k:=v]> acc) ∅ a)
          | None => None
          end)
         (ReadStatus mail) (CreateTime mail) (ExpireTime mail)
         (match Tags mail with
          | Some ts => Some ts
          | None => None
          end).

(** The tag loop of [matchMail]: the outer loop runs over the filter's
    tags, the inner one over the mail's, and both stop at the first hit. *)
Fixpoint hasTag_inner (filterTag : string) (mailTags : list string) : bool :=
  match mailTags with
  | [] => false
  | mailTag :: rest =>
      if String.eqb filterTag mailTag then true else hasTag_inner filterTag rest
  end.

Fixpoint hasTag (filterTags mailTags : list string) : bool :=
  match filterTags with
  | [] => false
  | filterTag :: rest =>
      if hasTag_inner filterTag mailTags then true else hasTag rest mailTags
  end.

(** [matchMail]; a nil filter is [None]. *)
Definition matchMail (mail : Mail) (filter : option MailFilter) (now : Time) : bool :=
  match filter with
  | None => true
  | Some filter =>
      if negb (String.eqb (fSenderID filter) EmptyString)
         && negb (String.eqb (SenderID mail) (fSenderID filter)) then false
      else if negb (String.eqb (fRecipientID filter) EmptyString)
              && negb (String.eqb (RecipientID mail) (fRecipientID filter)) then false
      else if match fReadStatus filter with
              | Some b => negb (Bool.eqb (ReadStatus mail) b)
              | None => false
              end then false
      else if match fStartTime filter with
              | Some t => Before (CreateTime mail) t
              | None => false
              end then false
      else if match fEndTime filter with
              | Some t => After (CreateTime mail) t
              | None => false
              end then false
      else if fExpiredOnly filter
              && (IsZero (ExpireTime mail) || negb (Before (ExpireTime mail) now)) then false
      else if (0 <? Z.of_nat (length (fTags filter)))
              && negb (hasTag (fTags filter) (elems (Tags mail))) then false
      else true
  end.

(** ** The in-memory store *)

(** [SimpleIDGenerator]: a counter; the mutex is not modelled. *)
Record SimpleIDGenerator := mkSimpleIDGenerator { counter : Z }.

(** [GenerateID]; [unixNano] is what [time.Now().UnixNano()] reads. *)
Definition GenerateID (g : SimpleIDGenerator) (unixNano : Z) : string * SimpleIDGenerator :=
  let counter' := GoInt.add (counter g) 1 in
  ("mail_" +:+ pretty unixNano +:+ "_" +:+ pretty counter',
   mkSimpleIDGenerator counter').

Record MemoryMailStore := mkMemoryMailStore {
  mails : gmap string Mail;
  idGen : SimpleIDGenerator;
}.

Definition NewMemoryMailStore : MemoryMailStore :=
  mkMemoryMailStore ∅ (mkSimpleIDGenerator 0).

(** [for _, mail := range s.mails]: the stored mails in the order of one
    traversal of the map.  Go leaves that order unspecified. *)
Definition range_mails (s : MemoryMailStore) : list Mail := (map_to_list (mails s)).*2.

(** [CreateMail].  The argument is a pointer: [None] is nil, [Some m] an
    object whose fields are [m].  The third component of the outcome is the
    caller's object after the call. *)
Definition MemoryMailStore_CreateMail
    (s : MemoryMailStore) (mail : option Mail) (unixNano : Z)
  : result string * MemoryMailStore * option Mail :=
  match mail with
  | None => (Err ErrMailNil, s, None)
  | Some m =>
      let '(m, g) :=
        if String.eqb (ID m) EmptyString
        then let '(id, g) := GenerateID (idGen s) unixNano in (set_ID id m, g)
        else (m, idGen s) in
      let mailCopy := copyMail m in
      (Ok (ID m), mkMemoryMailStore (<[ID m := mailCopy]> (mails s)) g, Some m)
  end.

Definition MemoryMailStore_GetMail (s : MemoryMailStore) (mailID : string) : result Mail :=
  match mails s !! mailID with
  | None => Err (ErrMailNotFound mailID)
  | Some mail => Ok (copyMail mail)
  end.

Definition MemoryMailStore_UpdateMail (s : MemoryMailStore) (mail : option Mail)
  : result unit * MemoryMailStore :=
  match mail with
  | None => (Err ErrMailNilOrNoID, s)
  | Some m =>
      if String.eqb (ID m) EmptyString then (Err ErrMailNilOrNoID, s)
      else match mails s !! ID m with
           | None => (Err (ErrMailNotFound (ID m)), s)
           | Some _ => (Ok (), mkMemoryMailStore (<[ID m := copyMail m]> (mails s)) (idGen s))
           end
  end.

Definition MemoryMailStore_DeleteMail (s : MemoryMailStore) (mailID : string)
  : result unit * MemoryMailStore :=
  match mails s !! mailID with
  | None => (Err (ErrMailNotFound mailID), s)
  | Some _ => (Ok (), mkMemoryMailStore (delete mailID (mails s)) (idGen s))
  end.

(** The caller's objects live in a heap, so that a batch may hold the same
    pointer twice.  A non-nil pointer is an address. *)
Abbreviation Heap := (gmap positive Mail) (only parsing).

(** The loop of [CreateBatchMails].  [now i] is the [i]-th reading of the
    clock during the call and [n] counts the readings taken so far.  Go has
    no dangling pointers; an address missing from the heap is a [Panic]. *)
Fixpoint MemoryMailStore_CreateBatchMails_loop
    (batch : list (option positive)) (now : nat → Z) (n : nat)
    (s : MemoryMailStore) (h : Heap) (ids : list string)
  : result (list string) * MemoryMailStore * Heap :=
  match batch with
  | [] => (Ok ids, s, h)
  | None :: rest => MemoryMailStore_CreateBatchMails_loop rest now n s h ids
  | Some p :: rest =>
      match h !! p with
      | None => (Panic, s, h)
      | Some m =>
          let '(m, g, n) :=
            if String.eqb (ID m) EmptyString
            then let '(id, g) := GenerateID (idGen s) (now n) in (set_ID id m, g, S n)
            else (m, idGen s, n) in
          let mailCopy := copyMail m in
          MemoryMailStore_CreateBatchMails_loop rest now n
            (mkMemoryMailStore (<[ID m := mailCopy]> (mails s)) g)
            (<[p := m]> h) (ids ++ [ID m])
      end
  end.

Definition MemoryMailStore_CreateBatchMails
    (s : MemoryMailStore) (h : Heap) (batch : list (option positive)) (now : nat → Z)
  : result (list string) * MemoryMailStore * Heap :=
  if bool_decide (length batch = 0%nat) then (Ok [], s, h)
  else MemoryMailStore_CreateBatchMails_loop batch now 0%nat s h [].

(** [for _, id := range toDelete { delete(s.mails, id) }] *)
Definition delete_all (toDelete : list string) (m : gmap string Mail) : gmap string Mail :=
  foldl (λ acc id, delete id acc) m toDelete.

Definition MemoryMailStore_DeleteMailsByRecipient (s : MemoryMailStore) (recipientID : string)
  : result unit * MemoryMailStore :=
  if String.eqb recipientID EmptyString then (Err ErrRecipientEmpty, s)
  else
    let toDelete :=
      (filter (λ kv, String.eqb (RecipientID kv.2) recipientID = true)
              (map_to_list (mails s))).*1 in
    (Ok (), mkMemoryMailStore (delete_all toDelete (mails s)) (idGen s)).

(** The test of the loop in [DeleteExpiredMails]. *)
Definition expired_before (beforeTime : Time) (mail : Mail) : bool :=
  negb (IsZero (ExpireTime mail)) && Before (ExpireTime mail) beforeTime.

Definition MemoryMailStore_DeleteExpiredMails (s : MemoryMailStore) (beforeTime : Time)
  : result Z * MemoryMailStore :=
  let toDelete :=
    (filter (λ kv, expired_before beforeTime kv.2 = true) (map_to_list (mails s))).*1 in
  (Ok (Z.of_nat (length toDelete)),
   mkMemoryMailStore (delete_all toDelete (mails s)) (idGen s)).

(** [sort.Slice(matchedMails, func(i, j) { return
    matchedMails[i].CreateTime.After(matchedMails[j].CreateTime) })].
    [sort.Slice] is not stable, so the order of mails created at the same
    instant is unspecified; a merge sort gives one of the allowed orders.
    The relation handed to it says that the second mail is not [After] the
    first. *)
Definition newest_first (a b : Mail) : Prop := After (CreateTime b) (CreateTime a) = false.

#[global] Instance newest_first_dec : RelDecision newest_first.
Proof. intros a b. unfold newest_first. apply _. Defined.

Definition sort_newest_first (l : list Mail) : list Mail := merge_sort newest_first l.

(** The lines shared by [GetMailsByRecipient] and [QueryMails]: the
    defaults for [page] and [size], and the cut of the sorted matches. *)
Definition default_page (page : Z) : Z := if page <=? 0 then 1 else page.
Definition default_size (size : Z) : Z := if size <=? 0 then 10 else size.

Definition paginate (matchedMails : list Mail) (page size : Z) : result (list Mail * Z) :=
  let total := Z.of_nat (length matchedMails) in
  let start := GoInt.mul (GoInt.sub page 1) size in
  let end_ := GoInt.add start size in
  if start >=? total then Ok ([], total)
  else
    let end_ := if end_ >? total then total else end_ in
    match slice_expr matchedMails start end_ with
    | Ok page_mails => Ok (page_mails, total)
    | Err e => Err e
    | Panic => Panic
    end.

Definition MemoryMailStore_GetMailsByRecipient
    (s : MemoryMailStore) (recipientID : string) (page size : Z) : result (list Mail * Z) :=
  let page := default_page page in
  let size := default_size size in
  let matchedMails :=
    copyMail <$> filter (λ mail, String.eqb (RecipientID mail) recipientID = true)
                        (range_mails s) in
  paginate (sort_newest_first matchedMails) page size.

(** The sorted matches that [QueryMails] cuts a page from and that
    [ExportMailLogs] serializes; [now] is the one reading of [time.Now()]
    taken before the loop. *)
Definition MemoryMailStore_matchedMails
    (s : MemoryMailStore) (filter_ : option MailFilter) (now : Time) : list Mail :=
  sort_newest_first
    (copyMail <$> filter (λ mail, matchMail mail filter_ now = true) (range_mails s)).

Definition MemoryMailStore_QueryMails
    (s : MemoryMailStore) (filter_ : option MailFilter) (page size : Z) (now : Time)
  : result (list Mail * Z) :=
  let page := default_page page in
  let size := default_size size in
  paginate (MemoryMailStore_matchedMails s filter_ now) page size.

Definition MemoryMailStore_CountUnreadMails (s : MemoryMailStore) (recipientID : string)
  : result Z :=
  Ok (Z.of_nat (length (filter
        (λ mail, String.eqb (RecipientID mail) recipientID && negb (ReadStatus mail) = true)
        (range_mails s)))).

Definition MemoryMailStore_CountMailsWithAttachments
    (s : MemoryMailStore) (recipientID : string) : result Z :=
  Ok (Z.of_nat (length (filter
        (λ mail, String.eqb (RecipientID mail) recipientID
                 && match Attachments mail with
                    | Some a => bool_decide (0 < size a)%nat
                    | None => false
                    end = true)
        (range_mails s)))).

(** [json.MarshalIndent] on a list of mails, from Go's library: [None] when
    a value cannot be encoded. *)
Variable MarshalIndent_mails : list Mail → option string.

Definition MemoryMailStore_ExportMailLogs
    (s : MemoryMailStore) (filter_ : option MailFilter) (now : Time) : result string :=
  let matchedMails := MemoryMailStore_matchedMails s filter_ now in
  match MarshalIndent_mails matchedMails with
  | Some data => Ok data
  | None => Err ErrMarshalIndent
  end.

(** ** The GORM store *)

(** A row of the table [mails].  [CreatedAt] and [UpdatedAt] are kept by
    GORM and never read by the package; they are left out. *)
Record MailEntity := mkMailEntity {
  eID : string;                 (* primary key *)
  eSenderID : string;
  eRecipientID : string;
  eTitle : string;
  eContent : string;
  eAttachments : string;        (* JSON text *)
  eReadStatus : bool;
  eCreateTime : Time;
  eExpireTime : Time;
  eTags : string;               (* JSON text *)
}.

(** The database is its one table, keyed by the primary key.  It always
    answers: failures of the connection are not modelled, a violated
    primary key is. *)
Record GormMailStore := mkGormMailStore { db : gmap string MailEntity }.

Definition mailToEntity (mail : Mail) : result MailEntity :=
  match (match Attachments mail with
         | Some a => Marshal_attachments a
         | None => Some "{}"
         end) with
  | None => Err ErrMarshalAttachments
  | Some attachmentsJSON =>
      let tagsJSON :=
        match Tags mail with
        | Some ts => GoJSON.Marshal_strings ts
        | None => "[]"
        end in
      Ok (mkMailEntity (ID mail) (SenderID mail) (RecipientID mail) (Title mail)
            (Content mail) attachmentsJSON (ReadStatus mail) (CreateTime mail)
            (ExpireTime mail) tagsJSON)
  end.

Definition entityToMail (entity : MailEntity) : result Mail :=
  match (if String.eqb (eAttachments entity) EmptyString then Some None
         else Unmarshal_attachments (eAttachments entity)) with
  | None => Err ErrUnmarshalAttachments
  | Some attachments =>
      match (if String.eqb (eTags entity) EmptyString then Some None
             else GoJSON.Unmarshal_strings (eTags entity)) with
      | None => Err ErrUnmarshalTags
      | Some tags =>
          Ok (mkMail (eID entity) (eSenderID entity) (eRecipientID entity) (eTitle entity)
                (eContent entity) attachments (eReadStatus entity) (eCreateTime entity)
                (eExpireTime entity) tags)
      end
  end.

(** The loops [for _, entity := range entities] that convert rows and
    return at the first error. *)
Fixpoint entitiesToMails (entities : list MailEntity) : result (list Mail) :=
  match entities with
  | [] => Ok []
  | entity :: rest =>
      match entityToMail entity with
      | Ok mail =>
          match entitiesToMails rest with
          | Ok mails_ => Ok (mail :: mails_)
          | Err e => Err e
          | Panic => Panic
          end
      | Err e => Err e
      | Panic => Panic
      end
  end.

(** [CreateMail]: as for the in-memory store, the third component is the
    caller's object after the call.  [tx.Create] refuses a primary key that
    is already in the table. *)
Definition GormMailStore_CreateMail
    (s : GormMailStore) (mail : option Mail) (unixNano : Z)
  : result string * GormMailStore * option Mail :=
  match mail with
  | None => (Err ErrMailNil, s, None)
  | Some m =>
      let m := if String.eqb (ID m) EmptyString
               then set_ID ("mail_" +:+ pretty unixNano) m else m in
      match mailToEntity m with
      | Ok entity =>
          match db s !! eID entity with
          | Some _ => (Err ErrCreate, s, Some m)
          | None => (Ok (ID m), mkGormMailStore (<[eID entity := entity]> (db s)), Some m)
          end
      | Err e => (Err e, s, Some m)
      | Panic => (Panic, s, Some m)
      end
  end.

Definition GormMailStore_GetMail (s : GormMailStore) (mailID : string) : result Mail :=
  if String.eqb mailID EmptyString then Err ErrMailIDEmpty
  else match db s !! mailID with
       | None => Err (ErrMailNotFound mailID)
       | Some entity => entityToMail entity
       end.

(** [Save] writes the row under its primary key, present or not. *)
Definition GormMailStore_UpdateMail (s : GormMailStore) (mail : option Mail)
  : result unit * GormMailStore :=
  match mail with
  | None => (Err ErrMailNilOrNoID, s)
  | Some m =>
      if String.eqb (ID m) EmptyString then (Err ErrMailNilOrNoID, s)
      else match db s !! ID m with
           | None => (Err (ErrMailNotFound (ID m)), s)
           | Some _ =>
               match mailToEntity m with
               | Ok entity => (Ok (), mkGormMailStore (<[eID entity := entity]> (db s)))
               | Err e => (Err e, s)
               | Panic => (Panic, s)
               end
           end
  end.

Definition GormMailStore_DeleteMail (s : GormMailStore) (mailID : string)
  : result unit * GormMailStore :=
  if String.eqb mailID EmptyString then (Err ErrMailIDEmpty, s)
  else match db s !! mailID with
       | None => (Err (ErrMailNotFound mailID), s)
       | Some _ => (Ok (), mkGormMailStore (delete mailID (db s)))
       end.

(** The loop of [CreateBatchMails]: it fills [entities] and [ids], and
    stops at the first mail that cannot be converted. *)
Fixpoint GormMailStore_CreateBatchMails_loop
    (batch : list (option positive)) (now : nat → Z) (n : nat)
    (h : Heap) (ids : list string) (entities : list MailEntity)
  : result (list string * list MailEntity) * Heap :=
  match batch with
  | [] => (Ok (ids, entities), h)
  | None :: rest => GormMailStore_CreateBatchMails_loop rest now n h ids entities
  | Some p :: rest =>
      match h !! p with
      | None => (Panic, h)
      | Some m =>
          let '(m, n) :=
            if String.eqb (ID m) EmptyString
            then (set_ID ("mail_" +:+ pretty (now n) +:+ "_"
                          +:+ pretty (Z.of_nat (length ids))) m, S n)
            else (m, n) in
          let h := <[p := m]> h in
          match mailToEntity m with
          | Ok entity =>
              GormMailStore_CreateBatchMails_loop rest now n h
                (ids ++ [ID m]) (entities ++ [entity])
          | Err e => (Err e, h)
          | Panic => (Panic, h)
          end
      end
  end.

(** [tx.Create(&entities)] inside the transaction: one insert of all the
    rows, refused as a whole when a primary key is taken or repeated. *)
Definition insert_rows (entities : list MailEntity) (table : gmap string MailEntity)
  : option (gmap string MailEntity) :=
  foldl (λ acc entity,
           table ← acc;
           match table !! eID entity with
           | Some _ => None
           | None => Some (<[eID entity := entity]> table)
           end)
        (Some table) entities.

Definition GormMailStore_CreateBatchMails
    (s : GormMailStore) (h : Heap) (batch : list (option positive)) (now : nat → Z)
  : result (list string) * GormMailStore * Heap :=
  if bool_decide (length batch = 0%nat) then (Ok [], s, h)
  else
    match GormMailStore_CreateBatchMails_loop batch now 0%nat h [] [] with
    | (Ok (ids, entities), h) =>
        match insert_rows entities (db s) with
        | Some table => (Ok ids, mkGormMailStore table, h)
        | None => (Err ErrCreateBatch, s, h)
        end
    | (Err e, h) => (Err e, s, h)
    | (Panic, h) => (Panic, s, h)
    end.

(** [Delete(&MailEntity{}, cond)]: the rows left and [RowsAffected]. *)
Definition delete_where (cond : MailEntity → bool) (table : gmap string MailEntity)
  : gmap string MailEntity * Z :=
  (filter (λ kv, cond kv.2 = false) table,
   Z.of_nat (size (filter (λ kv, cond kv.2 = true) table))).

Definition GormMailStore_DeleteMailsByRecipient (s : GormMailStore) (recipientID : string)
  : result unit * GormMailStore :=
  if String.eqb recipientID EmptyString then (Err ErrRecipientEmpty, s)
  else (Ok (), mkGormMailStore
                 (delete_where (λ row, String.eqb (eRecipientID row) recipientID) (db s)).1).

(** ["expire_time != ? AND expire_time < ?"] with the zero time and
    [beforeTime]. *)
Definition GormMailStore_DeleteExpiredMails (s : GormMailStore) (beforeTime : Time)
  : result Z * GormMailStore :=
  let '(table, rowsAffected) :=
    delete_where (λ row, negb (eExpireTime row =? GoTime.zero)
                         && (eExpireTime row <? beforeTime)) (db s) in
  (Ok rowsAffected, mkGormMailStore table).

(** [Order("create_time DESC")]; rows with equal [create_time] come in an
    order the engine chooses. *)
Definition create_time_desc (a b : MailEntity) : Prop := eCreateTime b ≤ eCreateTime a.

#[global] Instance create_time_desc_dec : RelDecision create_time_desc.
Proof. intros a b. unfold create_time_desc. apply _. Defined.

Definition order_create_time_desc (rows : list MailEntity) : list MailEntity :=
  merge_sort create_time_desc rows.

(** [Offset] and [Limit] as GORM builds them: no [OFFSET] clause unless the
    offset is positive, no [LIMIT] clause for a negative limit. *)
Definition Offset (offset : Z) (rows : list MailEntity) : list MailEntity :=
  if 0 <? offset then drop (Z.to_nat offset) rows else rows.

Definition Limit (limit : Z) (rows : list MailEntity) : list MailEntity :=
  if 0 <=? limit then take (Z.to_nat limit) rows else rows.

Definition table_rows (s : GormMailStore) : list MailEntity := (map_to_list (db s)).*2.

Definition GormMailStore_GetMailsByRecipient
    (s : GormMailStore) (recipientID : string) (page size : Z) : result (list Mail * Z) :=
  if String.eqb recipientID EmptyString then Err ErrRecipientEmpty
  else
    let page := default_page page in
    let size := default_size size in
    let selected :=
      filter (λ row, String.eqb (eRecipientID row) recipientID = true) (table_rows s) in
    let total := Z.of_nat (length selected) in
    if total =? 0 then Ok ([], 0)
    else
      let offset := GoInt.mul (GoInt.sub page 1) size in
      let entities := Limit size (Offset offset (order_create_time_desc selected)) in
      match entitiesToMails entities with
      | Ok mails_ => Ok (mails_, total)
      | Err e => Err e
      | Panic => Panic
      end.

(** The conditions [QueryMails] chains with [Where]; chained conditions
    are joined by [AND].  [now] is read only when [ExpiredOnly] is set. *)
Definition GormMailStore_where (filter_ : option MailFilter) (now : Time) (row : MailEntity)
  : bool :=
  match filter_ with
  | None => true
  | Some filter_ =>
      (if negb (String.eqb (fSenderID filter_) EmptyString)
       then String.eqb (eSenderID row) (fSenderID filter_) else true)
      && (if negb (String.eqb (fRecipientID filter_) EmptyString)
          then String.eqb (eRecipientID row) (fRecipientID filter_) else true)
      && match fReadStatus filter_ with
         | Some b => Bool.eqb (eReadStatus row) b
         | None => true
         end
      && match fStartTime filter_ with
         | Some t => t <=? eCreateTime row
         | None => true
         end
      && match fEndTime filter_ with
         | Some t => eCreateTime row <=? t
         | None => true
         end
      && (if fExpiredOnly filter_
          then negb (eExpireTime row =? GoTime.zero) && (eExpireTime row <? now)
          else true)
      && (if (0 <? Z.of_nat (length (fTags filter_)))
          then forallb (λ tag, SQL.like ("%" +:+ tag +:+ "%") (eTags row)) (fTags filter_)
          else true)
  end.

Definition GormMailStore_QueryMails
    (s : GormMailStore) (filter_ : option MailFilter) (page size : Z) (now : Time)
  : result (list Mail * Z) :=
  let page := default_page page in
  let size := default_size size in
  let selected := filter (λ row, GormMailStore_where filter_ now row = true) (table_rows s) in
  let total := Z.of_nat (length selected) in
  if total =? 0 then Ok ([], 0)
  else
    let offset := GoInt.mul (GoInt.sub page 1) size in
    let entities := Limit size (Offset offset (order_create_time_desc selected)) in
    match entitiesToMails entities with
    | Ok mails_ => Ok (mails_, total)
    | Err e => Err e
    | Panic => Panic
    end.

Definition GormMailStore_CountUnreadMails (s : GormMailStore) (recipientID : string)
  : result Z :=
  if String.eqb recipientID EmptyString then Err ErrRecipientEmpty
  else Ok (Z.of_nat (length (filter
             (λ row, String.eqb (eRecipientID row) recipientID
                     && Bool.eqb (eReadStatus row) false = true)
             (table_rows s)))).

Definition GormMailStore_CountMailsWithAttachments
    (s : GormMailStore) (recipientID : string) : result Z :=
  if String.eqb recipientID EmptyString then Err ErrRecipientEmpty
  else Ok (Z.of_nat (length (filter
             (λ row, String.eqb (eRecipientID row) recipientID
                     && negb (String.eqb (eAttachments row) EmptyString)
                     && negb (String.eqb (eAttachments row) "[]")
                     && negb (String.eqb (eAttachments row) "{}") = true)
             (table_rows s)))).

(** The mails [ExportMailLogs] hands to [json.MarshalIndent]: the first
    page of [QueryMails] with 10000 mails to the page. *)
Definition GormMailStore_ExportMailLogs_mails
    (s : GormMailStore) (filter_ : option MailFilter) (now : Time) : result (list Mail) :=
  match GormMailStore_QueryMails s filter_ 1 10000 now with
  | Ok (mails_, _) => Ok mails_
  | Err e => Err e
  | Panic => Panic
  end.

Definition GormMailStore_ExportMailLogs
    (s : GormMailStore) (filter_ : option MailFilter) (now : Time) : result string :=
  match GormMailStore_ExportMailLogs_mails s filter_ now with
  | Ok mails_ =>
      match MarshalIndent_mails mails_ with
      | Some data => Ok data
      | None => Err ErrMarshalIndent
      end
  | Err e => Err e
  | Panic => Panic
  end.

(** ** The manager *)

(** The [MailStore] interface, for the methods [MarkAsRead] calls. *)
Class MailStore (Store : Type) := {
  GetMail : Store → string → result Mail;
  UpdateMail : Store → option Mail → result unit * Store;
}.

#[global] Instance MemoryMailStore_MailStore : MailStore MemoryMailStore :=
  {| GetMail := MemoryMailStore_GetMail; UpdateMail := MemoryMailStore_UpdateMail |}.

#[global] Instance GormMailStore_MailStore : MailStore GormMailStore :=
  {| GetMail := GormMailStore_GetMail; UpdateMail := GormMailStore_UpdateMail |}.

(** [DefaultMailManager.MarkAsRead], on the state of the manager's store. *)
Definition MarkAsRead {Store} `{MailStore Store} (store : Store) (mailID : string)
  : result unit * Store :=
  if String.eqb mailID EmptyString then (Err ErrMailIDEmpty, store)
  else match GetMail store mailID with
       | Ok mail =>
           if ReadStatus mail then (Ok (), store)
           else UpdateMail store (Some (set_ReadStatus true mail))
       | Err e => (Err e, store)
       | Panic => (Panic, store)
       end.

(** The part of the [MailStore] interface that the sending functions of
    the manager call. *)
Class MailCreator (Store : Type) := {
  CreateMail : Store → option Mail → Z → result string * Store * option Mail;
  CreateBatchMails :
    Store → Heap → list (option positive) → (nat → Z) →
    result (list string) * Store * Heap;
}.

#[global] Instance MemoryMailStore_MailCreator : MailCreator MemoryMailStore :=
  {| CreateMail := MemoryMailStore_CreateMail;
     CreateBatchMails := MemoryMailStore_CreateBatchMails |}.

#[global] Instance GormMailStore_MailCreator : MailCreator GormMailStore :=
  {| CreateMail := GormMailStore_CreateMail;
     CreateBatchMails := GormMailStore_CreateBatchMails |}.

(** [prepareMailForSending]: the caller's mail after the call; [now] is the
    reading of [time.Now()]. *)
Definition prepareMailForSending (mail : Mail) (now : Time) : Mail :=
  mkMail (ID mail) (SenderID mail) (RecipientID mail) (Title mail) (Content mail)
         (match Attachments mail with
          | None => Some ∅
          | Some a => Some a
          end)
         false
         (if IsZero (CreateTime mail) then now else CreateTime mail)
         (ExpireTime mail)
         (match Tags mail with
          | None => Some []
          | Some ts => Some ts
          end).

(** [SendMail]: [now] is the clock reading of [prepareMailForSending],
    [unixNano] the one the store takes when it generates an id. *)
Definition SendMail {Store} `{MailCreator Store}
    (store : Store) (mail : option Mail) (now : Time) (unixNano : Z)
  : result string * Store * option Mail :=
  match mail with
  | None => (Err ErrMailNil, store, None)
  | Some m => CreateMail store (Some (prepareMailForSending m now)) unixNano
  end.

(** The loop of [SendSystemAnnouncement] that looks for the tag. *)
Fixpoint hasAnnouncementTag (tags : list string) : bool :=
  match tags with
  | [] => false
  | tag :: rest =>
      if String.eqb tag "system_announcement" then true else hasAnnouncementTag rest
  end.

Definition SendSystemAnnouncement {Store} `{MailCreator Store}
    (store : Store) (mail : option Mail) (now : Time) (unixNano : Z)
  : result string * Store * option Mail :=
  match mail with
  | None => (Err ErrMailNil, store, None)
  | Some m =>
      let m := prepareMailForSending m now in
      let tags :=
        if hasAnnouncementTag (elems (Tags m)) then Tags m
        else Some (elems (Tags m) ++ ["system_announcement"]) in
      let m := mkMail (ID m) "system" "all_players" (Title m) (Content m) (Attachments m)
                      (ReadStatus m) (CreateTime m) (ExpireTime m) tags in
      CreateMail store (Some m) unixNano
  end.

(** The mail [SendBatchMail] builds for one recipient: no id, the tags in
    a slice of their own, the attachments copied when there are any. *)
Definition recipientMail (mail : Mail) (recipientID : string) : Mail :=
  mkMail EmptyString (SenderID mail) recipientID (Title mail) (Content mail)
         (match Attachments mail with
          | Some a => Some (map_fold (λ k v acc, <[k:=v]> acc) ∅ a)
          | None => None
          end)
         false (CreateTime mail) (ExpireTime mail)
         (Some (elems (Tags mail))).

(** The addresses of the [n] mails [SendBatchMail] allocates.  No one else
    holds them, so they live in a heap of their own. *)
Definition fresh_addresses (n : nat) : list positive := Pos.of_succ_nat <$> seq 0 n.

(** [SendBatchMail]: the third component is the caller's template after the
    call; [clock] gives the readings the store takes for the ids. *)
Definition SendBatchMail {Store} `{MailCreator Store}
    (store : Store) (mail : option Mail) (recipientIDs : list string)
    (now : Time) (clock : nat → Z)
  : result (list string) * Store * option Mail :=
  match mail with
  | None => (Err ErrMailNil, store, None)
  | Some m =>
      if bool_decide (length recipientIDs = 0%nat) then (Ok [], store, Some m)
      else
        let m := prepareMailForSending m now in
        let mails_ :=
          recipientMail m <$> filter (λ recipientID, recipientID ≠ EmptyString) recipientIDs in
        let addresses := fresh_addresses (length mails_) in
        let h : Heap := list_to_map (zip addresses mails_) in
        let '(r, store, _) := CreateBatchMails store h (Some <$> addresses) clock in
        (r, store, Some m)
  end.

(** The part of the [MailStore] interface that [MarkAllAsRead] pages
    through. *)
Class MailLister (Store : Type) := {
  GetMailsByRecipient : Store → string → Z → Z → result (list Mail * Z);
}.

#[global] Instance MemoryMailStore_MailLister : MailLister MemoryMailStore :=
  {| GetMailsByRecipient := MemoryMailStore_GetMailsByRecipient |}.

#[global] Instance GormMailStore_MailLister : MailLister GormMailStore :=
  {| GetMailsByRecipient := GormMailStore_GetMailsByRecipient |}.

(** The inner loop of [MarkAllAsRead]: every unread mail of the page is
    marked and written back; the first error ends the call. *)
Fixpoint markEach {Store} `{MailStore Store} (store : Store) (page_mails : list Mail)
  : result unit * Store :=
  match page_mails with
  | [] => (Ok (), store)
  | mail :: rest =>
      if ReadStatus mail then markEach store rest
      else match UpdateMail store (Some (set_ReadStatus true mail)) with
           | (Ok _, store) => markEach store rest
           | (Err e, store) => (Err e, store)
           | (Panic, store) => (Panic, store)
           end
  end.

(** The outer loop of [MarkAllAsRead], a [for] without condition: [fuel]
    bounds the number of pages read, and [None] says that the bound was
    reached before the loop ended. *)
Fixpoint MarkAllAsRead_loop {Store} `{MailStore Store} `{MailLister Store}
    (fuel : nat) (store : Store) (recipientID : string) (page totalProcessed : Z)
  : option (result unit * Store) :=
  match fuel with
  | O => None
  | S fuel =>
      match GetMailsByRecipient store recipientID page 100 with
      | Ok (page_mails, total) =>
          if bool_decide (length page_mails = 0%nat) then Some (Ok (), store)
          else
            match markEach store page_mails with
            | (Ok _, store) =>
                let totalProcessed :=
                  GoInt.add totalProcessed (Z.of_nat (length page_mails)) in
                if totalProcessed >=? total then Some (Ok (), store)
                else MarkAllAsRead_loop fuel store recipientID (GoInt.add page 1)
                       totalProcessed
            | (Err e, store) => Some (Err e, store)
            | (Panic, store) => Some (Panic, store)
            end
      | Err e => Some (Err e, store)
      | Panic => Some (Panic, store)
      end
  end.

Definition MarkAllAsRead {Store} `{MailStore Store} `{MailLister Store}
    (fuel : nat) (store : Store) (recipientID : string) : option (result unit * Store) :=
  if String.eqb recipientID EmptyString then Some (Err ErrRecipientEmpty, store)
  else MarkAllAsRead_loop fuel store recipientID 1 0.

(** Filters used to state how the operations of a store relate. *)
Definition expired_filter : MailFilter :=
  mkMailFilter EmptyString EmptyString None None None true [].

Definition recipient_filter (recipientID : string) : MailFilter :=
  mkMailFilter EmptyString recipientID None None None false [].

Definition unread_filter (recipientID : string) : MailFilter :=
  mkMailFilter EmptyString recipientID (Some false) None None false [].

(** ** The contract in the words of the specification *)

(** A mail satisfies a filter when every populated field of the filter
    holds of it; the tags of the filter are alternatives. *)
Definition filter_holds (mail : Mail) (f : MailFilter) (now : Time) : Prop :=
  (fSenderID f ≠ EmptyString → SenderID mail = fSenderID f)
  ∧ (fRecipientID f ≠ EmptyString → RecipientID mail = fRecipientID f)
  ∧ (∀ b, fReadStatus f = Some b → ReadStatus mail = b)
  ∧ (∀ t, fStartTime f = Some t → t ≤ CreateTime mail)
  ∧ (∀ t, fEndTime f = Some t → CreateTime mail ≤ t)
  ∧ (fExpiredOnly f = true → ExpireTime mail ≠ 0 ∧ ExpireTime mail < now)
  ∧ (fTags f ≠ [] → ∃ tag, tag ∈ fTags f ∧ tag ∈ elems (Tags mail)).

(** What a batch may do to the caller's objects: no object appears or
    disappears, and an object differs from what it was at most in its [ID],
    and only when its [ID] was empty and the batch holds a pointer to it. *)
Definition only_IDs_written (batch : list (option positive)) (h h' : Heap) : Prop :=
  (∀ p, h !! p = None → h' !! p = None)
  ∧ ∀ p m, h !! p = Some m →
      ∃ id, h' !! p = Some (set_ID id m)
            ∧ (ID m ≠ EmptyString ∨ Some p ∉ batch → id = ID m).

(** The ids a batch returns: the [ID] fields, after the call, of the
    objects behind the non-nil pointers, in the order of the batch; none is
    empty. *)
Definition ids_returned (batch : list (option positive)) (h' : Heap) (ids : list string)
  : Prop :=
  ids = omap (λ entry, p ← entry; ID <$> h' !! p) batch
  ∧ Forall (λ id, id ≠ EmptyString) ids.

(** What [MarkAllAsRead] is to do to a stored mail. *)
Definition mark_read_for (recipientID : string) (mail : Mail) : Mail :=
  if String.eqb (RecipientID mail) recipientID then set_ReadStatus true mail else mail.

(** The stored mails in the middle of [MarkAllAsRead]: those with the
    given ids are marked already. *)
Definition mark_ids (ids : list string) (mail : Mail) : Mail :=
  if bool_decide (ID mail ∈ ids) then set_ReadStatus true mail else mail.

(** The sorted list that [GetMailsByRecipient] cuts its pages from. *)
Definition recipient_mails (s : MemoryMailStore) (recipientID : string) : list Mail :=
  sort_newest_first
    (copyMail <$> filter (λ mail, String.eqb (RecipientID mail) recipientID = true)
                         (range_mails s)).

(** Every mail is stored under its own [ID], which is not empty.  Every
    state the in-memory store reaches from [NewMemoryMailStore] is such a
    state. *)
Definition keys_are_IDs (s : MemoryMailStore) : Prop :=
  ∀ id mail, mails s !! id = Some mail → ID mail = id ∧ id ≠ EmptyString.

(** No mail is stored under the empty id.  Every state the in-memory
    store reaches from [NewMemoryMailStore] is such a state. *)
Definition no_empty_id (s : MemoryMailStore) : Prop := mails s !! EmptyString = None.

End Inboxer.

(** ** A world without attachment values

    An instance of the library interface in which no attachment value
    exists: every attachment map is empty, [Marshal] writes [{}] and
    [Unmarshal] reads [{}] and [null].  The closed examples below are
    about mails with nil or empty attachments. *)
Definition no_values_Marshal (a : gmap string Empty_set) : option string := Some "{}".

Definition no_values_Unmarshal (text : string) : option (option (gmap string Empty_set)) :=
  if String.eqb text "{}" then Some (Some ∅)
  else if String.eqb text "null" then Some None
  else None.

#[global] Program Instance no_values : AttachmentJSON := {|
  AttValue := Empty_set;
  Marshal_attachments := no_values_Marshal;
  Unmarshal_attachments := no_values_Unmarshal;
|}.
Next Obligation. done. Qed.
Next Obligation. reflexivity. Qed.
Next Obligation. intros a text [= <-]. by exists ∅. Qed.

(** The decimal numerals that [strconv]/[fmt] write hold no underscore. *)
Fixpoint no_underscore (text : string) : bool :=
  match text with
  | EmptyString => true
  | String c rest => negb (Ascii.eqb c "_") && no_underscore rest
  end.

(** Strings of ASCII characters: the strings on which the model of
    [encoding/json] above is exact. *)
Fixpoint ascii_string (s : string) : bool :=
  match s with
  | EmptyString => true
  | String c rest => (nat_of_ascii c <? 128)%nat && ascii_string rest
  end.

(** A mail without attachments, for the closed examples. *)
Definition example_mail (id : string) (tags : option (list string)) : Mail :=
  mkMail id "system" "user1" "Hello" "Welcome" None false 100 0 tags.

Definition example_filter (tags : list string) : MailFilter :=
  mkMailFilter EmptyString EmptyString None None None false tags.

(** A table of [n] rows without tags or attachments, with the keys
    [0], [1], ... written in decimal. *)
Definition example_row (i : nat) : MailEntity :=
  mkMailEntity (pretty i) "system" "user1" "Hello" "Welcome" "{}" false 100 0 "[]".

Definition example_table (n : nat) : gmap string MailEntity :=
  list_to_map ((λ i, (pretty i, example_row i)) <$> seq 0 n).

(** Mails, an in-memory store and a table for the closed examples: two
    mails to [user1], one of them read, and one mail to [user2]. *)
Definition example_mail_at (id recipient : string) (created : Z) (read : bool) : Mail :=
  mkMail id "system" recipient "Hello" "Welcome" None read created 0 None.

Definition example_store : MemoryMailStore :=
  mkMemoryMailStore
    (<["m1" := example_mail_at "m1" "user1" 100 false]>
       (<["m2" := example_mail_at "m2" "user1" 200 true]>
          (<["m3" := example_mail_at "m3" "user2" 300 false]> ∅)))
    (mkSimpleIDGenerator 0).

Definition example_row_at (id recipient : string) (created : Z) (read : bool) : MailEntity :=
  mkMailEntity id "system" recipient "Hello" "Welcome" "{}" read created 0 "[]".

Definition example_gorm_store : GormMailStore :=
  mkGormMailStore
    (<["m1" := example_row_at "m1" "user1" 100 false]>
       (<["m2" := example_row_at "m2" "user1" 200 true]>
          (<["m3" := example_row_at "m3" "user2" 300 false]> ∅))).

(** * Properties *)
Section Properties.
Context `{AttachmentJSON}.

Abbreviation Heap := (gmap positive Mail) (only parsing).

Lemma hasTag_inner_elem_of filterTag mailTags :
  hasTag_inner filterTag mailTags = true ↔ filterTag ∈ mailTags.
Proof.
  induction mailTags as [|mailTag rest IH]; simpl.
  - split; [done | by intros ?%elem_of_nil].
  - rewrite elem_of_cons. destruct (String.eqb_spec filterTag mailTag) as [->|Hne].
    + split; [by left | done].
    + rewrite IH. split; [by right | by intros [?|?]].
Qed.

Lemma hasTag_exists filterTags mailTags :
  hasTag filterTags mailTags = true ↔ ∃ tag, tag ∈ filterTags ∧ tag ∈ mailTags.
Proof.
  induction filterTags as [|filterTag rest IH]; simpl.
  - split; [done | by intros (? & ?%elem_of_nil & _)].
  - destruct (hasTag_inner filterTag mailTags) eqn:Hin.
    + apply hasTag_inner_elem_of in Hin. split; [|done].
      intros _. exists filterTag. split; [left | done].
    + rewrite IH. split.
      * intros (tag & ? & ?). exists tag. split; [by right | done].
      * intros (tag & [->|?]%elem_of_cons & Hm).
        -- apply hasTag_inner_elem_of in Hm. congruence.
        -- by exists tag.
Qed.

Lemma guard_string (wanted actual : string) :
  negb (String.eqb wanted EmptyString) && negb (String.eqb actual wanted) = false
  ↔ (wanted ≠ EmptyString → actual = wanted).
Proof.
  destruct (String.eqb_spec wanted EmptyString), (String.eqb_spec actual wanted);
    simpl; naive_solver.
Qed.

Lemma guard_read (wanted : option bool) (actual : bool) :
  match wanted with Some b => negb (Bool.eqb actual b) | None => false end = false
  ↔ (∀ b, wanted = Some b → actual = b).
Proof. destruct wanted as [[]|], actual; simpl; naive_solver. Qed.

Lemma guard_start (start_ : option Z) (created : Z) :
  match start_ with Some t => Before created t | None => false end = false
  ↔ (∀ t, start_ = Some t → t ≤ created).
Proof.
  unfold Before. destruct start_ as [t|]; [|naive_solver].
  destruct (Z.ltb_spec created t); split; intros Hx; try done.
  - specialize (Hx _ eq_refl). lia.
  - intros ? [= <-]. lia.
Qed.

Lemma guard_end (end_ : option Z) (created : Z) :
  match end_ with Some t => After created t | None => false end = false
  ↔ (∀ t, end_ = Some t → created ≤ t).
Proof.
  unfold After. destruct end_ as [t|]; [|naive_solver].
  destruct (Z.ltb_spec t created); split; intros Hx; try done.
  - specialize (Hx _ eq_refl). lia.
  - intros ? [= <-]. lia.
Qed.

Lemma guard_expired (expiredOnly : bool) (expires now : Z) :
  expiredOnly && (IsZero expires || negb (Before expires now)) = false
  ↔ (expiredOnly = true → expires ≠ 0 ∧ expires < now).
Proof.
  unfold IsZero, Before.
  destruct expiredOnly, (Z.eqb_spec expires 0), (Z.ltb_spec expires now); simpl;
    split; try done; try (intros Hx; destruct (Hx eq_refl); lia); intros _ _; lia.
Qed.

Lemma guard_tags (filterTags mailTags : list string) :
  (0 <? Z.of_nat (length filterTags)) && negb (hasTag filterTags mailTags) = false
  ↔ (filterTags ≠ [] → ∃ tag, tag ∈ filterTags ∧ tag ∈ mailTags).
Proof.
  rewrite <-hasTag_exists.
  destruct filterTags as [|tag0 tags]; [simpl; naive_solver|].
  replace (0 <? Z.of_nat (length (tag0 :: tags))) with true
    by (symmetry; apply Z.ltb_lt; simpl; lia).
  destruct (hasTag (tag0 :: tags) mailTags); simpl; naive_solver.
Qed.

Lemma matchMail_Some mail f now :
  matchMail mail (Some f) now = true ↔ filter_holds mail f now.
Proof.
  unfold matchMail, filter_holds.
  rewrite <-!guard_string, <-guard_read, <-guard_start, <-guard_end,
    <-guard_expired, <-guard_tags.
  repeat match goal with
         | |- context [if ?g then false else _] => destruct g
         end; intuition congruence.
Qed.

Lemma Sorted_sort_newest_first l : Sorted newest_first (sort_newest_first l).
Proof.
  apply Sorted_merge_sort. intros a b. unfold newest_first, After.
  destruct (Z.ltb_spec (CreateTime a) (CreateTime b)),
           (Z.ltb_spec (CreateTime b) (CreateTime a)); auto; lia.
Qed.

Lemma sort_newest_first_Permutation l : sort_newest_first l ≡ₚ l.
Proof. apply merge_sort_Permutation. Qed.

(** The matches a query cuts its page from: the stored mails that
    [matchMail] accepts, newest first. *)
Lemma matchedMails_sorted s filter_ now :
  Sorted newest_first (MemoryMailStore_matchedMails s filter_ now)
  ∧ MemoryMailStore_matchedMails s filter_ now
    ≡ₚ copyMail <$> filter (λ mail, matchMail mail filter_ now = true) (range_mails s).
Proof.
  split; [apply Sorted_sort_newest_first | apply sort_newest_first_Permutation].
Qed.

(** C7. The match predicate shared by the queries accepts a mail exactly
    when every populated field of the filter holds of it — sender and
    recipient by equality of strings, read status by equality of booleans,
    the creation time within inclusive bounds, [ExpiredOnly] by an expiry
    time that is set and strictly before [now], and a non-empty tag list by
    one of its tags occurring among the mail's tags; a nil filter accepts
    every mail.  [QueryMails] reads [now] once and selects the stored mails
    that [matchMail] accepts at that one instant. *)
Theorem matchMail_correct :
  (∀ mail now, matchMail mail None now = true)
  ∧ (∀ mail f now, matchMail mail (Some f) now = true ↔ filter_holds mail f now)
  ∧ (∀ s filter_ now,
       MemoryMailStore_matchedMails s filter_ now
       ≡ₚ copyMail <$> filter (λ mail, matchMail mail filter_ now = true) (range_mails s)).
Proof.
  split; [done|]. split; [apply matchMail_Some|].
  intros. apply sort_newest_first_Permutation.
Qed.

(** *** Deleting by a test on the stored values *)

Lemma lookup_delete_all_notin (toDelete : list string) (m : gmap string Mail) (k : string) :
  k ∉ toDelete → delete_all toDelete m !! k = m !! k.
Proof.
  unfold delete_all. revert m.
  induction toDelete as [|id rest IH]; intros m Hk; [done|].
  apply not_elem_of_cons in Hk as [Hne Hk]. simpl.
  rewrite IH by done. by apply lookup_delete_ne.
Qed.

Lemma lookup_delete_all_None (toDelete : list string) (m : gmap string Mail) (k : string) :
  m !! k = None → delete_all toDelete m !! k = None.
Proof.
  unfold delete_all. revert m.
  induction toDelete as [|id rest IH]; intros m Hk; [done|].
  simpl. apply IH. destruct (decide (id = k)) as [->|Hne].
  - apply lookup_delete_eq.
  - by rewrite lookup_delete_ne.
Qed.

Lemma lookup_delete_all_in (toDelete : list string) (m : gmap string Mail) (k : string) :
  k ∈ toDelete → delete_all toDelete m !! k = None.
Proof.
  revert m. induction toDelete as [|id rest IH]; intros m Hk.
  - by apply elem_of_nil in Hk.
  - apply elem_of_cons in Hk as [->|Hk].
    + apply (lookup_delete_all_None rest). apply lookup_delete_eq.
    + apply (IH (delete id m) Hk).
Qed.

Lemma elem_of_selected_keys {A} (P : string * A → Prop) `{!∀ kv, Decision (P kv)}
    (m : gmap string A) (k : string) :
  k ∈ (filter P (map_to_list m)).*1 ↔ ∃ v, m !! k = Some v ∧ P (k, v).
Proof.
  rewrite list_elem_of_fmap. split.
  - intros ([k' v] & -> & [HP Hin%elem_of_map_to_list]%list_elem_of_filter). eauto.
  - intros (v & Hm & HP). exists (k, v). split; [done|].
    apply list_elem_of_filter. split; [done | by apply elem_of_map_to_list].
Qed.

Lemma delete_all_selected (P : string * Mail → Prop) `{!∀ kv, Decision (P kv)}
    (m : gmap string Mail) :
  delete_all (filter P (map_to_list m)).*1 m = filter (λ kv, ¬ P kv) m.
Proof.
  apply map_eq. intros k.
  destruct (decide (k ∈ (filter P (map_to_list m)).*1)) as [Hk|Hk].
  - rewrite lookup_delete_all_in by done.
    apply elem_of_selected_keys in Hk as (v & Hm & HP).
    symmetry. apply map_lookup_filter_None. right. intros x Hx.
    rewrite Hm in Hx. injection Hx as <-. by intros ?.
  - rewrite lookup_delete_all_notin by done.
    destruct (m !! k) as [v|] eqn:Hm.
    + symmetry. apply map_lookup_filter_Some. split; [done|].
      intros HP. apply Hk. apply elem_of_selected_keys. eauto.
    + symmetry. apply map_lookup_filter_None. by left.
Qed.

Lemma length_selected {A} (P : string * A → Prop) `{!∀ kv, Decision (P kv)}
    (m : gmap string A) :
  length (filter P (map_to_list m)) = size (filter P m).
Proof.
  rewrite map_filter_alt, map_size_list_to_map; [done|].
  apply (sublist_NoDup _ (map_to_list m).*1); [apply NoDup_fst_map_to_list|].
  apply fmap_sublist. apply sublist_filter.
Qed.

Lemma size_filter_complement {A} (P : string * A → Prop) `{!∀ kv, Decision (P kv)}
    (m : gmap string A) :
  size m = (size (filter P m) + size (filter (λ kv, ¬ P kv) m))%nat.
Proof.
  rewrite <-map_size_disj_union by apply map_disjoint_filter_complement.
  by rewrite map_filter_union_complement.
Qed.

(** C5. [DeleteExpiredMails], at any state of either store and any time
    [t], removes exactly the mails whose [ExpireTime] is set and strictly
    before [t]: a mail is stored afterwards exactly when it was stored
    before and is not such a mail, unchanged; the call returns without
    error the number of mails it removed, also when that number is zero. *)
Theorem DeleteExpiredMails_correct :
  (∀ (s : MemoryMailStore) (t : Z),
     let s' := (MemoryMailStore_DeleteExpiredMails s t).2 in
     (∀ id mail,
        mails s' !! id = Some mail
        ↔ mails s !! id = Some mail ∧ ¬ (ExpireTime mail ≠ 0 ∧ ExpireTime mail < t))
     ∧ (MemoryMailStore_DeleteExpiredMails s t).1
       = Ok (Z.of_nat (size (mails s)) - Z.of_nat (size (mails s')))
     ∧ idGen s' = idGen s)
  ∧ (∀ (s : GormMailStore) (t : Z),
       let s' := (GormMailStore_DeleteExpiredMails s t).2 in
       (∀ id row,
          db s' !! id = Some row
          ↔ db s !! id = Some row ∧ ¬ (eExpireTime row ≠ 0 ∧ eExpireTime row < t))
       ∧ (GormMailStore_DeleteExpiredMails s t).1
         = Ok (Z.of_nat (size (db s)) - Z.of_nat (size (db s')))).
Proof.
  split.
  - intros s t. unfold MemoryMailStore_DeleteExpiredMails. simpl.
    rewrite delete_all_selected. split; [|split; [|done]].
    + intros id mail. rewrite map_lookup_filter_Some. simpl.
      unfold expired_before, IsZero, Before.
      destruct (Z.eqb_spec (ExpireTime mail) 0), (Z.ltb_spec (ExpireTime mail) t);
        simpl; split; intros [Hm HP]; split; try done; try lia.
    + rewrite length_fmap, length_selected. f_equal.
      rewrite (size_filter_complement (λ kv, expired_before t kv.2 = true) (mails s)).
      lia.
  - intros s t. unfold GormMailStore_DeleteExpiredMails, delete_where, GoTime.zero. simpl.
    set (cond := λ row : MailEntity, negb (eExpireTime row =? 0) && (eExpireTime row <? t)).
    split.
    + intros id row. rewrite map_lookup_filter_Some. simpl. unfold cond.
      destruct (Z.eqb_spec (eExpireTime row) 0), (Z.ltb_spec (eExpireTime row) t);
        simpl; split; intros [Hm HP]; split; try done; try lia.
    + f_equal.
      rewrite (size_filter_complement (λ kv, cond kv.2 = true) (db s)).
      assert (filter (λ kv : string * MailEntity, ¬ cond kv.2 = true) (db s)
              = filter (λ kv, cond kv.2 = false) (db s)) as ->;
        [|subst cond; simpl; lia].
      apply map_filter_ext. intros k row _. simpl. by destruct (cond row).
Qed.

(** *** Pages *)

Lemma wrap_in_range z : GoInt.in_range z → GoInt.wrap z = z.
Proof.
  unfold GoInt.in_range, GoInt.min_int, GoInt.max_int, GoInt.wrap. intros Hz.
  rewrite Z.mod_small; lia.
Qed.


Lemma default_size_pos size : 1 ≤ default_size size.
Proof. unfold default_size. destruct (Z.leb_spec size 0); lia. Qed.

(** As long as [(page-1)*size + size] fits a Go [int], [paginate] cuts the
    mails at positions [(page-1)*size] up to [(page-1)*size + size], as far
    as there are any, and reports how many mails there are in all. *)
Lemma paginate_in_range (matched : list Mail) (page size : Z) :
  1 ≤ page → 1 ≤ size → (page - 1) * size + size ≤ GoInt.max_int →
  paginate matched page size
  = Ok (take (Z.to_nat size) (drop (Z.to_nat ((page - 1) * size)) matched),
        Z.of_nat (length matched)).
Proof.
  intros Hpage Hsize Hfit. unfold paginate, GoInt.mul, GoInt.sub, GoInt.add.
  assert (0 ≤ (page - 1) * size) by nia.
  assert (GoInt.max_int = 2 ^ 63 - 1) as Hmax by reflexivity.
  rewrite (wrap_in_range (page - 1))
    by (unfold GoInt.in_range, GoInt.min_int; nia).
  rewrite (wrap_in_range ((page - 1) * size))
    by (unfold GoInt.in_range, GoInt.min_int; lia).
  rewrite (wrap_in_range ((page - 1) * size + size))
    by (unfold GoInt.in_range, GoInt.min_int; lia).
  set (start := (page - 1) * size) in *.
  set (total := Z.of_nat (length matched)).
  destruct (Z.geb_spec start total) as [Hge|Hlt].
  - rewrite drop_ge by (unfold total in Hge; lia). by rewrite take_nil.
  - unfold slice_expr.
    destruct (Z.gtb_spec (start + size) total) as [Hend|Hend].
    + rewrite bool_decide_eq_true_2 by (fold total; lia).
      f_equal. f_equal.
      rewrite !take_ge; [done| |]; rewrite length_drop; unfold total in *; lia.
    + rewrite bool_decide_eq_true_2 by (fold total; lia).
      do 3 f_equal. lia.
Qed.


(** *** Reading back the JSON text of the tags *)

Lemma read_escape_byte (c : ascii) (cur : string) (done : list string) (rest : string) :
  GoJSON.read_strings GoJSON.InString cur done (GoJSON.escape_byte c +:+ rest)
  = GoJSON.read_strings GoJSON.InString (cur +:+ String c EmptyString) done rest.
Proof.
  destruct c as [[] [] [] [] [] [] [] []]; reflexivity.
Qed.

Lemma append_assoc (a b c : string) : (a +:+ b) +:+ c = a +:+ (b +:+ c).
Proof.
  induction a as [|x a IH]; [done|].
  change (String x ((a +:+ b) +:+ c) = String x (a +:+ b +:+ c)). by rewrite IH.
Qed.

Lemma append_nil_r (a : string) : a +:+ EmptyString = a.
Proof.
  induction a as [|x a IH]; [done|].
  change (String x (a +:+ EmptyString) = String x a). by rewrite IH.
Qed.

Lemma read_escape_string (s cur : string) (done : list string) (rest : string) :
  GoJSON.read_strings GoJSON.InString cur done (GoJSON.escape_string s +:+ rest)
  = GoJSON.read_strings GoJSON.InString (cur +:+ s) done rest.
Proof.
  revert cur. induction s as [|c s IH]; intros cur.
  - by rewrite append_nil_r.
  - change (GoJSON.escape_string (String c s))
      with (GoJSON.escape_byte c +:+ GoJSON.escape_string s).
    rewrite append_assoc, read_escape_byte, IH, append_assoc. done.
Qed.

Lemma read_Marshal_string (st : GoJSON.reader_state) (s cur : string)
    (done : list string) (rest : string) :
  st = GoJSON.AfterOpen ∨ st = GoJSON.AfterComma →
  GoJSON.read_strings st cur done (GoJSON.Marshal_string s +:+ rest)
  = GoJSON.read_strings GoJSON.AfterString EmptyString (done ++ [s]) rest.
Proof.
  intros Hst. unfold GoJSON.Marshal_string.
  set (body := GoJSON.escape_string s +:+ String GoJSON.dquote EmptyString).
  assert (GoJSON.read_strings st cur done (String GoJSON.dquote body +:+ rest)
          = GoJSON.read_strings GoJSON.InString EmptyString done (body +:+ rest)) as ->.
  { destruct Hst as [-> | ->]; reflexivity. }
  unfold body. rewrite append_assoc, read_escape_string. reflexivity.
Qed.

Lemma read_Marshal_elements (st : GoJSON.reader_state) (l : list string)
    (cur : string) (done : list string) :
  st = GoJSON.AfterOpen ∨ st = GoJSON.AfterComma → l ≠ [] →
  GoJSON.read_strings st cur done (GoJSON.Marshal_elements l +:+ "]") = Some (done ++ l).
Proof.
  intros Hst Hl. revert st cur done Hst.
  induction l as [|s l IH]; [done|]. intros st cur done Hst.
  destruct l as [|s' l].
  - change (GoJSON.Marshal_elements [s]) with (GoJSON.Marshal_string s).
    rewrite read_Marshal_string by done. reflexivity.
  - set (tail := GoJSON.Marshal_elements (s' :: l)) in *.
    change (GoJSON.Marshal_elements (s :: s' :: l))
      with (GoJSON.Marshal_string s +:+ "," +:+ tail).
    rewrite append_assoc, read_Marshal_string by done.
    rewrite append_assoc.
    change (GoJSON.read_strings GoJSON.AfterString EmptyString (done ++ [s])
              ("," +:+ tail +:+ "]"))
      with (GoJSON.read_strings GoJSON.AfterComma EmptyString (done ++ [s]) (tail +:+ "]")).
    rewrite IH by auto. by rewrite <-app_assoc.
Qed.

Lemma Unmarshal_Marshal_strings (l : list string) :
  GoJSON.Unmarshal_strings (GoJSON.Marshal_strings l) = Some (Some l).
Proof.
  unfold GoJSON.Unmarshal_strings, GoJSON.Marshal_strings.
  set (body := GoJSON.Marshal_elements l +:+ "]").
  change (GoJSON.trim_left ("[" +:+ body)) with (String "[" body).
  change ("[" +:+ body) with (String "[" body).
  cbv iota beta.
  change (GoJSON.read_strings GoJSON.BeforeArray EmptyString [] (String "[" body))
    with (GoJSON.read_strings GoJSON.AfterOpen EmptyString [] body).
  unfold body.
  destruct l as [|s l]; [reflexivity|].
  rewrite read_Marshal_elements by auto. done.
Qed.

(** *** Creating a mail and reading it back *)

Lemma map_fold_insert_id {A} (a : gmap string A) :
  map_fold (λ k v acc, <[k:=v]> acc) ∅ a = a.
Proof.
  apply (map_fold_weak_ind (λ r m, r = m)); [done|].
  by intros k v m r _ ->.
Qed.

Lemma copyMail_id mail : copyMail mail = mail.
Proof.
  destruct mail as [? ? ? ? ? [a|] ? ? ? [ts|]]; unfold copyMail; simpl;
    by rewrite ?map_fold_insert_id.
Qed.

Lemma set_ID_same mail : set_ID (ID mail) mail = mail.
Proof. by destruct mail. Qed.

Lemma generated_not_empty (rest : string) : "mail_" +:+ rest ≠ EmptyString.
Proof. done. Qed.

Lemma eqb_empty_false (s : string) : s ≠ EmptyString → String.eqb s EmptyString = false.
Proof. intros Hs. by destruct (String.eqb_spec s EmptyString). Qed.

Lemma tags_read_back (tags : option (list string)) :
  let text := match tags with Some ts => GoJSON.Marshal_strings ts | None => "[]" end in
  (if String.eqb text EmptyString then Some None else GoJSON.Unmarshal_strings text)
  = Some (Some (elems tags)).
Proof.
  destruct tags as [ts|]; [|reflexivity].
  cbv zeta. rewrite Unmarshal_Marshal_strings. reflexivity.
Qed.

Lemma attachments_read_back (attachments : option (gmap string AttValue)) (text : string) :
  match attachments with Some a => Marshal_attachments a | None => Some "{}" end = Some text →
  ∃ a', (if String.eqb text EmptyString then Some None else Unmarshal_attachments text)
        = Some (Some a')
        ∧ (attachments = None → a' = ∅).
Proof.
  destruct attachments as [a|].
  - intros Htext. destruct (Unmarshal_Marshal a text Htext) as [a' Ha'].
    exists a'. split; [|done].
    rewrite eqb_empty_false; [done|].
    intros ->. by apply (Marshal_not_empty a).
  - intros [= <-]. exists ∅. split; [|done]. apply Unmarshal_empty_object.
Qed.

(** What [entityToMail] makes of the row [mailToEntity] wrote. *)
Lemma entityToMail_mailToEntity mail entity :
  mailToEntity mail = Ok entity →
  ∃ attachments,
    entityToMail entity
    = Ok (mkMail (ID mail) (SenderID mail) (RecipientID mail) (Title mail) (Content mail)
            (Some attachments) (ReadStatus mail) (CreateTime mail) (ExpireTime mail)
            (Some (elems (Tags mail))))
    ∧ (Attachments mail = None → attachments = ∅).
Proof.
  unfold mailToEntity, entityToMail.
  destruct (match Attachments mail with Some a => _ | None => _ end) as [text|] eqn:Htext;
    [|done].
  intros [= <-].
  cbn [eID eSenderID eRecipientID eTitle eContent eAttachments eReadStatus eCreateTime
       eExpireTime eTags].
  destruct (attachments_read_back _ _ Htext) as (a' & -> & Hnil).
  pose proof (tags_read_back (Tags mail)) as Htags. cbv zeta in Htags. rewrite Htags.
  by exists a'.
Qed.

(** C3, as amended.  On the in-memory store, [CreateMail] followed by
    [GetMail] on the returned id yields the mail that was created, equal
    in every field but the id, which is the returned one (the mail's own
    when it had one): nil tags stay nil and the attachments are the same
    map.  On the GORM store, when [CreateMail] succeeds on a mail whose
    tags are ASCII strings, [GetMail] on the returned id yields the same
    sender, recipient, title, content, read status, creation and expiry
    times and the same tags element for element, but as a non-nil list (nil
    tags come back empty), and the attachments come back as the non-nil
    map read from their JSON text (nil attachments come back empty). *)
Theorem CreateMail_GetMail :
  (∀ (s : MemoryMailStore) (m : Mail) (unixNano : Z),
     ∃ id,
       (MemoryMailStore_CreateMail s (Some m) unixNano).1.1 = Ok id
       ∧ (ID m ≠ EmptyString → id = ID m)
       ∧ MemoryMailStore_GetMail (MemoryMailStore_CreateMail s (Some m) unixNano).1.2 id
         = Ok (set_ID id m))
  ∧ (∀ (s s' : GormMailStore) (m : Mail) (unixNano : Z) (id : string) (after : option Mail),
       Forall (λ tag, ascii_string tag = true) (elems (Tags m)) →
       GormMailStore_CreateMail s (Some m) unixNano = (Ok id, s', after) →
       ∃ got attachments,
         GormMailStore_GetMail s' id = Ok got
         ∧ (ID m ≠ EmptyString → id = ID m)
         ∧ ID got = id
         ∧ SenderID got = SenderID m
         ∧ RecipientID got = RecipientID m
         ∧ Title got = Title m
         ∧ Content got = Content m
         ∧ ReadStatus got = ReadStatus m
         ∧ CreateTime got = CreateTime m
         ∧ ExpireTime got = ExpireTime m
         ∧ Tags got = Some (elems (Tags m))
         ∧ Attachments got = Some attachments
         ∧ (Attachments m = None → attachments = ∅)).
Proof.
  split.
  - intros s m unixNano. unfold MemoryMailStore_CreateMail.
    destruct (String.eqb_spec (ID m) EmptyString) as [Hid|Hid].
    + unfold GenerateID. simpl.
      eexists. split; [done|]. split; [done|].
      unfold MemoryMailStore_GetMail. simpl.
      by rewrite lookup_insert_eq, !copyMail_id.
    + exists (ID m). split; [done|]. split; [done|].
      unfold MemoryMailStore_GetMail. simpl.
      by rewrite lookup_insert_eq, !copyMail_id, set_ID_same.
  - intros s s' m unixNano id after _. unfold GormMailStore_CreateMail.
    set (m' := if String.eqb (ID m) EmptyString
               then set_ID ("mail_" +:+ pretty unixNano) m else m).
    assert (∃ id', id' ≠ EmptyString ∧ (ID m ≠ EmptyString → id' = ID m)
                   ∧ m' = set_ID id' m) as (id' & Hne & Hown & Hm').
    { unfold m'. destruct (String.eqb_spec (ID m) EmptyString).
      - exists ("mail_" +:+ pretty unixNano).
        split; [apply generated_not_empty|]. by split.
      - exists (ID m). by rewrite set_ID_same. }
    clearbody m'. subst m'.
    destruct (mailToEntity (set_ID id' m)) as [entity| |] eqn:Hentity; [|done..].
    assert (eID entity = id') as Hkey.
    { unfold mailToEntity in Hentity.
      destruct (match Attachments (set_ID id' m) with Some a => _ | None => _ end);
        [by injection Hentity as <- | done]. }
    destruct (db s !! eID entity); [done|]. intros [= <- <- <-].
    destruct (entityToMail_mailToEntity _ entity Hentity) as (a & Hgot & Hnil).
    unfold GormMailStore_GetMail. simpl. rewrite eqb_empty_false by done.
    rewrite Hkey, lookup_insert_eq, Hgot.
    eexists _, a. split; [done|]. simpl. repeat split; done.
Qed.

(** *** The in-memory store holds no mail under the empty id *)

Lemma NewMemoryMailStore_no_empty_id : no_empty_id NewMemoryMailStore.
Proof. apply lookup_empty. Qed.

Lemma CreateMail_no_empty_id s mail unixNano :
  no_empty_id s → no_empty_id (MemoryMailStore_CreateMail s mail unixNano).1.2.
Proof.
  unfold no_empty_id, MemoryMailStore_CreateMail. intros Hs.
  destruct mail as [m|]; [|done].
  destruct (String.eqb_spec (ID m) EmptyString) as [Hid|Hid]; simpl.
  - by rewrite lookup_insert_ne.
  - by rewrite lookup_insert_ne.
Qed.

Lemma UpdateMail_no_empty_id s mail :
  no_empty_id s → no_empty_id (MemoryMailStore_UpdateMail s mail).2.
Proof.
  unfold no_empty_id, MemoryMailStore_UpdateMail. intros Hs.
  destruct mail as [m|]; [|done].
  destruct (String.eqb_spec (ID m) EmptyString) as [Hid|Hid]; [done|].
  destruct (mails s !! ID m); [|done]. simpl. by rewrite lookup_insert_ne.
Qed.

Lemma DeleteMail_no_empty_id s mailID :
  no_empty_id s → no_empty_id (MemoryMailStore_DeleteMail s mailID).2.
Proof.
  unfold no_empty_id, MemoryMailStore_DeleteMail. intros Hs.
  destruct (mails s !! mailID); [|done]. simpl.
  destruct (decide (mailID = EmptyString)) as [->|Hne].
  - apply lookup_delete_eq.
  - by rewrite lookup_delete_ne.
Qed.

Lemma DeleteMailsByRecipient_no_empty_id s recipientID :
  no_empty_id s → no_empty_id (MemoryMailStore_DeleteMailsByRecipient s recipientID).2.
Proof.
  unfold no_empty_id, MemoryMailStore_DeleteMailsByRecipient. intros Hs.
  destruct (String.eqb recipientID EmptyString); [done|]. simpl.
  by apply lookup_delete_all_None.
Qed.

Lemma DeleteExpiredMails_no_empty_id s beforeTime :
  no_empty_id s → no_empty_id (MemoryMailStore_DeleteExpiredMails s beforeTime).2.
Proof.
  unfold no_empty_id, MemoryMailStore_DeleteExpiredMails. intros Hs. simpl.
  by apply lookup_delete_all_None.
Qed.

Lemma CreateBatchMails_loop_no_empty_id batch now n s h ids :
  no_empty_id s →
  no_empty_id (MemoryMailStore_CreateBatchMails_loop batch now n s h ids).1.2.
Proof.
  revert n s h ids. induction batch as [|[p|] rest IH]; intros n s h ids Hs; [done| |].
  - cbn [MemoryMailStore_CreateBatchMails_loop].
    destruct (h !! p) as [m|]; [|done].
    destruct (String.eqb_spec (ID m) EmptyString) as [Hid|Hid].
    + unfold GenerateID. apply IH. unfold no_empty_id. simpl. by rewrite lookup_insert_ne.
    + apply IH. unfold no_empty_id. simpl. by rewrite lookup_insert_ne.
  - by apply IH.
Qed.

Lemma CreateBatchMails_no_empty_id s h batch now :
  no_empty_id s → no_empty_id (MemoryMailStore_CreateBatchMails s h batch now).1.2.
Proof.
  intros Hs. unfold MemoryMailStore_CreateBatchMails.
  case_bool_decide; [done|]. by apply CreateBatchMails_loop_no_empty_id.
Qed.

(** *** Marking as read *)

Lemma MemoryMailStore_MarkAsRead_cases (s : MemoryMailStore) (id : string) :
  (MarkAsRead s id).2 = s
  ∨ ∃ m, id ≠ EmptyString ∧ mails s !! id = Some m ∧ ReadStatus m = false
         ∧ ID m ≠ EmptyString
         ∧ (MarkAsRead s id).2
           = mkMemoryMailStore (<[ID m := set_ReadStatus true m]> (mails s)) (idGen s).
Proof.
  unfold MarkAsRead. simpl.
  destruct (String.eqb_spec id EmptyString) as [Hid|Hid]; [by left|].
  unfold MemoryMailStore_GetMail.
  destruct (mails s !! id) as [m|] eqn:Hm; [|by left].
  rewrite copyMail_id.
  destruct (ReadStatus m) eqn:Hread; [by left|].
  unfold MemoryMailStore_UpdateMail. simpl.
  destruct (String.eqb_spec (ID m) EmptyString) as [Hkey|Hkey]; [by left|].
  destruct (mails s !! ID m); [|by left].
  right. exists m. rewrite copyMail_id. simpl. by destruct m.
Qed.

Lemma GormMailStore_MarkAsRead_cases (s : GormMailStore) (id : string) :
  (MarkAsRead s id).2 = s
  ∨ ∃ row m entity,
      id ≠ EmptyString ∧ db s !! id = Some row ∧ entityToMail row = Ok m
      ∧ ReadStatus m = false ∧ ID m ≠ EmptyString
      ∧ mailToEntity (set_ReadStatus true m) = Ok entity
      ∧ (MarkAsRead s id).2 = mkGormMailStore (<[ID m := entity]> (db s)).
Proof.
  unfold MarkAsRead. simpl. unfold GormMailStore_GetMail.
  destruct (String.eqb_spec id EmptyString) as [Hid|Hid]; [by left|].
  destruct (db s !! id) as [row|] eqn:Hrow; [|by left].
  destruct (entityToMail row) as [m| |] eqn:Hm; [|by left..].
  destruct (ReadStatus m) eqn:Hread; [by left|].
  unfold GormMailStore_UpdateMail. simpl.
  destruct (String.eqb_spec (ID m) EmptyString) as [Hkey|Hkey]; [by left|].
  destruct (db s !! ID m); [|by left].
  destruct (mailToEntity (set_ReadStatus true m)) as [entity| |] eqn:Hentity; [|by left..].
  right. exists row, m, entity. repeat split; try done. simpl. do 2 f_equal.
  unfold mailToEntity in Hentity.
  destruct (match Attachments (set_ReadStatus true m) with Some a => _ | None => _ end);
    [by injection Hentity as <- | done].
Qed.

Lemma mailToEntity_ReadStatus mail entity :
  mailToEntity mail = Ok entity → eReadStatus entity = ReadStatus mail ∧ eID entity = ID mail.
Proof.
  unfold mailToEntity.
  destruct (match Attachments mail with Some a => _ | None => _ end);
    [by intros [= <-] | done].
Qed.

Lemma entityToMail_ReadStatus entity mail :
  entityToMail entity = Ok mail → ReadStatus mail = eReadStatus entity.
Proof.
  unfold entityToMail.
  destruct (if String.eqb (eAttachments entity) EmptyString then _ else _); [|done].
  destruct (if String.eqb (eTags entity) EmptyString then _ else _); [|done].
  by intros [= <-].
Qed.

(** C8. [MarkAsRead] on the id of a stored mail that is already read
    succeeds and leaves the store as it was: for any backend behind the
    [MailStore] interface whose [GetMail] returns the mail, for the
    in-memory store at every state without a mail under the empty id, and
    for the GORM store.  On either backend a second [MarkAsRead] of the
    same id leaves the state the first one left. *)
Theorem MarkAsRead_idempotent :
  (∀ (Store : Type) (backend : MailStore Store) (store : Store) (id : string) (mail : Mail),
     id ≠ EmptyString →
     GetMail store id = Ok mail →
     ReadStatus mail = true →
     MarkAsRead store id = (Ok (), store))
  ∧ (∀ (s : MemoryMailStore) (id : string) (mail : Mail),
       no_empty_id s →
       mails s !! id = Some mail →
       ReadStatus mail = true →
       MarkAsRead s id = (Ok (), s))
  ∧ (∀ (s : GormMailStore) (id : string) (mail : Mail),
       GormMailStore_GetMail s id = Ok mail →
       ReadStatus mail = true →
       MarkAsRead s id = (Ok (), s))
  ∧ (∀ (s : MemoryMailStore) (id : string),
       (MarkAsRead (MarkAsRead s id).2 id).2 = (MarkAsRead s id).2)
  ∧ (∀ (s : GormMailStore) (id : string),
       (MarkAsRead (MarkAsRead s id).2 id).2 = (MarkAsRead s id).2).
Proof.
  assert (∀ (Store : Type) (backend : MailStore Store) (store : Store) id mail,
            id ≠ EmptyString → GetMail store id = Ok mail → ReadStatus mail = true →
            MarkAsRead store id = (Ok (), store)) as Hgeneric.
  { intros Store backend store id mail Hid Hget Hread. unfold MarkAsRead.
    by rewrite eqb_empty_false, Hget, Hread. }
  split; [exact Hgeneric|]. split; [|split; [|split]].
  - intros s id mail Hs Hmail Hread. apply (Hgeneric _ _ s id mail); [|
      |done].
    + intros ->. unfold no_empty_id in Hs. congruence.
    + simpl. unfold MemoryMailStore_GetMail. by rewrite Hmail, copyMail_id.
  - intros s id mail Hget Hread. apply (Hgeneric _ _ s id mail); [|done..].
    intros ->. by unfold GormMailStore_GetMail in Hget.
  - intros s id.
    destruct (MemoryMailStore_MarkAsRead_cases s id)
      as [Hsame|(m & Hid & Hm & Hread & Hkey & Hs1)].
    { by rewrite !Hsame. }
    rewrite Hs1. unfold MarkAsRead. simpl.
    rewrite eqb_empty_false by done. unfold MemoryMailStore_GetMail. simpl.
    destruct (decide (ID m = id)) as [<-|Hne].
    + by rewrite lookup_insert_eq, copyMail_id.
    + rewrite lookup_insert_ne, Hm, copyMail_id, Hread by done.
      unfold MemoryMailStore_UpdateMail. simpl.
      rewrite eqb_empty_false, lookup_insert_eq by done. simpl.
      rewrite copyMail_id, insert_insert_eq. by destruct m.
  - intros s id.
    destruct (GormMailStore_MarkAsRead_cases s id)
      as [Hsame|(row & m & entity & Hid & Hrow & Hm & Hread & Hkey & Hentity & Hs1)].
    { by rewrite !Hsame. }
    rewrite Hs1. unfold MarkAsRead. simpl.
    rewrite eqb_empty_false by done. unfold GormMailStore_GetMail. simpl.
    rewrite eqb_empty_false by done.
    destruct (decide (ID m = id)) as [<-|Hne].
    + rewrite lookup_insert_eq.
      destruct (entityToMail entity) as [m'| |] eqn:Hm'; [|done..].
      apply entityToMail_ReadStatus in Hm'.
      apply mailToEntity_ReadStatus in Hentity as [Hr _].
      by rewrite Hm', Hr.
    + rewrite lookup_insert_ne, Hrow, Hm, Hread by done.
      unfold GormMailStore_UpdateMail. simpl.
      rewrite eqb_empty_false, lookup_insert_eq, Hentity by done.
      apply mailToEntity_ReadStatus in Hentity as [_ ->]. simpl.
      by rewrite insert_insert_eq.
Qed.

(** *** The id written into the caller's mail *)

Lemma only_IDs_written_refl batch (h : Heap) : only_IDs_written batch h h.
Proof.
  split; [done|]. intros p m Hm. exists (ID m). by rewrite set_ID_same.
Qed.

Lemma omap_ID_insert (batch : list (option positive)) (p : positive) (m : Mail)
    (h h' : Heap) :
  (∀ q mq, h !! q = Some mq → ∃ id, h' !! q = Some (set_ID id mq)
                                     ∧ (ID mq ≠ EmptyString ∨ Some q ∉ batch → id = ID mq)) →
  h !! p = Some m → ID m ≠ EmptyString → h' !! p = Some m.
Proof.
  intros Hframe Hp Hid. destruct (Hframe p m Hp) as (id & -> & Hsame).
  rewrite Hsame by auto. by rewrite set_ID_same.
Qed.

Lemma MemoryMailStore_CreateBatchMails_loop_cons
    (p : positive) (rest : list (option positive)) (now : nat → Z) (n : nat)
    (s : MemoryMailStore) (h : Heap) (ids : list string) (m : Mail) :
  h !! p = Some m →
  MemoryMailStore_CreateBatchMails_loop (Some p :: rest) now n s h ids
  = let '(m1, g, n1) :=
      if String.eqb (ID m) EmptyString
      then let '(id, g) := GenerateID (idGen s) (now n) in (set_ID id m, g, S n)
      else (m, idGen s, n) in
    MemoryMailStore_CreateBatchMails_loop rest now n1
      (mkMemoryMailStore (<[ID m1 := copyMail m1]> (mails s)) g)
      (<[p := m1]> h) (ids ++ [ID m1]).
Proof. intros Hm. simpl. by rewrite Hm. Qed.

Lemma MemoryMailStore_CreateBatchMails_loop_spec
    (batch : list (option positive)) (now : nat → Z) (n : nat)
    (s : MemoryMailStore) (h : Heap) (ids : list string) :
  (∀ p, Some p ∈ batch → is_Some (h !! p)) →
  ∃ ids' s' h',
    MemoryMailStore_CreateBatchMails_loop batch now n s h ids = (Ok (ids ++ ids'), s', h')
    ∧ only_IDs_written batch h h'
    ∧ ids_returned batch h' ids'.
Proof.
  revert n s h ids. induction batch as [|[p|] rest IH]; intros n s h ids Halloc.
  - exists [], s, h. rewrite app_nil_r. split; [done|].
    split; [apply only_IDs_written_refl | by split].
  - destruct (Halloc p) as [m Hm]; [left|].
    rewrite (MemoryMailStore_CreateBatchMails_loop_cons _ _ _ _ _ _ _ _ Hm).
    set (m1 := if String.eqb (ID m) EmptyString
               then set_ID ("mail_" +:+ pretty (now n) +:+ "_"
                            +:+ pretty (GoInt.add (counter (idGen s)) 1)) m
               else m).
    assert (ID m1 ≠ EmptyString ∧ (ID m ≠ EmptyString → m1 = m) ∧ m1 = set_ID (ID m1) m)
      as (Hne & Hown & Hm1).
    { unfold m1. destruct (String.eqb_spec (ID m) EmptyString);
        [done | by rewrite set_ID_same]. }
    assert (∃ g n1,
              (if String.eqb (ID m) EmptyString
               then let '(id, g) := GenerateID (idGen s) (now n) in (set_ID id m, g, S n)
               else (m, idGen s, n)) = (m1, g, n1)) as (g & n1 & ->).
    { unfold m1, GenerateID. destruct (String.eqb (ID m) EmptyString); by eexists _, _. }
    destruct (IH n1 (mkMemoryMailStore (<[ID m1 := copyMail m1]> (mails s)) g)
                (<[p := m1]> h) (ids ++ [ID m1]))
      as (ids' & s' & h' & -> & [Hnone Hframe] & Hids & Hnonempty).
    { intros q Hq. destruct (decide (q = p)) as [->|Hqp].
      - rewrite lookup_insert_eq. by eexists.
      - rewrite lookup_insert_ne by done. apply Halloc. by right. }
    assert (h' !! p = Some m1) as Hp'.
    { apply (omap_ID_insert rest p m1 (<[p := m1]> h)); [done| |done].
      apply lookup_insert_eq. }
    exists (ID m1 :: ids'), s', h'. rewrite <-app_assoc. split; [done|].
    split; [split|split].
    + intros q Hq. apply Hnone. rewrite lookup_insert_ne; [done|]. congruence.
    + intros q mq Hq. destruct (decide (q = p)) as [->|Hqp].
      * assert (mq = m) as -> by congruence.
        exists (ID m1). rewrite <-Hm1. split; [done|].
        intros [Hid|Hnotin]; [by rewrite Hown | exfalso; apply Hnotin; left].
      * destruct (Hframe q mq) as (id & Hq' & Hsame);
          [by rewrite lookup_insert_ne|].
        exists id. split; [done|]. intros [Hid|Hnotin]; apply Hsame; [by left|].
        right. intros Hin. apply Hnotin. by right.
    + simpl. rewrite Hp'. simpl. by rewrite Hids.
    + by constructor.
  - simpl. destruct (IH n s h ids) as (ids' & s' & h' & -> & [Hnone Hframe] & Hids & Hnonempty).
    { intros q Hq. apply Halloc. by right. }
    exists ids', s', h'. split; [done|]. split; [split; [done|]|by split].
    intros q mq Hq. destruct (Hframe q mq Hq) as (id & Hq' & Hsame).
    exists id. split; [done|]. intros [Hid|Hnotin]; apply Hsame; [by left|].
    right. intros Hin. apply Hnotin. by right.
Qed.

Lemma only_IDs_written_cons (p : positive) (rest : list (option positive))
    (m : Mail) (id1 : string) (h h' : Heap) :
  h !! p = Some m → id1 ≠ EmptyString → (ID m ≠ EmptyString → id1 = ID m) →
  only_IDs_written rest (<[p := set_ID id1 m]> h) h' →
  only_IDs_written (Some p :: rest) h h' ∧ h' !! p = Some (set_ID id1 m).
Proof.
  intros Hm Hne Hown [Hnone Hframe].
  assert (h' !! p = Some (set_ID id1 m)) as Hp'.
  { apply (omap_ID_insert rest p _ (<[p := set_ID id1 m]> h)); [done| |done].
    apply lookup_insert_eq. }
  split; [split|done].
  - intros q Hq. apply Hnone. rewrite lookup_insert_ne; [done|]. congruence.
  - intros q mq Hq. destruct (decide (q = p)) as [->|Hqp].
    + assert (mq = m) as -> by congruence.
      exists id1. split; [done|].
      intros [Hid|Hnotin]; [by apply Hown | exfalso; apply Hnotin; left].
    + destruct (Hframe q mq) as (id & Hq' & Hsame); [by rewrite lookup_insert_ne|].
      exists id. split; [done|]. intros [Hid|Hnotin]; apply Hsame; [by left|].
      right. intros Hin. apply Hnotin. by right.
Qed.

Lemma only_IDs_written_skip (rest : list (option positive)) (h h' : Heap) :
  only_IDs_written rest h h' → only_IDs_written (None :: rest) h h'.
Proof.
  intros [Hnone Hframe]. split; [done|].
  intros q mq Hq. destruct (Hframe q mq Hq) as (id & Hq' & Hsame).
  exists id. split; [done|]. intros [Hid|Hnotin]; apply Hsame; [by left|].
  right. intros Hin. apply Hnotin. by right.
Qed.

Lemma only_IDs_written_one (p : positive) (rest : list (option positive))
    (m : Mail) (id1 : string) (h : Heap) :
  h !! p = Some m → (ID m ≠ EmptyString → id1 = ID m) →
  only_IDs_written (Some p :: rest) h (<[p := set_ID id1 m]> h).
Proof.
  intros Hm Hown. split.
  - intros q Hq. rewrite lookup_insert_ne; [done|]. congruence.
  - intros q mq Hq. destruct (decide (q = p)) as [->|Hqp].
    + assert (mq = m) as -> by congruence.
      exists id1. rewrite lookup_insert_eq. split; [done|].
      intros [Hid|Hnotin]; [by apply Hown | exfalso; apply Hnotin; left].
    + exists (ID mq). rewrite lookup_insert_ne, set_ID_same by done. by split.
Qed.

Lemma GormMailStore_CreateBatchMails_loop_spec
    (batch : list (option positive)) (now : nat → Z) (n : nat)
    (h : Heap) (ids : list string) (entities : list MailEntity) :
  only_IDs_written batch h (GormMailStore_CreateBatchMails_loop batch now n h ids entities).2
  ∧ ∀ ids_out entities_out,
      (GormMailStore_CreateBatchMails_loop batch now n h ids entities).1
      = Ok (ids_out, entities_out) →
      ∃ ids', ids_out = ids ++ ids'
              ∧ ids_returned batch
                  (GormMailStore_CreateBatchMails_loop batch now n h ids entities).2 ids'.
Proof.
  revert n h ids entities.
  induction batch as [|[p|] rest IH]; intros n h ids entities.
  - simpl. split; [apply only_IDs_written_refl|].
    intros ? ? [= <- <-]. exists []. by rewrite app_nil_r.
  - cbn [GormMailStore_CreateBatchMails_loop].
    destruct (h !! p) as [m|] eqn:Hm;
      [|split; [apply only_IDs_written_refl | done]].
    set (id1 := if String.eqb (ID m) EmptyString
                then "mail_" +:+ pretty (now n) +:+ "_" +:+ pretty (Z.of_nat (length ids))
                else ID m).
    assert (id1 ≠ EmptyString ∧ (ID m ≠ EmptyString → id1 = ID m)) as [Hne Hown].
    { unfold id1. by destruct (String.eqb_spec (ID m) EmptyString). }
    assert (∃ n1,
              (if String.eqb (ID m) EmptyString
               then (set_ID ("mail_" +:+ pretty (now n) +:+ "_"
                             +:+ pretty (Z.of_nat (length ids))) m, S n)
               else (m, n)) = (set_ID id1 m, n1)) as [n1 ->].
    { unfold id1. destruct (String.eqb (ID m) EmptyString);
        [by eexists | exists n; by rewrite set_ID_same]. }
    destruct (mailToEntity (set_ID id1 m)) as [entity| |];
      [|by split; [apply only_IDs_written_one|]..].
    destruct (IH n1 (<[p := set_ID id1 m]> h) (ids ++ [ID (set_ID id1 m)])
                (entities ++ [entity])) as [Hframe Hret].
    set (out := GormMailStore_CreateBatchMails_loop rest now n1 _ _ _) in *.
    destruct (only_IDs_written_cons p rest m id1 h _ Hm Hne Hown Hframe) as [Hframe' Hp'].
    split; [done|]. intros ids_out entities_out Hout.
    destruct (Hret _ _ Hout) as (ids' & -> & Hids & Hnonempty).
    exists (id1 :: ids'). rewrite <-app_assoc. split; [done|]. split.
    + simpl. rewrite Hp'. simpl. f_equal. exact Hids.
    + by constructor.
  - cbn [GormMailStore_CreateBatchMails_loop].
    destruct (IH n h ids entities) as [Hframe Hret].
    split; [by apply only_IDs_written_skip|].
    intros ids_out entities_out Hout.
    destruct (Hret _ _ Hout) as (ids' & -> & Hids & Hnonempty).
    by exists ids'.
Qed.

(** C10. When the input mail has an empty [ID], [CreateMail] on either
    store writes the id it generates into the caller's mail before it
    copies the mail for storage: after the call the caller's mail is the
    input with that id and no other field changed, the stored copy carries
    the same id, and a successful call returns it.  [CreateBatchMails] on
    either store does the same for every mail of the batch: the objects
    behind the batch differ from what they were in their [ID] only, and
    only where it was empty, and the ids returned are the [ID] fields that
    the objects behind the non-nil pointers have after the call. *)
Theorem CreateMail_writes_input_ID :
  (∀ (s : MemoryMailStore) (m : Mail) (unixNano : Z),
     ID m = EmptyString →
     ∃ id s',
       MemoryMailStore_CreateMail s (Some m) unixNano = (Ok id, s', Some (set_ID id m))
       ∧ id ≠ EmptyString
       ∧ mails s' !! id = Some (set_ID id m))
  ∧ (∀ (s : GormMailStore) (m : Mail) (unixNano : Z),
       ID m = EmptyString →
       ∃ id r s',
         GormMailStore_CreateMail s (Some m) unixNano = (r, s', Some (set_ID id m))
         ∧ id ≠ EmptyString
         ∧ ∀ id', r = Ok id' →
             id' = id ∧ ∃ row, db s' !! id = Some row ∧ mailToEntity (set_ID id m) = Ok row)
  ∧ (∀ (s : MemoryMailStore) (h : Heap) (batch : list (option positive)) (now : nat → Z),
       (∀ p, Some p ∈ batch → is_Some (h !! p)) →
       ∃ ids s' h',
         MemoryMailStore_CreateBatchMails s h batch now = (Ok ids, s', h')
         ∧ only_IDs_written batch h h'
         ∧ ids_returned batch h' ids)
  ∧ (∀ (s : GormMailStore) (h : Heap) (batch : list (option positive)) (now : nat → Z),
       only_IDs_written batch h (GormMailStore_CreateBatchMails s h batch now).2
       ∧ ∀ ids, (GormMailStore_CreateBatchMails s h batch now).1.1 = Ok ids →
                ids_returned batch (GormMailStore_CreateBatchMails s h batch now).2 ids).
Proof.
  split; [|split; [|split]].
  - intros s m unixNano Hid. unfold MemoryMailStore_CreateMail, GenerateID.
    rewrite Hid. simpl. eexists _, _. split; [done|]. split; [done|].
    simpl. by rewrite lookup_insert_eq, copyMail_id.
  - intros s m unixNano Hid. unfold GormMailStore_CreateMail. rewrite Hid. simpl.
    set (id := "mail_" +:+ pretty unixNano).
    destruct (mailToEntity (set_ID id m)) as [entity| |] eqn:Hentity;
      [|by eexists id, _, _..].
    pose proof (mailToEntity_ReadStatus _ _ Hentity) as [_ Hkey]. simpl in Hkey.
    destruct (db s !! eID entity) eqn:Hrow; [by eexists id, _, _|].
    eexists id, _, _. split; [done|]. split; [done|].
    intros id' [= <-]. split; [done|]. exists entity. simpl.
    by rewrite Hkey, lookup_insert_eq.
  - intros s h batch now Halloc. unfold MemoryMailStore_CreateBatchMails.
    case_bool_decide as Hlen.
    + destruct batch; [|done]. exists [], s, h. split; [done|].
      split; [apply only_IDs_written_refl | by split].
    + destruct (MemoryMailStore_CreateBatchMails_loop_spec batch now 0%nat s h [] Halloc)
        as (ids & s' & h' & Hloop & Hframe & Hids).
      by exists ids, s', h'.
  - intros s h batch now. unfold GormMailStore_CreateBatchMails.
    case_bool_decide as Hlen.
    + destruct batch; [|done]. simpl. split; [apply only_IDs_written_refl|].
      by intros ? [= <-].
    + pose proof (GormMailStore_CreateBatchMails_loop_spec batch now 0%nat h [] [])
        as [Hframe Hret].
      destruct (GormMailStore_CreateBatchMails_loop batch now 0%nat h [] [])
        as [[[ids entities]|e|] h'] eqn:Hloop; simpl in *; [|done..].
      destruct (insert_rows entities (db s)); simpl; [|done].
      split; [done|]. intros ? [= <-].
      by destruct (Hret _ _ eq_refl) as (ids' & -> & Hids).
Qed.

(** *** Exporting *)

Lemma entitiesToMails_Ok (entities : list MailEntity) :
  Forall (λ entity, is_Ok (entityToMail entity) = true) entities →
  ∃ mails_, entitiesToMails entities = Ok mails_ ∧ length mails_ = length entities.
Proof.
  induction 1 as [|entity rest Hentity _ (mails_ & IH & Hlen)]; [by exists []|].
  simpl. destruct (entityToMail entity) as [mail| |]; [|done..].
  rewrite IH. exists (mail :: mails_). simpl. by rewrite Hlen.
Qed.

Lemma filter_all {A} (P : A → Prop) `{!∀ x, Decision (P x)} (l : list A) :
  Forall P l → filter P l = l.
Proof.
  induction 1 as [|x rest Hx _ IH]; [done|].
  rewrite filter_cons_True by done. by rewrite IH.
Qed.

(** With no filter, the GORM store exports its rows up to 10000 of them. *)
Lemma GormMailStore_ExportMailLogs_mails_length (s : GormMailStore) (now : Z) :
  map_Forall (λ _ row, is_Ok (entityToMail row) = true) (db s) →
  ∃ mails_, GormMailStore_ExportMailLogs_mails s None now = Ok mails_
            ∧ Z.of_nat (length mails_) = 10000 `min` Z.of_nat (size (db s)).
Proof.
  intros Hrows.
  assert (Forall (λ entity, is_Ok (entityToMail entity) = true) (table_rows s)) as Hall.
  { unfold table_rows. apply Forall_fmap, Forall_forall. intros [k row] Hin.
    apply elem_of_map_to_list in Hin. by apply (Hrows k). }
  assert (length (table_rows s) = size (db s)) as Hsize.
  { unfold table_rows. by rewrite length_fmap, length_map_to_list. }
  unfold GormMailStore_ExportMailLogs_mails, GormMailStore_QueryMails.
  assert (filter (λ row, GormMailStore_where None now row = true) (table_rows s)
          = table_rows s) as ->.
  { apply filter_all, Forall_forall. by intros. }
  change (default_page 1) with 1. change (default_size 10000) with 10000.
  change (GoInt.mul (GoInt.sub 1 1) 10000) with 0.
  destruct (Z.eqb_spec (Z.of_nat (length (table_rows s))) 0) as [Hnone|Hsome].
  { exists []. split; [done|]. simpl. lia. }
  unfold Offset, Limit. simpl.
  destruct (entitiesToMails_Ok
              (take (Z.to_nat 10000) (order_create_time_desc (table_rows s))))
    as (mails_ & -> & Hlen).
  { apply Forall_take. unfold order_create_time_desc.
    by rewrite merge_sort_Permutation. }
  exists mails_. split; [done|].
  rewrite Hlen, length_take. unfold order_create_time_desc.
  rewrite merge_sort_Permutation, Hsize. lia.
Qed.

(** The in-memory store exports every match. *)
Lemma MemoryMailStore_matchedMails_length s filter_ now :
  length (MemoryMailStore_matchedMails s filter_ now)
  = length (filter (λ mail, matchMail mail filter_ now = true) (range_mails s)).
Proof.
  unfold MemoryMailStore_matchedMails.
  by rewrite sort_newest_first_Permutation, length_fmap.
Qed.

(** *** Empty ids and recipients *)

(** C2.  The GORM store refuses an empty mail id in [GetMail] and an
    empty recipient id in [GetMailsByRecipient], [CountUnreadMails] and
    [CountMailsWithAttachments] with an error of the kind
    [InvalidArgument], at every state.  The in-memory store has no such
    checks: on a new store [GetMail] with the empty id answers that the
    mail is not found, and the other three succeed with nothing found. *)
Theorem empty_id_arguments :
  (∀ (s : GormMailStore) (page size : Z),
     GormMailStore_GetMail s EmptyString = Err ErrMailIDEmpty
     ∧ GormMailStore_GetMailsByRecipient s EmptyString page size = Err ErrRecipientEmpty
     ∧ GormMailStore_CountUnreadMails s EmptyString = Err ErrRecipientEmpty
     ∧ GormMailStore_CountMailsWithAttachments s EmptyString = Err ErrRecipientEmpty
     ∧ error_kind ErrMailIDEmpty = InvalidArgument
     ∧ error_kind ErrRecipientEmpty = InvalidArgument)
  ∧ MemoryMailStore_GetMail NewMemoryMailStore EmptyString = Err (ErrMailNotFound EmptyString)
  ∧ error_kind (ErrMailNotFound EmptyString) = NotFound
  ∧ MemoryMailStore_GetMailsByRecipient NewMemoryMailStore EmptyString 1 10 = Ok ([], 0)
  ∧ MemoryMailStore_CountUnreadMails NewMemoryMailStore EmptyString = Ok 0
  ∧ MemoryMailStore_CountMailsWithAttachments NewMemoryMailStore EmptyString = Ok 0.
Proof. repeat split. Qed.

End Properties.

(** * Further properties of the stores and of the manager *)
Section Coverage.
Context `{AttachmentJSON}.

Abbreviation Heap := (gmap positive Mail) (only parsing).

(** ** The in-memory store: single mails *)

(** X1.  [UpdateMail] on the in-memory store.  Without a mail, without an id
    or with an id that is not stored, it fails and leaves the store as it
    was; otherwise it replaces the stored mail, so that [GetMail] on the id
    returns the new mail, and it touches no other mail. *)
Theorem MemoryMailStore_UpdateMail_GetMail (s : MemoryMailStore) (m : Mail) :
  MemoryMailStore_UpdateMail s None = (Err ErrMailNilOrNoID, s)
  ∧ (ID m = EmptyString → MemoryMailStore_UpdateMail s (Some m) = (Err ErrMailNilOrNoID, s))
  ∧ (ID m ≠ EmptyString → mails s !! ID m = None →
     MemoryMailStore_UpdateMail s (Some m) = (Err (ErrMailNotFound (ID m)), s))
  ∧ (ID m ≠ EmptyString → is_Some (mails s !! ID m) →
     ∃ s', MemoryMailStore_UpdateMail s (Some m) = (Ok (), s')
           ∧ MemoryMailStore_GetMail s' (ID m) = Ok m
           ∧ (∀ k, k ≠ ID m → MemoryMailStore_GetMail s' k = MemoryMailStore_GetMail s k)
           ∧ idGen s' = idGen s).
Proof.
  unfold MemoryMailStore_UpdateMail. split; [done|]. split; [|split].
  - by intros ->.
  - intros Hid Hnone. by rewrite eqb_empty_false, Hnone.
  - intros Hid [old Hold]. rewrite eqb_empty_false, Hold by done.
    eexists. split; [done|]. unfold MemoryMailStore_GetMail. simpl.
    split; [by rewrite lookup_insert_eq, !copyMail_id|]. split; [|done].
    intros k Hk. by rewrite lookup_insert_ne.
Qed.

(** X2.  [DeleteMail] on either store.  An id that is not stored (on the
    GORM store also the empty id) gives an error and leaves the store as it
    was; a stored id is removed, after which [GetMail] on it reports that
    the mail is not found, and every other mail is kept. *)
Theorem DeleteMail_correct :
  (∀ (s : MemoryMailStore) (id : string),
     (mails s !! id = None →
      MemoryMailStore_DeleteMail s id = (Err (ErrMailNotFound id), s))
     ∧ (is_Some (mails s !! id) →
        ∃ s', MemoryMailStore_DeleteMail s id = (Ok (), s')
              ∧ MemoryMailStore_GetMail s' id = Err (ErrMailNotFound id)
              ∧ (∀ k, k ≠ id → mails s' !! k = mails s !! k)
              ∧ idGen s' = idGen s))
  ∧ (∀ (s : GormMailStore) (id : string),
       GormMailStore_DeleteMail s EmptyString = (Err ErrMailIDEmpty, s)
       ∧ (id ≠ EmptyString → db s !! id = None →
          GormMailStore_DeleteMail s id = (Err (ErrMailNotFound id), s))
       ∧ (id ≠ EmptyString → is_Some (db s !! id) →
          ∃ s', GormMailStore_DeleteMail s id = (Ok (), s')
                ∧ GormMailStore_GetMail s' id = Err (ErrMailNotFound id)
                ∧ (∀ k, k ≠ id → db s' !! k = db s !! k))).
Proof.
  split.
  - intros s id. unfold MemoryMailStore_DeleteMail. split.
    + by intros ->.
    + intros [old ->]. eexists. split; [done|]. unfold MemoryMailStore_GetMail. simpl.
      split; [by rewrite lookup_delete_eq|]. split; [|done].
      intros k Hk. by rewrite lookup_delete_ne.
  - intros s id. unfold GormMailStore_DeleteMail. split; [done|]. split.
    + intros Hid Hnone. by rewrite eqb_empty_false, Hnone.
    + intros Hid [old Hold]. rewrite eqb_empty_false, Hold by done.
      eexists. split; [done|]. unfold GormMailStore_GetMail. simpl.
      rewrite eqb_empty_false by done.
      split; [by rewrite lookup_delete_eq|].
      intros k Hk. by rewrite lookup_delete_ne.
Qed.

(** X3.  [CreateMail] on the in-memory store never fails on a mail, keeps
    every mail stored under another id, and replaces the mail stored under
    the same id if there is one.  When the id was free, deleting the mail
    again gives back the mails the store held. *)
Theorem MemoryMailStore_CreateMail_DeleteMail (s : MemoryMailStore) (m : Mail) (unixNano : Z) :
  ∃ id s' m',
    MemoryMailStore_CreateMail s (Some m) unixNano = (Ok id, s', Some m')
    ∧ mails s' !! id = Some m'
    ∧ (∀ k, k ≠ id → mails s' !! k = mails s !! k)
    ∧ (mails s !! id = None →
       ∃ s'', MemoryMailStore_DeleteMail s' id = (Ok (), s'') ∧ mails s'' = mails s).
Proof.
  unfold MemoryMailStore_CreateMail.
  set (created := if String.eqb (ID m) EmptyString
                  then let '(id, g) := GenerateID (idGen s) unixNano in (set_ID id m, g)
                  else (m, idGen s)).
  destruct created as [m' g] eqn:Hcreated. simpl.
  exists (ID m'), (mkMemoryMailStore (<[ID m' := copyMail m']> (mails s)) g), m'.
  split; [done|]. simpl. rewrite copyMail_id.
  split; [apply lookup_insert_eq|]. split.
  - intros k Hk. by rewrite lookup_insert_ne.
  - intros Hfree. unfold MemoryMailStore_DeleteMail. simpl.
    rewrite lookup_insert_eq. eexists. split; [done|]. simpl.
    by rewrite delete_insert_eq, delete_id.
Qed.

(** ** Deleting by recipient and by expiry *)

Lemma filter_none {A} (P : A → Prop) `{!∀ x, Decision (P x)} (l : list A) :
  Forall (λ x, ¬ P x) l → filter P l = [].
Proof.
  induction 1 as [|x rest Hx _ IH]; [done|].
  by rewrite filter_cons_False.
Qed.

Lemma Forall_kept {A} (P : string * A → Prop) `{!∀ kv, Decision (P kv)}
    (m : gmap string A) :
  Forall P (map_to_list (filter P m)).
Proof.
  apply Forall_forall. intros [k v] Hin.
  apply elem_of_map_to_list, map_lookup_filter_Some in Hin. by destruct Hin.
Qed.

Lemma Forall_kept_values {A} (Q : A → Prop) (P : string * A → Prop)
    `{!∀ kv, Decision (P kv)} (m : gmap string A) :
  (∀ k v, P (k, v) → Q v) → Forall Q (map_to_list (filter P m)).*2.
Proof.
  intros HPQ. apply Forall_fmap. eapply Forall_impl; [apply Forall_kept|].
  intros [k v] HP. by apply (HPQ k).
Qed.

(** X4.  [DeleteMailsByRecipient] on either store refuses the empty
    recipient and leaves the store as it was; for any other recipient it
    succeeds, also when nothing is deleted, and the mails stored afterwards
    are exactly the mails of the other recipients, unchanged.  The recipient
    then has no unread mail and no mail with attachments. *)
Theorem DeleteMailsByRecipient_correct :
  (∀ (s : MemoryMailStore) (r : string),
     MemoryMailStore_DeleteMailsByRecipient s EmptyString = (Err ErrRecipientEmpty, s)
     ∧ (r ≠ EmptyString →
        ∃ s', MemoryMailStore_DeleteMailsByRecipient s r = (Ok (), s')
              ∧ (∀ id mail, mails s' !! id = Some mail
                            ↔ mails s !! id = Some mail ∧ RecipientID mail ≠ r)
              ∧ MemoryMailStore_CountUnreadMails s' r = Ok 0
              ∧ MemoryMailStore_CountMailsWithAttachments s' r = Ok 0))
  ∧ (∀ (s : GormMailStore) (r : string),
       GormMailStore_DeleteMailsByRecipient s EmptyString = (Err ErrRecipientEmpty, s)
       ∧ (r ≠ EmptyString →
          ∃ s', GormMailStore_DeleteMailsByRecipient s r = (Ok (), s')
                ∧ (∀ id row, db s' !! id = Some row
                             ↔ db s !! id = Some row ∧ eRecipientID row ≠ r)
                ∧ GormMailStore_CountUnreadMails s' r = Ok 0
                ∧ GormMailStore_CountMailsWithAttachments s' r = Ok 0)).
Proof.
  split.
  - intros s r. split; [done|]. intros Hr.
    unfold MemoryMailStore_DeleteMailsByRecipient. rewrite eqb_empty_false by done.
    eexists. split; [done|]. simpl. rewrite delete_all_selected.
    assert (Forall (λ mail, RecipientID mail ≠ r)
              (map_to_list (filter (λ kv : string * Mail,
                 ¬ String.eqb (RecipientID kv.2) r = true) (mails s))).*2) as Hleft.
    { apply Forall_kept_values. intros k v Hne Heq. apply Hne. simpl.
      rewrite Heq. apply String.eqb_refl. }
    split; [|split].
    + intros id mail. rewrite map_lookup_filter_Some. simpl.
      destruct (String.eqb_spec (RecipientID mail) r); split; intros [Hm Hne]; split;
        try done.
    + unfold MemoryMailStore_CountUnreadMails, range_mails. simpl.
      rewrite filter_none; [done|].
      eapply Forall_impl; [exact Hleft|]. intros mail Hne. simpl.
      by destruct (String.eqb_spec (RecipientID mail) r).
    + unfold MemoryMailStore_CountMailsWithAttachments, range_mails. simpl.
      rewrite filter_none; [done|].
      eapply Forall_impl; [exact Hleft|]. intros mail Hne. simpl.
      by destruct (String.eqb_spec (RecipientID mail) r).
  - intros s r. split; [done|]. intros Hr.
    unfold GormMailStore_DeleteMailsByRecipient, delete_where.
    rewrite eqb_empty_false by done.
    eexists. split; [done|]. simpl.
    assert (Forall (λ row, eRecipientID row ≠ r)
              (map_to_list (filter (λ kv : string * MailEntity,
                 String.eqb (eRecipientID kv.2) r = false) (db s))).*2) as Hleft.
    { apply Forall_kept_values. intros k v Hne Heq. simpl in Hne.
      by rewrite Heq, String.eqb_refl in Hne. }
    split; [|split].
    + intros id row. rewrite map_lookup_filter_Some. simpl.
      destruct (String.eqb_spec (eRecipientID row) r); split; intros [Hm Hne]; split;
        try done.
    + unfold GormMailStore_CountUnreadMails, table_rows. simpl.
      rewrite eqb_empty_false by done.
      rewrite filter_none; [done|].
      eapply Forall_impl; [exact Hleft|]. intros row Hne. simpl.
      by destruct (String.eqb_spec (eRecipientID row) r).
    + unfold GormMailStore_CountMailsWithAttachments, table_rows. simpl.
      rewrite eqb_empty_false by done.
      rewrite filter_none; [done|].
      eapply Forall_impl; [exact Hleft|]. intros row Hne. simpl.
      by destruct (String.eqb_spec (eRecipientID row) r).
Qed.

Lemma delete_where_none (cond : MailEntity → bool) (table : gmap string MailEntity) :
  map_Forall (λ _ row, cond row = false) table → delete_where cond table = (table, 0).
Proof.
  intros Hnone. unfold delete_where. f_equal.
  - apply map_filter_id. intros k row Hrow. by apply (Hnone k).
  - assert (filter (λ kv : string * MailEntity, cond kv.2 = true) table = ∅) as ->;
      [|by rewrite map_size_empty].
    apply map_empty_filter. intros k row Hrow Hcond. simpl in Hcond.
    specialize (Hnone k row Hrow). simpl in Hnone. congruence.
Qed.

(** X5.  [DeleteExpiredMails] a second time with the same time deletes
    nothing: it returns 0 and leaves the state the first call left.  After
    the call no stored mail matches a filter with [ExpiredOnly] at an
    instant up to that time: the in-memory store has no match for it, and
    [QueryMails] on the GORM store returns nothing for every page. *)
Theorem DeleteExpiredMails_idempotent :
  (∀ (s : MemoryMailStore) (t : Z),
     let s' := (MemoryMailStore_DeleteExpiredMails s t).2 in
     MemoryMailStore_DeleteExpiredMails s' t = (Ok 0, s')
     ∧ ∀ f now, fExpiredOnly f = true → now ≤ t →
         MemoryMailStore_matchedMails s' (Some f) now = [])
  ∧ (∀ (s : GormMailStore) (t : Z),
       let s' := (GormMailStore_DeleteExpiredMails s t).2 in
       GormMailStore_DeleteExpiredMails s' t = (Ok 0, s')
       ∧ ∀ f now page size, fExpiredOnly f = true → now ≤ t →
           GormMailStore_QueryMails s' (Some f) page size now = Ok ([], 0)).
Proof.
  split.
  - intros s t s'.
    assert (Forall (λ kv : string * Mail, ¬ expired_before t kv.2 = true)
              (map_to_list (mails s'))) as Hleft.
    { unfold s', MemoryMailStore_DeleteExpiredMails. simpl.
      rewrite delete_all_selected. apply Forall_kept. }
    clearbody s'. split.
    + unfold MemoryMailStore_DeleteExpiredMails.
      rewrite (filter_none _ _ Hleft). simpl. by destruct s'.
    + intros f now Hexpired Hnow. unfold MemoryMailStore_matchedMails, range_mails.
      rewrite filter_none; [done|].
      apply Forall_fmap. eapply Forall_impl; [exact Hleft|].
      intros [k mail] Hkeep. simpl in *. intros Hmatch. apply Hkeep.
      apply matchMail_Some in Hmatch as (_ & _ & _ & _ & _ & Hexp & _).
      destruct (Hexp Hexpired) as [Hzero Hlt].
      unfold expired_before, IsZero, Before.
      apply andb_true_iff. split; [apply negb_true_iff; lia | lia].
  - intros s t s'.
    assert (map_Forall (λ _ row, negb (eExpireTime row =? GoTime.zero)
                                 && (eExpireTime row <? t) = false) (db s')) as Hleft.
    { intros k row Hrow. unfold s', GormMailStore_DeleteExpiredMails, delete_where in Hrow.
      simpl in Hrow. by apply map_lookup_filter_Some in Hrow as [_ Hcond]. }
    clearbody s'. split.
    + unfold GormMailStore_DeleteExpiredMails.
      rewrite (delete_where_none _ _ Hleft). by destruct s'.
    + intros f now page size Hexpired Hnow. unfold GormMailStore_QueryMails, table_rows.
      rewrite filter_none; [done|].
      apply Forall_fmap, Forall_forall. intros [k row] Hrow%elem_of_map_to_list.
      specialize (Hleft k row Hrow). simpl in *. unfold GormMailStore_where.
      rewrite Hexpired. intros Hwhere.
      repeat (apply andb_true_iff in Hwhere as [Hwhere ?]).
      unfold GoTime.zero in *.
      destruct (Z.eqb_spec (eExpireTime row) 0), (Z.ltb_spec (eExpireTime row) t),
               (Z.ltb_spec (eExpireTime row) now); simpl in *; try done; lia.
Qed.

(** ** Queries of the in-memory store *)

Lemma GoInt_wrap_range z : GoInt.in_range (GoInt.wrap z).
Proof.
  unfold GoInt.in_range, GoInt.min_int, GoInt.max_int, GoInt.wrap.
  pose proof (Z.mod_pos_bound (z + 2 ^ 63) (2 ^ 64) ltac:(lia)). lia.
Qed.

(** A sum of a non-negative [int] and a positive one either fits, or
    wraps around to a negative number. *)
Lemma wrap_add_cases (a b : Z) :
  0 ≤ a ≤ GoInt.max_int → 1 ≤ b ≤ GoInt.max_int →
  GoInt.wrap (a + b) = a + b ∨ GoInt.wrap (a + b) < 0.
Proof.
  unfold GoInt.max_int. intros Ha Hb.
  destruct (decide (a + b ≤ 2 ^ 63 - 1)) as [Hfit|Hover].
  - left. apply wrap_in_range. unfold GoInt.in_range, GoInt.min_int, GoInt.max_int. lia.
  - right. unfold GoInt.wrap.
    assert ((a + b + 2 ^ 63) mod 2 ^ 64 = a + b + 2 ^ 63 - 2 ^ 64) as ->; [|lia].
    symmetry. apply (Z.mod_unique _ _ 1); lia.
Qed.

Lemma StronglySorted_sublist {A} (R : relation A) (l1 l2 : list A) :
  l1 `sublist_of` l2 → StronglySorted R l2 → StronglySorted R l1.
Proof.
  induction 1 as [|x l1 l2 Hsub IH|x l1 l2 Hsub IH]; intros Hsorted; [done| |].
  - apply StronglySorted_inv in Hsorted as [Hrest Hx]. constructor; [by apply IH|].
    eapply Forall_forall. intros y Hy. rewrite Forall_forall in Hx. apply Hx.
    by eapply sublist_subseteq.
  - apply StronglySorted_inv in Hsorted as [Hrest _]. by apply IH.
Qed.

Lemma newest_first_trans : Transitive newest_first.
Proof.
  intros a b c. unfold newest_first, After.
  destruct (Z.ltb_spec (CreateTime a) (CreateTime b)),
           (Z.ltb_spec (CreateTime b) (CreateTime c)),
           (Z.ltb_spec (CreateTime a) (CreateTime c)); try done; lia.
Qed.

Lemma Sorted_newest_first_sublist (l1 l2 : list Mail) :
  l1 `sublist_of` l2 → Sorted newest_first l2 → Sorted newest_first l1.
Proof.
  intros Hsub Hsorted. apply StronglySorted_Sorted.
  eapply StronglySorted_sublist; [done|].
  apply Sorted_StronglySorted; [|done]. intros a b c. apply newest_first_trans.
Qed.

(** What [paginate] returns when it returns: a stretch of the list, no
    longer than [size], and the length of the whole list. *)
Lemma paginate_Ok (l page_mails : list Mail) (page size total : Z) :
  1 ≤ size ≤ GoInt.max_int →
  paginate l page size = Ok (page_mails, total) →
  total = Z.of_nat (length l)
  ∧ Z.of_nat (length page_mails) ≤ size
  ∧ page_mails `sublist_of` l.
Proof.
  intros Hsize. unfold paginate.
  set (start := GoInt.mul (GoInt.sub page 1) size).
  destruct (Z.geb_spec start (Z.of_nat (length l))) as [Hge|Hlt].
  { intros [= <- <-]. split; [done|]. split; [simpl; lia | apply sublist_nil_l]. }
  unfold slice_expr. case_bool_decide as Hbounds; [|done].
  intros [= <- <-]. destruct Hbounds as (Hstart & Hend & Htotal).
  split; [done|]. split.
  - rewrite length_take, length_drop.
    assert (0 ≤ start ≤ GoInt.max_int) as Hstart'.
    { split; [done|]. pose proof (GoInt_wrap_range ((GoInt.sub page 1) * size)) as Hr.
      unfold start, GoInt.mul. unfold GoInt.in_range in Hr. lia. }
    destruct (wrap_add_cases start size Hstart' Hsize) as [Hfit|Hneg];
      unfold GoInt.add in *;
      destruct (Z.gtb_spec (GoInt.wrap (start + size)) (Z.of_nat (length l))); lia.
  - etrans; [apply sublist_take | apply sublist_drop].
Qed.

(** X6.  Whenever [QueryMails] on the in-memory store returns, for a [size]
    that is an [int]: the total is the number of stored mails that
    [matchMail] accepts, the page holds at most [size] mails (10 when [size]
    is below 1), it is a stretch of the matches in their order, newest
    first, and every mail of it is a stored mail that matches. *)
Theorem MemoryMailStore_QueryMails_sound
    (s : MemoryMailStore) (filter_ : option MailFilter) (page size now : Z)
    (page_mails : list Mail) (total : Z) :
  GoInt.in_range size →
  MemoryMailStore_QueryMails s filter_ page size now = Ok (page_mails, total) →
  total = Z.of_nat (length (filter (λ mail, matchMail mail filter_ now = true)
                              (range_mails s)))
  ∧ Z.of_nat (length page_mails) ≤ default_size size
  ∧ page_mails `sublist_of` MemoryMailStore_matchedMails s filter_ now
  ∧ Sorted newest_first page_mails
  ∧ Forall (λ mail, matchMail mail filter_ now = true ∧ mail ∈ range_mails s) page_mails.
Proof.
  intros Hsize Hquery. unfold MemoryMailStore_QueryMails in Hquery.
  apply paginate_Ok in Hquery as (-> & Hlen & Hsub).
  2: { unfold default_size, GoInt.in_range, GoInt.max_int in *.
       destruct (Z.leb_spec size 0); lia. }
  split; [by rewrite MemoryMailStore_matchedMails_length|]. split; [done|].
  split; [done|]. split.
  - eapply Sorted_newest_first_sublist; [done|]. apply Sorted_sort_newest_first.
  - apply Forall_forall. intros mail Hin.
    assert (mail ∈ MemoryMailStore_matchedMails s filter_ now) as Hin'
      by (by eapply sublist_subseteq).
    unfold MemoryMailStore_matchedMails in Hin'.
    rewrite sort_newest_first_Permutation in Hin'.
    apply list_elem_of_fmap in Hin' as (stored & -> & Hstored).
    rewrite copyMail_id. by apply list_elem_of_filter in Hstored.
Qed.

Lemma NoDup_fmap_eq {A B} (f : A → B) (l : list A) (x y : A) :
  NoDup (f <$> l) → x ∈ l → y ∈ l → f x = f y → x = y.
Proof.
  induction l as [|a l IH]; [by intros _ ?%elem_of_nil|].
  rewrite fmap_cons, NoDup_cons. intros [Ha Hl] Hx Hy Hxy.
  apply elem_of_cons in Hx as [->|Hx]; apply elem_of_cons in Hy as [->|Hy]; [done| | |by apply IH].
  - destruct Ha. rewrite Hxy. by apply list_elem_of_fmap_2.
  - destruct Ha. rewrite <-Hxy. by apply list_elem_of_fmap_2.
Qed.

Lemma copyMail_fmap (l : list Mail) : copyMail <$> l = l.
Proof. induction l as [|m l IH]; [done|]. by rewrite fmap_cons, copyMail_id, IH. Qed.

(** X7.  Mails created at different instants come out of a query in one
    order only: when no two stored mails share a creation time, every
    listing of the matches that is sorted newest first is the listing the
    store builds, whatever the order of the traversal of the map and
    whatever the sort does with equal keys. *)
Theorem MemoryMailStore_matchedMails_unique
    (s : MemoryMailStore) (filter_ : option MailFilter) (now : Time) (l : list Mail) :
  NoDup (CreateTime <$> range_mails s) →
  Sorted newest_first l →
  l ≡ₚ filter (λ mail, matchMail mail filter_ now = true) (range_mails s) →
  l = MemoryMailStore_matchedMails s filter_ now.
Proof.
  intros Hdistinct Hsorted Hperm.
  assert (MemoryMailStore_matchedMails s filter_ now ≡ₚ l) as Hperm'.
  { unfold MemoryMailStore_matchedMails.
    by rewrite sort_newest_first_Permutation, copyMail_fmap. }
  apply (@Sorted_unique_strong _ newest_first newest_first_trans);
    [|done|apply Sorted_sort_newest_first|done].
  intros x1 x2 Hx1 Hx2 H12 H21.
  rewrite Hperm' in Hx2. rewrite Hperm in Hx1, Hx2.
  apply list_elem_of_filter in Hx1 as [_ Hx1]. apply list_elem_of_filter in Hx2 as [_ Hx2].
  apply (NoDup_fmap_eq CreateTime (range_mails s)); [done..|].
  unfold newest_first, After in H12, H21.
  destruct (Z.ltb_spec (CreateTime x1) (CreateTime x2)),
           (Z.ltb_spec (CreateTime x2) (CreateTime x1)); try done; lia.
Qed.



Lemma matchMail_recipient_filter (mail : Mail) (recipientID : string) (now : Time) :
  recipientID ≠ EmptyString →
  matchMail mail (Some (recipient_filter recipientID)) now
  = String.eqb (RecipientID mail) recipientID.
Proof.
  intros Hne. unfold matchMail, recipient_filter. simpl.
  rewrite (eqb_empty_false recipientID) by done. simpl.
  by destruct (String.eqb (RecipientID mail) recipientID).
Qed.

Lemma matchMail_unread_filter (mail : Mail) (recipientID : string) (now : Time) :
  recipientID ≠ EmptyString →
  matchMail mail (Some (unread_filter recipientID)) now
  = String.eqb (RecipientID mail) recipientID && negb (ReadStatus mail).
Proof.
  intros Hne. unfold matchMail, unread_filter. simpl.
  rewrite (eqb_empty_false recipientID) by done. simpl.
  by destruct (String.eqb (RecipientID mail) recipientID), (ReadStatus mail).
Qed.

Lemma GormMailStore_where_recipient_filter (row : MailEntity) (recipientID : string) now :
  recipientID ≠ EmptyString →
  GormMailStore_where (Some (recipient_filter recipientID)) now row
  = String.eqb (eRecipientID row) recipientID.
Proof.
  intros Hne. unfold GormMailStore_where, recipient_filter. simpl.
  rewrite (eqb_empty_false recipientID) by done. simpl.
  by destruct (String.eqb (eRecipientID row) recipientID).
Qed.

Lemma GormMailStore_where_unread_filter (row : MailEntity) (recipientID : string) now :
  recipientID ≠ EmptyString →
  GormMailStore_where (Some (unread_filter recipientID)) now row
  = String.eqb (eRecipientID row) recipientID && Bool.eqb (eReadStatus row) false.
Proof.
  intros Hne. unfold GormMailStore_where, unread_filter. simpl.
  rewrite (eqb_empty_false recipientID) by done. simpl.
  by destruct (String.eqb (eRecipientID row) recipientID), (eReadStatus row).
Qed.

(** X9.  For a recipient id that is not empty, [GetMailsByRecipient] is
    [QueryMails] with a filter that names the recipient and nothing else, in
    both stores and for every page and size. *)
Theorem GetMailsByRecipient_QueryMails (recipientID : string) (page size now : Z) :
  recipientID ≠ EmptyString →
  (∀ s : MemoryMailStore,
     MemoryMailStore_GetMailsByRecipient s recipientID page size
     = MemoryMailStore_QueryMails s (Some (recipient_filter recipientID)) page size now)
  ∧ (∀ s : GormMailStore,
       GormMailStore_GetMailsByRecipient s recipientID page size
       = GormMailStore_QueryMails s (Some (recipient_filter recipientID)) page size now).
Proof.
  intros Hne. split; intros s.
  - unfold MemoryMailStore_GetMailsByRecipient, MemoryMailStore_QueryMails,
      MemoryMailStore_matchedMails.
    do 3 f_equal. apply list_filter_iff. intros mail.
    by rewrite matchMail_recipient_filter.
  - unfold GormMailStore_GetMailsByRecipient, GormMailStore_QueryMails.
    rewrite (eqb_empty_false recipientID) by done.
    assert (filter (λ row, String.eqb (eRecipientID row) recipientID = true) (table_rows s)
            = filter (λ row, GormMailStore_where (Some (recipient_filter recipientID)) now row
                             = true) (table_rows s)) as ->; [|done].
    apply list_filter_iff. intros row. by rewrite GormMailStore_where_recipient_filter.
Qed.

Lemma paginate_total (l page_mails : list Mail) (page size total : Z) :
  paginate l page size = Ok (page_mails, total) → total = Z.of_nat (length l).
Proof.
  unfold paginate. destruct (_ >=? _); [by intros [= _ <-]|].
  destruct (slice_expr _ _ _); [|done..]. by intros [= _ <-].
Qed.

(** X10.  The total of a query for the unread mails of a recipient is the
    count of [CountUnreadMails], in both stores, whatever page was asked
    for. *)
Theorem CountUnreadMails_QueryMails
    (recipientID : string) (page size now : Z) (page_mails : list Mail) (total : Z) :
  recipientID ≠ EmptyString →
  (∀ s : MemoryMailStore,
     MemoryMailStore_QueryMails s (Some (unread_filter recipientID)) page size now
     = Ok (page_mails, total) →
     MemoryMailStore_CountUnreadMails s recipientID = Ok total)
  ∧ (∀ s : GormMailStore,
       GormMailStore_QueryMails s (Some (unread_filter recipientID)) page size now
       = Ok (page_mails, total) →
       GormMailStore_CountUnreadMails s recipientID = Ok total).
Proof.
  intros Hne. split; intros s Hquery.
  - unfold MemoryMailStore_QueryMails in Hquery. apply paginate_total in Hquery as ->.
    rewrite MemoryMailStore_matchedMails_length.
    unfold MemoryMailStore_CountUnreadMails. do 3 f_equal.
    apply list_filter_iff. intros mail. by rewrite matchMail_unread_filter.
  - unfold GormMailStore_CountUnreadMails. rewrite (eqb_empty_false recipientID) by done.
    unfold GormMailStore_QueryMails in Hquery.
    assert (filter (λ row, GormMailStore_where (Some (unread_filter recipientID)) now row
                           = true) (table_rows s)
            = filter (λ row, String.eqb (eRecipientID row) recipientID
                             && Bool.eqb (eReadStatus row) false = true) (table_rows s))
      as Hfilter.
    { apply list_filter_iff. intros row. by rewrite GormMailStore_where_unread_filter. }
    rewrite Hfilter in Hquery.
    destruct (Z.eqb_spec (Z.of_nat (length (filter
                (λ row, String.eqb (eRecipientID row) recipientID
                        && Bool.eqb (eReadStatus row) false = true) (table_rows s)))) 0)
      as [Hzero|Hpos].
    + injection Hquery as _ <-. by rewrite Hzero.
    + destruct (entitiesToMails _); [|done..]. by injection Hquery as _ <-.
Qed.

(** ** The conditions of the GORM store against [matchMail] *)

Lemma like_percent_intro (pattern text : string) :
  SQL.like pattern text = true → SQL.like (String "%" pattern) text = true.
Proof. intros Hlike. destruct text; simpl; by rewrite Hlike. Qed.

Lemma like_percent_skip (pattern text : string) (c : ascii) :
  SQL.like (String "%" pattern) text = true →
  SQL.like (String "%" pattern) (String c text) = true.
Proof. simpl. intros ->. apply orb_true_r. Qed.

Lemma like_percent_any (text : string) : SQL.like "%" text = true.
Proof.
  induction text as [|c text IH]; [done|]. by apply like_percent_skip.
Qed.

Lemma lower_eqb (c : ascii) : Ascii.eqb (SQL.lower c) (SQL.lower c) = true.
Proof. apply Ascii.eqb_refl. Qed.

Lemma like_prefix (t rest : string) : SQL.like (t +:+ "%") (t +:+ rest) = true.
Proof.
  induction t as [|c t IH]; [apply like_percent_any|].
  change (SQL.like (String c (t +:+ "%")) (String c (t +:+ rest)) = true).
  destruct (Ascii.eqb c "%") eqn:Hpercent.
  - apply Ascii.eqb_eq in Hpercent as ->.
    by apply like_percent_skip, like_percent_intro.
  - simpl. rewrite Hpercent. destruct (Ascii.eqb c "_"); [done|].
    by rewrite lower_eqb.
Qed.

(** A text matches [%t%] when [t] occurs in it. *)
Lemma like_contains (pre t post : string) :
  SQL.like ("%" +:+ t +:+ "%") (pre +:+ t +:+ post) = true.
Proof.
  change ("%" +:+ t +:+ "%") with (String "%" (t +:+ "%")).
  induction pre as [|c pre IH].
  - apply like_percent_intro. exact (like_prefix t post).
  - change (String c pre +:+ t +:+ post) with (String c (pre +:+ t +:+ post)).
    by apply like_percent_skip.
Qed.

Lemma Marshal_elements_contains (tag : string) (tags : list string) :
  tag ∈ tags →
  ∃ pre post,
    GoJSON.Marshal_elements tags = pre +:+ GoJSON.escape_string tag +:+ post.
Proof.
  induction tags as [|tag0 rest IH]; [by intros ?%elem_of_nil|].
  intros [->|Hin]%elem_of_cons.
  - destruct rest as [|tag1 rest].
    + by exists (String GoJSON.dquote EmptyString), (String GoJSON.dquote EmptyString).
    + exists (String GoJSON.dquote EmptyString),
        (String GoJSON.dquote EmptyString +:+ "," +:+ GoJSON.Marshal_elements (tag1 :: rest)).
      change (GoJSON.Marshal_elements (tag0 :: tag1 :: rest))
        with (String GoJSON.dquote
                ((GoJSON.escape_string tag0 +:+ String GoJSON.dquote EmptyString)
                 +:+ "," +:+ GoJSON.Marshal_elements (tag1 :: rest))).
      by rewrite append_assoc.
  - destruct (IH Hin) as (pre & post & Hrest).
    destruct rest as [|tag1 rest]; [by apply elem_of_nil in Hin|].
    exists (GoJSON.Marshal_string tag0 +:+ "," +:+ pre), post.
    change (GoJSON.Marshal_elements (tag0 :: tag1 :: rest))
      with (GoJSON.Marshal_string tag0 +:+ "," +:+ GoJSON.Marshal_elements (tag1 :: rest)).
    rewrite Hrest. by rewrite !append_assoc.
Qed.

Lemma Marshal_strings_contains (tag : string) (tags : list string) :
  tag ∈ tags →
  ∃ pre post,
    GoJSON.Marshal_strings tags = pre +:+ GoJSON.escape_string tag +:+ post.
Proof.
  intros (pre & post & Helements)%Marshal_elements_contains.
  exists ("[" +:+ pre), (post +:+ "]").
  unfold GoJSON.Marshal_strings. rewrite Helements. by rewrite !append_assoc.
Qed.

(** X11.  The two stores agree on a mail, for a filter whose tags are all
    carried by the mail, ASCII, and written by [json.Marshal] without
    escapes: the conditions of the GORM store hold of the row of the mail
    exactly when [matchMail] accepts the mail.  A filter without tags is
    such a filter. *)
Theorem GormMailStore_where_matchMail
    (mail : Mail) (row : MailEntity) (f : MailFilter) (now : Time) :
  mailToEntity mail = Ok row →
  Forall (λ tag, tag ∈ elems (Tags mail)
                 ∧ ascii_string tag = true
                 ∧ GoJSON.escape_string tag = tag) (fTags f) →
  GormMailStore_where (Some f) now row = matchMail mail (Some f) now.
Proof.
  intros Hrow Htags.
  assert ((0 <? Z.of_nat (length (fTags f)))
          && negb (hasTag (fTags f) (elems (Tags mail))) = false) as Hmemory.
  { apply guard_tags. intros Hne. destruct Htags as [|tag rest [Hin _] _]; [done|].
    exists tag. split; [left | done]. }
  assert ((if 0 <? Z.of_nat (length (fTags f))
           then forallb (λ tag, SQL.like ("%" +:+ tag +:+ "%") (eTags row)) (fTags f)
           else true) = true) as Hgorm.
  { destruct (0 <? _); [|done]. apply forallb_forall. intros tag Hin%list_elem_of_In.
    rewrite Forall_forall in Htags. destruct (Htags tag Hin) as (Hcarried & _ & Hplain).
    unfold mailToEntity in Hrow.
    destruct (match Attachments mail with Some a => _ | None => _ end) as [text|]; [|done].
    injection Hrow as <-. simpl. destruct (Tags mail) as [ts|]; [|by apply elem_of_nil in Hcarried].
    destruct (Marshal_strings_contains tag ts Hcarried) as (pre & post & ->).
    rewrite Hplain. apply like_contains. }
  unfold GormMailStore_where, matchMail. rewrite Hmemory, Hgorm.
  unfold mailToEntity in Hrow.
    destruct (match Attachments mail with Some a => _ | None => _ end) as [text|]; [|done].
  injection Hrow as <-. simpl. unfold IsZero, Before, After, GoTime.zero.
  destruct (String.eqb (fSenderID f) EmptyString), (String.eqb (SenderID mail) (fSenderID f)),
    (String.eqb (fRecipientID f) EmptyString),
    (String.eqb (RecipientID mail) (fRecipientID f)); simpl; try done;
  destruct (fReadStatus f) as [[]|], (ReadStatus mail); simpl; try done;
  destruct (fStartTime f) as [t1|]; simpl;
  try (destruct (Z.leb_spec t1 (CreateTime mail)), (Z.ltb_spec (CreateTime mail) t1);
       simpl; try done; try lia);
  destruct (fEndTime f) as [t2|]; simpl;
  try (destruct (Z.leb_spec (CreateTime mail) t2), (Z.ltb_spec t2 (CreateTime mail));
       simpl; try done; try lia);
  destruct (fExpiredOnly f), (ExpireTime mail =? 0), (ExpireTime mail <? now); done.
Qed.

(** ** Writing to the GORM store *)


Lemma mailToEntity_eID (m : Mail) (entity : MailEntity) :
  mailToEntity m = Ok entity → eID entity = ID m.
Proof.
  unfold mailToEntity.
  destruct (match Attachments m with Some a => _ | None => _ end); [|done].
  by intros [= <-].
Qed.

Lemma mailToEntity_not_Panic (m : Mail) : mailToEntity m ≠ Panic.
Proof.
  unfold mailToEntity.
  by destruct (match Attachments m with Some a => _ | None => _ end).
Qed.

(** X13.  [CreateMail] under an id that is taken.  The in-memory store
    replaces the mail stored under the id and reports success; the GORM
    store returns an error and leaves its table as it was.  So two mails
    without an id that the GORM store is given at the same reading of the
    clock cannot both be created. *)
Theorem CreateMail_taken_ID :
  (∀ (s : MemoryMailStore) (m : Mail) (unixNano : Z),
     ID m ≠ EmptyString → is_Some (mails s !! ID m) →
     ∃ s', MemoryMailStore_CreateMail s (Some m) unixNano = (Ok (ID m), s', Some m)
           ∧ MemoryMailStore_GetMail s' (ID m) = Ok m
           ∧ size (mails s') = size (mails s))
  ∧ (∀ (s : GormMailStore) (m : Mail) (unixNano : Z),
       ID m ≠ EmptyString → is_Some (db s !! ID m) →
       ∃ e, GormMailStore_CreateMail s (Some m) unixNano = (Err e, s, Some m)
            ∧ (e = ErrCreate ∨ e = ErrMarshalAttachments))
  ∧ (∀ (s s1 : GormMailStore) (m1 m2 : Mail) (unixNano : Z) (id : string) (m1' : option Mail),
       ID m1 = EmptyString → ID m2 = EmptyString →
       GormMailStore_CreateMail s (Some m1) unixNano = (Ok id, s1, m1') →
       ∃ e, GormMailStore_CreateMail s1 (Some m2) unixNano = (Err e, s1, Some (set_ID id m2))
            ∧ (e = ErrCreate ∨ e = ErrMarshalAttachments)).
Proof.
  split; [|split].
  - intros s m unixNano Hid [old Hold]. unfold MemoryMailStore_CreateMail.
    rewrite (eqb_empty_false _ Hid). eexists. split; [done|]. split.
    + unfold MemoryMailStore_GetMail. simpl. by rewrite lookup_insert_eq, !copyMail_id.
    + simpl. apply map_size_insert_Some. by rewrite Hold.
  - intros s m unixNano Hid [old Hold]. unfold GormMailStore_CreateMail.
    rewrite (eqb_empty_false _ Hid).
    destruct (mailToEntity m) as [entity|e|] eqn:Hentity.
    + rewrite (mailToEntity_eID _ _ Hentity), Hold. exists ErrCreate. by split; [|left].
    + exists e. split; [done|]. right. unfold mailToEntity in Hentity.
      destruct (match Attachments m with Some a => _ | None => _ end); [done|].
      by injection Hentity as <-.
    + by apply mailToEntity_not_Panic in Hentity.
  - intros s s1 m1 m2 unixNano id m1' Hid1 Hid2 Hcreate.
    unfold GormMailStore_CreateMail in *. rewrite Hid1 in Hcreate. rewrite Hid2.
    simpl in *.
    destruct (mailToEntity (set_ID _ m1)) as [entity1| |] eqn:Hentity1; [|done..].
    apply mailToEntity_eID in Hentity1 as HeID1. simpl in HeID1.
    destruct (db s !! eID entity1) eqn:Hfree; [done|].
    injection Hcreate as <- <- _.
    destruct (mailToEntity (set_ID _ m2)) as [entity2|e|] eqn:Hentity2.
    + apply mailToEntity_eID in Hentity2 as HeID2. simpl in HeID2.
      rewrite HeID2, <-HeID1. simpl. rewrite lookup_insert_eq.
      exists ErrCreate. by split; [|left].
    + exists e. split; [done|]. right. unfold mailToEntity in Hentity2.
      destruct (match Attachments (set_ID _ m2) with Some a => _ | None => _ end); [done|].
      by injection Hentity2 as <-.
    + by apply mailToEntity_not_Panic in Hentity2.
Qed.

Lemma insert_rows_None (entities : list MailEntity) :
  foldl (λ (acc : option (gmap string MailEntity)) entity,
           table ← acc;
           match table !! eID entity with
           | Some _ => None
           | None => Some (<[eID entity := entity]> table)
           end) None entities = None.
Proof. by induction entities. Qed.

(** What one insert of many rows does when it succeeds: the rows of the
    table stay, every new row is in the table under a key that was free,
    and no key comes twice. *)
Lemma insert_rows_Some (entities : list MailEntity) (table table' : gmap string MailEntity) :
  insert_rows entities table = Some table' →
  table ⊆ table'
  ∧ size table' = (size table + length entities)%nat
  ∧ Forall (λ entity, table' !! eID entity = Some entity ∧ table !! eID entity = None) entities
  ∧ NoDup (eID <$> entities).
Proof.
  revert table. induction entities as [|entity rest IH]; intros table.
  - intros [= <-]. split; [done|]. split; [simpl; lia|]. split; constructor.
  - unfold insert_rows. simpl. destruct (table !! eID entity) eqn:Hfree.
    { by rewrite insert_rows_None. }
    intros Hrest. destruct (IH _ Hrest) as (Hsub & Hsize & Hall & Hnodup).
    assert (table ⊆ <[eID entity := entity]> table) as Hsub0 by (by apply insert_subseteq).
    assert (table' !! eID entity = Some entity) as Hentity.
    { eapply lookup_weaken; [|done]. apply lookup_insert_eq. }
    split; [by etrans|]. split.
    { rewrite Hsize, map_size_insert_None by done. simpl. lia. }
    split.
    + constructor; [done|]. eapply Forall_impl; [done|].
      intros row [Hrow Hnew]. split; [done|]. by eapply lookup_weaken_None.
    + simpl. constructor; [|done].
      intros (row & Hkey & Hin)%list_elem_of_fmap.
      rewrite Forall_forall in Hall. destruct (Hall row Hin) as [_ Hnew].
      rewrite <-Hkey, lookup_insert_eq in Hnew. done.
Qed.

Lemma GormMailStore_CreateBatchMails_loop_ids
    (batch : list (option positive)) (now : nat → Z) (n : nat)
    (h h' : Heap) (ids ids' : list string) (entities entities' : list MailEntity) :
  ids = eID <$> entities →
  GormMailStore_CreateBatchMails_loop batch now n h ids entities = (Ok (ids', entities'), h') →
  ids' = eID <$> entities'.
Proof.
  revert n h ids entities.
  induction batch as [|[p|] rest IH]; intros n h ids entities ->; simpl.
  - by intros [= <- <- _].
  - destruct (h !! p) as [m|]; [|done].
    destruct (String.eqb (ID m) EmptyString).
    + destruct (mailToEntity (set_ID _ m)) as [entity| |] eqn:Hentity; [|done..].
      apply IH. rewrite fmap_app. simpl.
      by rewrite (mailToEntity_eID _ _ Hentity).
    + destruct (mailToEntity m) as [entity| |] eqn:Hentity; [|done..].
      apply IH. rewrite fmap_app. simpl.
      by rewrite (mailToEntity_eID _ _ Hentity).
  - by apply IH.
Qed.

(** X14.  [CreateBatchMails] on the GORM store writes all the mails or none.
    When it returns ids, the rows that were in the table are still there,
    there is one more row for each id, every id is a key that was free
    before the call, and no id comes twice.  When it returns an error, the
    table is as it was. *)
Theorem GormMailStore_CreateBatchMails_all_or_nothing
    (s : GormMailStore) (h : Heap) (batch : list (option positive)) (now : nat → Z) :
  match GormMailStore_CreateBatchMails s h batch now with
  | (Ok ids, s', _) =>
      db s ⊆ db s'
      ∧ size (db s') = (size (db s) + length ids)%nat
      ∧ Forall (λ id, is_Some (db s' !! id) ∧ db s !! id = None) ids
      ∧ NoDup ids
  | (_, s', _) => s' = s
  end.
Proof.
  unfold GormMailStore_CreateBatchMails. case_bool_decide.
  { split; [done|]. split; [simpl; lia|]. split; constructor. }
  destruct (GormMailStore_CreateBatchMails_loop batch now 0 h [] [])
    as [[[ids entities]|e|] h'] eqn:Hloop; [|done..].
  apply GormMailStore_CreateBatchMails_loop_ids in Hloop as ->; [|done].
  destruct (insert_rows entities (db s)) as [table|] eqn:Hinsert; [|done].
  destruct (insert_rows_Some _ _ _ Hinsert) as (Hsub & Hsize & Hall & Hnodup).
  split; [done|]. split; [by rewrite length_fmap|]. split; [|done].
  apply Forall_fmap. eapply Forall_impl; [done|]. intros row [Hrow Hnew]. simpl.
  by rewrite Hrow.
Qed.

(** ** Queries of the GORM store *)

Lemma entitiesToMails_Forall2 (entities : list MailEntity) (mails_ : list Mail) :
  entitiesToMails entities = Ok mails_ →
  Forall2 (λ row mail, entityToMail row = Ok mail) entities mails_.
Proof.
  revert mails_. induction entities as [|row rest IH]; intros mails_; simpl.
  - intros [= <-]. constructor.
  - destruct (entityToMail row) as [mail| |] eqn:Hrow; [|done..].
    destruct (entitiesToMails rest) as [converted| |]; [|done..].
    intros [= <-]. constructor; [done|]. by apply IH.
Qed.

Lemma entityToMail_CreateTime (row : MailEntity) (mail : Mail) :
  entityToMail row = Ok mail → CreateTime mail = eCreateTime row.
Proof.
  unfold entityToMail. destruct (if String.eqb (eAttachments row) EmptyString then _ else _);
    [|done].
  destruct (if String.eqb (eTags row) EmptyString then _ else _); [|done].
  by intros [= <-].
Qed.

Lemma create_time_desc_trans : Transitive create_time_desc.
Proof. intros a b c. unfold create_time_desc. lia. Qed.

Lemma Sorted_order_create_time_desc (rows : list MailEntity) :
  StronglySorted create_time_desc (order_create_time_desc rows).
Proof.
  apply Sorted.Sorted_StronglySorted; [intros a b c; apply create_time_desc_trans|].
  apply Sorted_merge_sort. intros a b. unfold create_time_desc. lia.
Qed.

Lemma StronglySorted_entitiesToMails (entities : list MailEntity) (mails_ : list Mail) :
  Forall2 (λ row mail, entityToMail row = Ok mail) entities mails_ →
  StronglySorted create_time_desc entities →
  StronglySorted newest_first mails_.
Proof.
  induction 1 as [|row mail rest converted Hrow Hrest IH]; [constructor|].
  intros [Hall Hsorted]%StronglySorted_cons. constructor; [by apply IH|].
  clear IH Hsorted. induction Hrest as [|row' mail' rest converted Hrow' _ IH];
    [constructor|].
  apply Forall_cons in Hall as [Hle Hall]. constructor; [|by apply IH].
  unfold newest_first, After, create_time_desc in *.
  rewrite (entityToMail_CreateTime _ _ Hrow), (entityToMail_CreateTime _ _ Hrow').
  by apply Z.ltb_ge.
Qed.

Lemma Limit_Offset_sublist (limit offset : Z) (rows : list MailEntity) :
  Limit limit (Offset offset rows) `sublist_of` rows.
Proof.
  assert (Offset offset rows `sublist_of` rows) as Hoffset.
  { unfold Offset. destruct (0 <? offset); [apply sublist_drop | reflexivity]. }
  etrans; [|exact Hoffset].
  unfold Limit. destruct (0 <=? limit); [apply sublist_take | reflexivity].
Qed.

(** X15.  Whenever [QueryMails] on the GORM store returns: the total is the
    number of rows that satisfy the conditions, the page holds at most
    [size] mails (10 when [size] is below 1), its mails come newest first,
    and each is what [entityToMail] reads from a row of the table that
    satisfies the conditions. *)
Theorem GormMailStore_QueryMails_sound
    (s : GormMailStore) (filter_ : option MailFilter) (page size now : Z)
    (page_mails : list Mail) (total : Z) :
  GormMailStore_QueryMails s filter_ page size now = Ok (page_mails, total) →
  total = Z.of_nat (length (filter (λ row, GormMailStore_where filter_ now row = true)
                              (table_rows s)))
  ∧ Z.of_nat (length page_mails) ≤ default_size size
  ∧ Z.of_nat (length page_mails) ≤ total
  ∧ Sorted newest_first page_mails
  ∧ Forall (λ mail, ∃ row, row ∈ table_rows s
                           ∧ GormMailStore_where filter_ now row = true
                           ∧ entityToMail row = Ok mail) page_mails.
Proof.
  unfold GormMailStore_QueryMails.
  set (selected := filter (λ row, GormMailStore_where filter_ now row = true) (table_rows s)).
  pose proof (default_size_pos size) as Hsize.
  destruct (Z.eqb_spec (Z.of_nat (length selected)) 0) as [Hzero|Hpos].
  { intros [= <- <-]. split; [done|]. split; [simpl; lia|]. split; [done|].
    split; constructor. }
  set (entities := Limit _ _).
  destruct (entitiesToMails entities) as [mails_| |] eqn:Hmails; [|done..].
  intros [= <- <-]. apply entitiesToMails_Forall2 in Hmails.
  assert (entities `sublist_of` order_create_time_desc selected) as Hsub
    by apply Limit_Offset_sublist.
  assert (length mails_ = length entities) as Hlen by (symmetry; by eapply Forall2_length).
  split; [done|]. split; [|split; [|split]].
  - rewrite Hlen. unfold entities, Limit.
    destruct (Z.leb_spec 0 (default_size size)); [|lia]. rewrite length_take. lia.
  - rewrite Hlen. apply sublist_length in Hsub.
    unfold order_create_time_desc in Hsub. rewrite merge_sort_Permutation in Hsub. lia.
  - apply StronglySorted_Sorted. eapply StronglySorted_entitiesToMails; [done|].
    eapply StronglySorted_sublist; [done | apply Sorted_order_create_time_desc].
  - apply Forall_forall. intros mail Hin.
    apply list_elem_of_lookup in Hin as [i Hi].
    destruct (Forall2_lookup_r _ _ _ _ _ Hmails Hi) as (row & Hrow & Hread).
    exists row. apply list_elem_of_lookup_2 in Hrow.
    assert (row ∈ selected) as Hselected.
    { eapply sublist_subseteq in Hsub. apply Hsub in Hrow.
      unfold order_create_time_desc in Hrow. by rewrite merge_sort_Permutation in Hrow. }
    apply list_elem_of_filter in Hselected as [Hwhere Hstored]. done.
Qed.

(** ** The manager: sending *)

Lemma MemoryMailStore_CreateMail_read_back (s : MemoryMailStore) (m : Mail) (unixNano : Z) :
  ∃ id s',
    MemoryMailStore_CreateMail s (Some m) unixNano = (Ok id, s', Some (set_ID id m))
    ∧ id ≠ EmptyString
    ∧ (ID m ≠ EmptyString → id = ID m)
    ∧ MemoryMailStore_GetMail s' id = Ok (set_ID id m).
Proof.
  unfold MemoryMailStore_CreateMail.
  destruct (String.eqb_spec (ID m) EmptyString) as [Hid|Hid].
  - unfold GenerateID. simpl. eexists _, _. split; [done|].
    split; [apply generated_not_empty|]. split; [done|].
    unfold MemoryMailStore_GetMail. simpl. by rewrite lookup_insert_eq, !copyMail_id.
  - exists (ID m). eexists. rewrite set_ID_same. split; [done|]. split; [done|].
    split; [done|].
    unfold MemoryMailStore_GetMail. simpl. by rewrite lookup_insert_eq, !copyMail_id.
Qed.

Lemma GormMailStore_CreateMail_read_back
    (s s' : GormMailStore) (m : Mail) (unixNano : Z) (id : string) (after : option Mail) :
  GormMailStore_CreateMail s (Some m) unixNano = (Ok id, s', after) →
  ∃ attachments,
    after = Some (set_ID id m)
    ∧ id ≠ EmptyString
    ∧ (ID m ≠ EmptyString → id = ID m)
    ∧ GormMailStore_GetMail s' id
      = Ok (mkMail id (SenderID m) (RecipientID m) (Title m) (Content m)
              (Some attachments) (ReadStatus m) (CreateTime m) (ExpireTime m)
              (Some (elems (Tags m)))).
Proof.
  unfold GormMailStore_CreateMail.
  set (m' := if String.eqb (ID m) EmptyString
             then set_ID ("mail_" +:+ pretty unixNano) m else m).
  assert (∃ id', id' ≠ EmptyString ∧ (ID m ≠ EmptyString → id' = ID m)
                 ∧ m' = set_ID id' m) as (id' & Hne & Hown & Hm').
  { unfold m'. destruct (String.eqb_spec (ID m) EmptyString).
    - exists ("mail_" +:+ pretty unixNano). split; [apply generated_not_empty|]. by split.
    - exists (ID m). by rewrite set_ID_same. }
  clearbody m'. subst m'.
  destruct (mailToEntity (set_ID id' m)) as [entity| |] eqn:Hentity; [|done..].
  pose proof (mailToEntity_eID _ _ Hentity) as Hkey. simpl in Hkey.
  destruct (db s !! eID entity); [done|]. intros [= <- <- <-].
  destruct (entityToMail_mailToEntity _ entity Hentity) as (a & Hgot & _).
  exists a. split; [done|]. split; [done|]. split; [done|].
  unfold GormMailStore_GetMail. simpl. rewrite eqb_empty_false by done.
  by rewrite Hkey, lookup_insert_eq, Hgot.
Qed.

Lemma prepareMailForSending_fields (mail : Mail) (now : Time) :
  let prepared := prepareMailForSending mail now in
  ID prepared = ID mail
  ∧ SenderID prepared = SenderID mail
  ∧ RecipientID prepared = RecipientID mail
  ∧ Title prepared = Title mail
  ∧ Content prepared = Content mail
  ∧ ExpireTime prepared = ExpireTime mail
  ∧ ReadStatus prepared = false
  ∧ Tags prepared = Some (elems (Tags mail))
  ∧ Attachments prepared = Some (default ∅ (Attachments mail))
  ∧ CreateTime prepared = (if decide (CreateTime mail = 0) then now else CreateTime mail).
Proof.
  unfold prepareMailForSending, IsZero. simpl.
  repeat (split; [done|]).
  split; [by destruct (Tags mail)|]. split; [by destruct (Attachments mail)|].
  by destruct (Z.eqb_spec (CreateTime mail) 0), (decide (CreateTime mail = 0)).
Qed.

(** X16.  [prepareMailForSending] a second time changes nothing, at whatever
    time it is called, provided the clock of the first call did not read the
    zero time: a creation time once set is never replaced. *)
Theorem prepareMailForSending_idempotent (mail : Mail) (now now' : Time) :
  now ≠ 0 →
  prepareMailForSending (prepareMailForSending mail now) now' = prepareMailForSending mail now.
Proof.
  intros Hnow. unfold prepareMailForSending, IsZero. simpl.
  f_equal; [by destruct (Attachments mail)| |by destruct (Tags mail)].
  destruct (Z.eqb_spec (CreateTime mail) 0); [|by destruct (Z.eqb_spec (CreateTime mail) 0)].
  by destruct (Z.eqb_spec now 0).
Qed.

(** X17.  [SendMail].  A nil mail is an error and the store is left alone.
    On the in-memory store every other call succeeds.  In both stores, the
    mail read back under the returned id is unread whatever the caller had
    set, keeps sender, recipient, title, content and expiry, has the tags of
    the caller's mail in a slice that is not nil, attachments that are not
    nil, and as creation time the caller's, or the reading of the clock when
    the caller's was zero.  The caller's mail gets the id back. *)
Theorem SendMail_GetMail (m : Mail) (now unixNano : Z) :
  (∀ s : MemoryMailStore, SendMail s None now unixNano = (Err ErrMailNil, s, None))
  ∧ (∀ s : GormMailStore, SendMail s None now unixNano = (Err ErrMailNil, s, None))
  ∧ (∀ s : MemoryMailStore,
       ∃ id s',
         SendMail s (Some m) now unixNano
         = (Ok id, s', Some (set_ID id (prepareMailForSending m now)))
         ∧ (ID m ≠ EmptyString → id = ID m)
         ∧ MemoryMailStore_GetMail s' id
           = Ok (mkMail id (SenderID m) (RecipientID m) (Title m) (Content m)
                   (Some (default ∅ (Attachments m))) false
                   (if decide (CreateTime m = 0) then now else CreateTime m)
                   (ExpireTime m) (Some (elems (Tags m)))))
  ∧ (∀ (s s' : GormMailStore) (id : string) (after : option Mail),
       Forall (λ tag, ascii_string tag = true) (elems (Tags m)) →
       SendMail s (Some m) now unixNano = (Ok id, s', after) →
       ∃ attachments,
         after = Some (set_ID id (prepareMailForSending m now))
         ∧ (ID m ≠ EmptyString → id = ID m)
         ∧ GormMailStore_GetMail s' id
           = Ok (mkMail id (SenderID m) (RecipientID m) (Title m) (Content m)
                   (Some attachments) false
                   (if decide (CreateTime m = 0) then now else CreateTime m)
                   (ExpireTime m) (Some (elems (Tags m))))).
Proof.
  pose proof (prepareMailForSending_fields m now) as Hfields.
  split; [done|]. split; [done|]. split.
  - intros s. unfold SendMail. simpl.
    destruct (MemoryMailStore_CreateMail_read_back s (prepareMailForSending m now) unixNano)
      as (id & s' & Hcreate & _ & Hown & Hget).
    exists id, s'. split; [done|]. split; [done|]. rewrite Hget. f_equal.
    unfold set_ID. destruct Hfields as (_ & -> & -> & -> & -> & -> & -> & -> & -> & ->).
    done.
  - intros s s' id after _ Hsend. unfold SendMail in Hsend. simpl in Hsend.
    destruct (GormMailStore_CreateMail_read_back _ _ _ _ _ _ Hsend)
      as (attachments & Hafter & _ & Hown & Hget).
    exists attachments. split; [done|]. split; [done|]. rewrite Hget.
    destruct Hfields as (_ & -> & -> & -> & -> & -> & -> & -> & _ & ->).
    done.
Qed.

Lemma hasAnnouncementTag_elem_of (tags : list string) :
  hasAnnouncementTag tags = true ↔ "system_announcement" ∈ tags.
Proof.
  induction tags as [|tag rest IH]; simpl.
  - split; [done | by intros ?%elem_of_nil].
  - rewrite elem_of_cons. destruct (String.eqb_spec tag "system_announcement") as [->|Hne].
    + split; [by left | done].
    + rewrite IH. split; [by right | by intros [?|?]].
Qed.

(** X18.  [SendSystemAnnouncement] on the in-memory store: the announcement
    is stored from [system] to [all_players], whatever sender and recipient
    the caller had set, and the caller's mail is overwritten likewise.  Its
    tags are the caller's when they hold [system_announcement] already, and
    the caller's followed by that tag otherwise, so the tag is there and is
    never added twice; a query for the tag finds the mail. *)
Theorem SendSystemAnnouncement_correct
    (s : MemoryMailStore) (m : Mail) (now unixNano now' : Z) (f : MailFilter) :
  SendSystemAnnouncement s None now unixNano = (Err ErrMailNil, s, None)
  ∧ ∃ id s' got,
      SendSystemAnnouncement s (Some m) now unixNano = (Ok id, s', Some got)
      ∧ MemoryMailStore_GetMail s' id = Ok got
      ∧ ID got = id
      ∧ (ID m ≠ EmptyString → id = ID m)
      ∧ SenderID got = "system"
      ∧ RecipientID got = "all_players"
      ∧ Title got = Title m ∧ Content got = Content m
      ∧ ReadStatus got = false
      ∧ Tags got = Some (if decide ("system_announcement" ∈ elems (Tags m))
                         then elems (Tags m)
                         else elems (Tags m) ++ ["system_announcement"])
      ∧ "system_announcement" ∈ elems (Tags got)
      ∧ (f = mkMailFilter EmptyString "all_players" None None None false
               ["system_announcement"] →
         matchMail got (Some f) now' = true).
Proof.
  split; [done|]. unfold SendSystemAnnouncement.
  pose proof (prepareMailForSending_fields m now) as Hfields. cbv zeta in Hfields.
  destruct Hfields as (HID & _ & _ & HTitle & HContent & _ & HRead & HTags & _).
  set (prepared := prepareMailForSending m now) in *.
  set (tags := if hasAnnouncementTag _ then _ else _).
  assert (tags = Some (if decide ("system_announcement" ∈ elems (Tags m))
                       then elems (Tags m)
                       else elems (Tags m) ++ ["system_announcement"])) as Htags.
  { unfold tags. rewrite HTags. simpl.
    destruct (hasAnnouncementTag (elems (Tags m))) eqn:Hhas.
    - apply hasAnnouncementTag_elem_of in Hhas. by rewrite decide_True.
    - rewrite decide_False; [done|]. intros Hin%hasAnnouncementTag_elem_of. congruence. }
  assert ("system_announcement" ∈ elems tags) as Hin.
  { rewrite Htags. simpl. case_decide; [done|]. apply elem_of_app. right. left. }
  clearbody tags. cbv zeta.
  set (announcement := mkMail _ _ _ _ _ _ _ _ _ _).
  destruct (MemoryMailStore_CreateMail_read_back s announcement unixNano)
    as (id & s' & Hcreate & _ & Hown & Hget).
  assert (f = mkMailFilter EmptyString "all_players" None None None false
                ["system_announcement"] →
          matchMail (set_ID id announcement) (Some f) now' = true) as Hmatch.
  { intros ->. apply matchMail_Some. unfold filter_holds. simpl.
    repeat split; try done. intros _. exists "system_announcement". split; [left | done]. }
  exists id, s', (set_ID id announcement).
  split; [done|]. split; [done|]. simpl.
  split; [done|].
  split; [intros Hne; rewrite <-HID; apply Hown; simpl; rewrite ?HID; done|].
  split; [done|]. split; [done|].
  split; [done|]. split; [done|]. split; [done|]. split; [by rewrite <-Htags|].
  split; [done|]. exact Hmatch.
Qed.

(** ** Generated ids *)

Lemma pretty_N_go_no_underscore (x : N) (text : string) :
  no_underscore text = true → no_underscore (pretty_N_go x text) = true.
Proof.
  revert text. induction (N.lt_wf_0 x) as [x _ IH]; intros text Htext.
  assert (x = 0 ∨ 0 < x)%N as [->|Hpos] by lia; [by rewrite pretty_N_go_0|].
  rewrite pretty_N_go_step by done. apply IH; [by apply N.div_lt|].
  simpl. rewrite Htext. unfold pretty_N_char. by repeat case_match.
Qed.

Lemma pretty_Z_no_underscore (z : Z) : no_underscore (pretty z) = true.
Proof.
  assert (∀ x : N, no_underscore (pretty x) = true) as HN.
  { intros x. unfold pretty, pretty_N. case_decide; [done|].
    by apply pretty_N_go_no_underscore. }
  destruct z as [|x|x]; [done|apply (HN (N.pos x))|].
  change (pretty (Z.neg x)) with (String "-" (pretty (N.pos x))).
  simpl. apply (HN (N.pos x)).
Qed.

Lemma underscore_split (a1 a2 c1 c2 : string) :
  no_underscore a1 = true → no_underscore a2 = true →
  a1 +:+ "_" +:+ c1 = a2 +:+ "_" +:+ c2 → a1 = a2 ∧ c1 = c2.
Proof.
  revert a2. induction a1 as [|x a1 IH]; intros [|y a2] H1 H2.
  - intros Heq. change (String "_" c1 = String "_" c2) in Heq. by injection Heq as ->.
  - intros Heq. change (String "_" c1 = String y (a2 +:+ "_" +:+ c2)) in Heq.
    injection Heq as <- _. done.
  - intros Heq. change (String x (a1 +:+ "_" +:+ c1) = String "_" c2) in Heq.
    injection Heq as -> _. done.
  - change (String x (a1 +:+ "_" +:+ c1) = String y (a2 +:+ "_" +:+ c2) →
            String x a1 = String y a2 ∧ c1 = c2).
    intros [= -> Hrest]. simpl in H1, H2.
    apply andb_true_iff in H1 as [_ H1]. apply andb_true_iff in H2 as [_ H2].
    destruct (IH a2 H1 H2 Hrest) as [-> ->]. done.
Qed.

Lemma wrap_succ_ne (z : Z) : GoInt.wrap (GoInt.wrap z + 1) ≠ GoInt.wrap z.
Proof.
  pose proof (GoInt_wrap_range z) as Hrange.
  unfold GoInt.in_range, GoInt.min_int, GoInt.max_int in Hrange.
  destruct (decide (GoInt.wrap z = 2 ^ 63 - 1)) as [Hmax|Hmax].
  - rewrite Hmax. by compute.
  - rewrite (wrap_in_range (GoInt.wrap z + 1)); [lia|].
    unfold GoInt.in_range, GoInt.min_int, GoInt.max_int. lia.
Qed.

Lemma generated_id_inv (unixNano1 unixNano2 counter1 counter2 : Z) :
  "mail_" +:+ pretty unixNano1 +:+ "_" +:+ pretty counter1
  = "mail_" +:+ pretty unixNano2 +:+ "_" +:+ pretty counter2 →
  unixNano1 = unixNano2 ∧ counter1 = counter2.
Proof.
  change ("mail_" +:+ ?x) with (String "m" (String "a" (String "i" (String "l"
                                 (String "_" x))))).
  intros [= Heq].
  apply underscore_split in Heq as [Hclock Hcounter]; [|apply pretty_Z_no_underscore..].
  split; [by apply (inj pretty) | by apply (inj pretty)].
Qed.

Lemma GenerateID_eq_inv (g1 g2 : SimpleIDGenerator) (unixNano1 unixNano2 : Z) :
  (GenerateID g1 unixNano1).1 = (GenerateID g2 unixNano2).1 →
  unixNano1 = unixNano2 ∧ GoInt.add (counter g1) 1 = GoInt.add (counter g2) 1.
Proof. apply generated_id_inv. Qed.

(** X19.  An id of the [SimpleIDGenerator] tells the reading of the clock
    and the counter it was made from, so two ids are equal only when both
    agree; and since every call moves the counter, a generator never gives
    the same id twice in a row, even at one reading of the clock and even
    when the counter wraps around. *)
Theorem GenerateID_injective :
  (∀ (g1 g2 : SimpleIDGenerator) (unixNano1 unixNano2 : Z),
     (GenerateID g1 unixNano1).1 = (GenerateID g2 unixNano2).1 →
     unixNano1 = unixNano2 ∧ (GenerateID g1 unixNano1).2 = (GenerateID g2 unixNano2).2)
  ∧ (∀ (g : SimpleIDGenerator) (unixNano1 unixNano2 : Z),
       (GenerateID g unixNano1).1 ≠ (GenerateID (GenerateID g unixNano1).2 unixNano2).1).
Proof.
  split.
  - intros g1 g2 unixNano1 unixNano2 Heq.
    destruct (GenerateID_eq_inv _ _ _ _ Heq) as [-> Hcounter]. split; [done|].
    unfold GenerateID. simpl. by rewrite Hcounter.
  - intros g unixNano1 unixNano2 Heq. apply GenerateID_eq_inv in Heq as [_ Hcounter].
    unfold GenerateID, GoInt.add in Hcounter. simpl in Hcounter.
    symmetry in Hcounter. by apply wrap_succ_ne in Hcounter.
Qed.

(** X20.  Two mails without an id, created one after the other in the
    in-memory store, get different ids and are both there afterwards, also
    when the clock reads the same for both. *)
Theorem MemoryMailStore_CreateMail_twice
    (s : MemoryMailStore) (m1 m2 : Mail) (unixNano1 unixNano2 : Z) :
  ID m1 = EmptyString → ID m2 = EmptyString →
  ∃ id1 id2 s1 s2,
    MemoryMailStore_CreateMail s (Some m1) unixNano1 = (Ok id1, s1, Some (set_ID id1 m1))
    ∧ MemoryMailStore_CreateMail s1 (Some m2) unixNano2 = (Ok id2, s2, Some (set_ID id2 m2))
    ∧ id1 ≠ id2
    ∧ MemoryMailStore_GetMail s2 id1 = Ok (set_ID id1 m1)
    ∧ MemoryMailStore_GetMail s2 id2 = Ok (set_ID id2 m2).
Proof.
  intros Hid1 Hid2. unfold MemoryMailStore_CreateMail. rewrite Hid1, Hid2. simpl.
  set (id1 := "mail_" +:+ pretty unixNano1 +:+ "_" +:+ pretty (GoInt.add (counter (idGen s)) 1)).
  set (id2 := "mail_" +:+ pretty unixNano2 +:+ "_"
              +:+ pretty (GoInt.add (GoInt.add (counter (idGen s)) 1) 1)).
  assert (id1 ≠ id2) as Hne.
  { intros Heq.
    apply (GenerateID_eq_inv (idGen s)
             (mkSimpleIDGenerator (GoInt.add (counter (idGen s)) 1))) in Heq as [_ Hcounter].
    simpl in Hcounter. unfold GoInt.add in Hcounter.
    symmetry in Hcounter. by apply wrap_succ_ne in Hcounter. }
  eexists id1, id2, _, _. split; [done|]. split; [done|]. split; [done|].
  unfold MemoryMailStore_GetMail. simpl.
  rewrite lookup_insert_ne by done. by rewrite !lookup_insert_eq, !copyMail_id.
Qed.

(** ** The manager: batches *)

Lemma wrap_add_wrap (a b : Z) : GoInt.wrap (GoInt.wrap a + b) = GoInt.wrap (a + b).
Proof.
  unfold GoInt.wrap. f_equal.
  replace ((a + 2 ^ 63) mod 2 ^ 64 - 2 ^ 63 + b + 2 ^ 63)
    with ((a + 2 ^ 63) mod 2 ^ 64 + b) by lia.
  replace (a + b + 2 ^ 63) with (a + 2 ^ 63 + b) by lia.
  by rewrite Zplus_mod_idemp_l.
Qed.

Lemma wrap_inj (a b : Z) : GoInt.wrap a = GoInt.wrap b → 0 ≤ a - b < 2 ^ 64 → a = b.
Proof.
  unfold GoInt.wrap. intros Heq Hclose.
  assert ((a + 2 ^ 63) mod 2 ^ 64 = (b + 2 ^ 63) mod 2 ^ 64) as Hmod by lia.
  pose proof (Z.div_mod (a + 2 ^ 63) (2 ^ 64) ltac:(lia)) as Ha.
  pose proof (Z.div_mod (b + 2 ^ 63) (2 ^ 64) ltac:(lia)) as Hb.
  rewrite Hmod in Ha.
  set (qa := (a + 2 ^ 63) `div` 2 ^ 64) in *. set (qb := (b + 2 ^ 63) `div` 2 ^ 64) in *.
  clearbody qa qb. lia.
Qed.

(** The loop of [CreateBatchMails] on mails without ids that no pointer of
    the batch shares: the [i]-th id comes from the [i]-th reading of the
    clock and the counter moved [i + 1] times, the keys that are not new
    ids keep their mails, and when the new ids differ from each other the
    [i]-th id holds the [i]-th mail. *)
Lemma MemoryMailStore_CreateBatchMails_loop_fresh
    (mails_ : list Mail) (addresses : list positive) (now : nat → Z) (n : nat)
    (s : MemoryMailStore) (h : Heap) (ids : list string) :
  length addresses = length mails_ →
  NoDup addresses →
  Forall (λ m, ID m = EmptyString) mails_ →
  (∀ i p m, addresses !! i = Some p → mails_ !! i = Some m → h !! p = Some m) →
  ∃ new_ids s' h',
    MemoryMailStore_CreateBatchMails_loop (Some <$> addresses) now n s h ids
    = (Ok (ids ++ new_ids), s', h')
    ∧ length new_ids = length mails_
    ∧ (∀ i id, new_ids !! i = Some id →
         id = "mail_" +:+ pretty (now (n + i)%nat) +:+ "_"
              +:+ pretty (GoInt.wrap (counter (idGen s) + 1 + Z.of_nat i)))
    ∧ (∀ k, k ∉ new_ids → mails s' !! k = mails s !! k)
    ∧ (NoDup new_ids →
       ∀ i id m, new_ids !! i = Some id → mails_ !! i = Some m →
                 mails s' !! id = Some (set_ID id m)).
Proof.
  revert addresses n s h ids.
  induction mails_ as [|m rest IH]; intros [|p addresses] n s h ids Hlen Hfresh Hids Hheap;
    try done.
  { exists [], s, h. rewrite app_nil_r. split; [done|]. split; [done|].
    split; [by intros i id ?|]. split; [done|]. by intros _ i id m ?. }
  apply NoDup_cons in Hfresh as [Hp Hfresh]. apply Forall_cons in Hids as [Hid Hids].
  assert (h !! p = Some m) as Hm by (by apply (Hheap 0%nat)).
  rewrite fmap_cons, (MemoryMailStore_CreateBatchMails_loop_cons _ _ _ _ _ _ _ _ Hm).
  rewrite Hid. unfold GenerateID. simpl String.eqb. cbv iota beta zeta.
  set (id1 := "mail_" +:+ pretty (now n) +:+ "_" +:+ pretty (GoInt.add (counter (idGen s)) 1)).
  cbn [ID set_ID]. rewrite copyMail_id.
  destruct (IH addresses (S n)
              (mkMemoryMailStore (<[id1 := set_ID id1 m]> (mails s))
                 (mkSimpleIDGenerator (GoInt.add (counter (idGen s)) 1)))
              (<[p := set_ID id1 m]> h) (ids ++ [id1]))
    as (new_ids & s' & h' & Hloop & Hcount & Hnames & Hframe & Hstored).
  { simpl in Hlen. lia. }
  { done. }
  { done. }
  { intros i q mq Hq Hmq. rewrite lookup_insert_ne.
    - by apply (Hheap (S i)).
    - intros <-. apply Hp. by eapply list_elem_of_lookup_2. }
  exists (id1 :: new_ids), s', h'. rewrite Hloop, <-app_assoc. split; [done|].
  split; [simpl; lia|]. split; [|split].
  - intros [|i] id; simpl.
    + intros [= <-]. unfold id1, GoInt.add. by rewrite Nat.add_0_r, Z.add_0_r.
    + intros Hi. rewrite (Hnames i id Hi). simpl. unfold GoInt.add.
      rewrite <-Z.add_assoc, wrap_add_wrap.
      replace (S (n + i)) with (n + S i)%nat by lia.
      replace (counter (idGen s) + 1 + (1 + Z.of_nat i))
        with (counter (idGen s) + 1 + Z.of_nat (S i)) by lia.
      done.
  - intros k Hk. apply not_elem_of_cons in Hk as [Hk1 Hk].
    rewrite (Hframe k Hk). simpl. by rewrite lookup_insert_ne.
  - intros [Hnew Hnodup]%NoDup_cons [|i] id mi; simpl.
    + intros [= <-] [= <-]. rewrite (Hframe id1 Hnew). simpl. by rewrite lookup_insert_eq.
    + by apply Hstored.
Qed.

Lemma MemoryMailStore_CreateBatchMails_loop_eq
    (s : MemoryMailStore) (h : Heap) (batch : list (option positive)) (now : nat → Z) :
  MemoryMailStore_CreateBatchMails s h batch now
  = MemoryMailStore_CreateBatchMails_loop batch now 0 s h [].
Proof.
  unfold MemoryMailStore_CreateBatchMails. case_bool_decide as Hlen; [|done].
  by destruct batch.
Qed.

Lemma fresh_addresses_NoDup (n : nat) : NoDup (fresh_addresses n).
Proof.
  unfold fresh_addresses. apply NoDup_fmap_2; [|apply NoDup_seq].
  intros i j. apply SuccNat2Pos.inj.
Qed.

Lemma fresh_addresses_length (n : nat) : length (fresh_addresses n) = n.
Proof. unfold fresh_addresses. by rewrite length_fmap, length_seq. Qed.

Lemma lookup_fresh_heap (addresses : list positive) (mails_ : list Mail)
    (i : nat) (p : positive) (m : Mail) :
  NoDup addresses → length addresses = length mails_ →
  addresses !! i = Some p → mails_ !! i = Some m →
  (list_to_map (zip addresses mails_) : Heap) !! p = Some m.
Proof.
  intros Hfresh Hlen Hp Hm. apply elem_of_list_to_map_1.
  - rewrite fst_zip by lia. done.
  - apply (list_elem_of_lookup_2 _ i). rewrite lookup_zip_with, Hp. simpl. by rewrite Hm.
Qed.

(** X21.  [SendBatchMail] on the in-memory store, for a list of recipients
    whose length is an [int].  The call succeeds; there is one id for each
    recipient id that is not empty, in their order, and the ids differ from
    each other.  Under the [i]-th id the store then holds a mail to the
    [i]-th such recipient with sender, title, content, expiry, tags and
    attachments of the template, unread, created when the template was, or
    at the reading of the clock if the template had no creation time.  No
    other key of the store is touched.  The template itself is prepared for
    sending, unless there was no recipient at all. *)
Theorem SendBatchMail_correct
    (s : MemoryMailStore) (m : Mail) (recipientIDs : list string)
    (now : Time) (clock : nat → Z) :
  Z.of_nat (length recipientIDs) ≤ GoInt.max_int →
  SendBatchMail s None recipientIDs now clock = (Err ErrMailNil, s, None)
  ∧ ∃ ids s',
      SendBatchMail s (Some m) recipientIDs now clock
      = (Ok ids, s',
         Some (if decide (recipientIDs = []) then m else prepareMailForSending m now))
      ∧ length ids = length (filter (λ r, r ≠ EmptyString) recipientIDs)
      ∧ NoDup ids
      ∧ Forall (λ id, id ≠ EmptyString) ids
      ∧ (∀ i id r,
           ids !! i = Some id →
           filter (λ r, r ≠ EmptyString) recipientIDs !! i = Some r →
           MemoryMailStore_GetMail s' id
           = Ok (mkMail id (SenderID m) r (Title m) (Content m)
                   (Some (default ∅ (Attachments m))) false
                   (if decide (CreateTime m = 0) then now else CreateTime m)
                   (ExpireTime m) (Some (elems (Tags m)))))
      ∧ (∀ k, k ∉ ids → mails s' !! k = mails s !! k).
Proof.
  intros Hint. split; [done|]. unfold SendBatchMail.
  case_bool_decide as Hnone.
  { destruct recipientIDs; [|done]. exists [], s. rewrite decide_True by done.
    split; [done|]. split; [done|]. split; [constructor|]. split; [constructor|].
    split; [by intros i id r ?|done]. }
  rewrite decide_False by (by intros ->).
  set (recipients := filter (λ r, r ≠ EmptyString) recipientIDs).
  set (prepared := prepareMailForSending m now).
  set (mails_ := recipientMail prepared <$> recipients).
  set (addresses := fresh_addresses (length mails_)).
  assert (length addresses = length mails_) as Hlen by apply fresh_addresses_length.
  assert (NoDup addresses) as Hfresh by apply fresh_addresses_NoDup.
  change (CreateBatchMails s ?h ?batch clock)
    with (MemoryMailStore_CreateBatchMails s h batch clock).
  rewrite MemoryMailStore_CreateBatchMails_loop_eq.
  destruct (MemoryMailStore_CreateBatchMails_loop_fresh mails_ addresses clock 0 s
              (list_to_map (zip addresses mails_)) [])
    as (ids & s' & h' & -> & Hcount & Hnames & Hframe & Hstored); [done..| | |].
  { unfold mails_. apply Forall_fmap, Forall_forall. by intros r _. }
  { intros i p mi. by apply lookup_fresh_heap. }
  assert (length recipients ≤ length recipientIDs)%nat as Hshort by apply length_filter.
  assert (NoDup ids) as Hnodup.
  { apply NoDup_alt. intros i j id Hi Hj.
    assert (i < length ids ∧ j < length ids)%nat as [Hi' Hj']
      by (split; by eapply lookup_lt_Some).
    rewrite Hcount in Hi', Hj'. unfold mails_ in Hi', Hj'. rewrite length_fmap in Hi', Hj'.
    rewrite (Hnames i id Hi) in Hj. apply Hnames in Hj.
    apply generated_id_inv in Hj as [_ Hcounter].
    unfold GoInt.max_int in Hint.
    destruct (decide (i ≤ j)%nat).
    + symmetry in Hcounter. apply wrap_inj in Hcounter; lia.
    + apply wrap_inj in Hcounter; lia. }
  exists ids, s'. split; [done|]. split; [by rewrite Hcount; unfold mails_; rewrite length_fmap|].
  split; [done|]. split; [|split; [|done]].
  - apply Forall_forall. intros id [i Hi]%list_elem_of_lookup.
    rewrite (Hnames i id Hi). apply generated_not_empty.
  - intros i id r Hi Hr. unfold MemoryMailStore_GetMail.
    rewrite (Hstored Hnodup i id (recipientMail prepared r) Hi)
      by (unfold mails_; by rewrite list_lookup_fmap, Hr).
    rewrite copyMail_id. f_equal.
    unfold recipientMail, set_ID. simpl. unfold IsZero. f_equal.
    + destruct (Attachments m); simpl; by rewrite map_fold_insert_id.
    + by destruct (Z.eqb_spec (CreateTime m) 0), (decide (CreateTime m = 0)).
    + by destruct (Tags m).
Qed.

(** ** An invariant of the in-memory store *)

Lemma keys_are_IDs_insert (s : MemoryMailStore) (mail : Mail) (g : SimpleIDGenerator) :
  keys_are_IDs s → ID mail ≠ EmptyString →
  keys_are_IDs (mkMemoryMailStore (<[ID mail := copyMail mail]> (mails s)) g).
Proof.
  intros Hs Hid id stored. simpl. rewrite copyMail_id.
  intros [[<- <-]|[_ Hstored]]%lookup_insert_Some; [done|]. by apply Hs.
Qed.

Lemma keys_are_IDs_subseteq (s s' : MemoryMailStore) :
  mails s' ⊆ mails s → keys_are_IDs s → keys_are_IDs s'.
Proof. intros Hsub Hs id stored Hstored. apply Hs. by eapply lookup_weaken. Qed.

Lemma delete_all_subseteq (toDelete : list string) (m : gmap string Mail) :
  delete_all toDelete m ⊆ m.
Proof.
  unfold delete_all. revert m. induction toDelete as [|id rest IH]; intros m; [done|].
  simpl. etrans; [apply IH | apply delete_subseteq].
Qed.

Lemma CreateMail_keys_are_IDs s mail unixNano :
  keys_are_IDs s → keys_are_IDs (MemoryMailStore_CreateMail s mail unixNano).1.2.
Proof.
  intros Hs. unfold MemoryMailStore_CreateMail. destruct mail as [m|]; [|done].
  destruct (String.eqb_spec (ID m) EmptyString) as [Hid|Hid].
  - unfold GenerateID. simpl.
    apply (keys_are_IDs_insert s (set_ID _ m)); [done | apply generated_not_empty].
  - simpl. by apply keys_are_IDs_insert.
Qed.

Lemma UpdateMail_keys_are_IDs s mail :
  keys_are_IDs s → keys_are_IDs (MemoryMailStore_UpdateMail s mail).2.
Proof.
  intros Hs. unfold MemoryMailStore_UpdateMail. destruct mail as [m|]; [|done].
  destruct (String.eqb_spec (ID m) EmptyString) as [Hid|Hid]; [done|].
  destruct (mails s !! ID m); [|done]. simpl. by apply keys_are_IDs_insert.
Qed.

Lemma CreateBatchMails_loop_keys_are_IDs batch now n s h ids :
  keys_are_IDs s →
  keys_are_IDs (MemoryMailStore_CreateBatchMails_loop batch now n s h ids).1.2.
Proof.
  revert n s h ids. induction batch as [|[p|] rest IH]; intros n s h ids Hs; [done| |].
  - cbn [MemoryMailStore_CreateBatchMails_loop].
    destruct (h !! p) as [m|]; [|done].
    destruct (String.eqb_spec (ID m) EmptyString) as [Hid|Hid].
    + unfold GenerateID. apply IH.
      apply (keys_are_IDs_insert s (set_ID _ m)); [done | apply generated_not_empty].
    + apply IH. by apply keys_are_IDs_insert.
  - by apply IH.
Qed.

(** X22.  In the in-memory store every mail is kept under its own id, and
    never under the empty id: this holds of the new store, and every
    operation that writes keeps it, whatever its arguments and whether it
    succeeds or not.  So the mail [GetMail] returns for an id carries that
    id. *)
Theorem keys_are_IDs_invariant :
  keys_are_IDs NewMemoryMailStore
  ∧ ∀ s : MemoryMailStore,
      keys_are_IDs s →
      (∀ mail unixNano, keys_are_IDs (MemoryMailStore_CreateMail s mail unixNano).1.2)
      ∧ (∀ mail, keys_are_IDs (MemoryMailStore_UpdateMail s mail).2)
      ∧ (∀ id, keys_are_IDs (MemoryMailStore_DeleteMail s id).2)
      ∧ (∀ h batch now, keys_are_IDs (MemoryMailStore_CreateBatchMails s h batch now).1.2)
      ∧ (∀ r, keys_are_IDs (MemoryMailStore_DeleteMailsByRecipient s r).2)
      ∧ (∀ t, keys_are_IDs (MemoryMailStore_DeleteExpiredMails s t).2)
      ∧ (∀ id mail, MemoryMailStore_GetMail s id = Ok mail →
                    ID mail = id ∧ id ≠ EmptyString).
Proof.
  split; [by intros id mail ?|]. intros s Hs.
  split; [intros; by apply CreateMail_keys_are_IDs|].
  split; [intros; by apply UpdateMail_keys_are_IDs|].
  split; [|split; [|split; [|split]]].
  - intros id. unfold MemoryMailStore_DeleteMail. destruct (mails s !! id); [|done].
    eapply keys_are_IDs_subseteq; [|done]. apply delete_subseteq.
  - intros h batch now. unfold MemoryMailStore_CreateBatchMails.
    case_bool_decide; [done|]. by apply CreateBatchMails_loop_keys_are_IDs.
  - intros r. unfold MemoryMailStore_DeleteMailsByRecipient.
    destruct (String.eqb r EmptyString); [done|].
    eapply keys_are_IDs_subseteq; [|done]. apply delete_all_subseteq.
  - intros t. unfold MemoryMailStore_DeleteExpiredMails.
    eapply keys_are_IDs_subseteq; [|done]. apply delete_all_subseteq.
  - intros id mail. unfold MemoryMailStore_GetMail.
    destruct (mails s !! id) as [stored|] eqn:Hstored; [|done].
    rewrite copyMail_id. intros [= <-]. by apply Hs.
Qed.

(** ** Counting *)

Lemma filter_fmap {A B} (f : A → B) (P : B → Prop) `{!∀ y, Decision (P y)} (l : list A) :
  filter P (f <$> l) = f <$> filter (λ x, P (f x)) l.
Proof.
  induction l as [|x l IH]; [done|]. rewrite fmap_cons, !filter_cons.
  destruct (decide (P (f x))); by rewrite IH.
Qed.

(** Replacing the mail stored under an id moves a count of stored mails
    by what the old and the new mail contribute to it. *)
Lemma count_insert (P : Mail → Prop) `{!∀ mail, Decision (P mail)}
    (m : gmap string Mail) (id : string) (old new : Mail) :
  m !! id = Some old →
  (length (filter P (map_to_list (<[id := new]> m)).*2) + (if decide (P old) then 1 else 0)
   = length (filter P (map_to_list m).*2) + (if decide (P new) then 1 else 0))%nat.
Proof.
  intros Hold.
  assert (map_to_list (<[id := new]> m) ≡ₚ (id, new) :: map_to_list (delete id m)) as ->.
  { rewrite <-insert_delete_eq. apply map_to_list_insert, lookup_delete_eq. }
  assert (map_to_list m ≡ₚ (id, old) :: map_to_list (delete id m)) as Hm
    by (symmetry; by apply map_to_list_delete).
  rewrite Hm. rewrite !fmap_cons, !filter_cons. simpl.
  destruct (decide (P old)), (decide (P new)); simpl; lia.
Qed.

(** X23.  [MarkAsRead] on the in-memory store, for an unread mail stored
    under its id: the call succeeds, the mail is then read back as read and
    otherwise unchanged, no other mail is touched, and the count of unread
    mails goes down by one for the recipient of the mail and stays as it was
    for every other recipient. *)
Theorem MarkAsRead_CountUnreadMails (s : MemoryMailStore) (id : string) (mail : Mail) :
  keys_are_IDs s →
  mails s !! id = Some mail →
  ReadStatus mail = false →
  ∃ s', MarkAsRead s id = (Ok (), s')
        ∧ MemoryMailStore_GetMail s' id = Ok (set_ReadStatus true mail)
        ∧ (∀ k, k ≠ id → mails s' !! k = mails s !! k)
        ∧ ∀ r n, MemoryMailStore_CountUnreadMails s r = Ok n →
                 MemoryMailStore_CountUnreadMails s' r
                 = Ok (if String.eqb (RecipientID mail) r then n - 1 else n).
Proof.
  intros Hs Hstored Hunread. destruct (Hs id mail Hstored) as [HID Hid].
  unfold MarkAsRead. rewrite (eqb_empty_false _ Hid).
  change (GetMail s id) with (MemoryMailStore_GetMail s id).
  unfold MemoryMailStore_GetMail. rewrite Hstored, copyMail_id, Hunread.
  change (UpdateMail s ?m) with (MemoryMailStore_UpdateMail s m).
  unfold MemoryMailStore_UpdateMail. cbn [ID set_ReadStatus].
  rewrite HID, (eqb_empty_false _ Hid), Hstored, copyMail_id.
  eexists. split; [done|]. cbn [mails]. split; [|split].
  - by rewrite lookup_insert_eq, copyMail_id.
  - intros k Hk. by rewrite lookup_insert_ne.
  - intros r n. unfold MemoryMailStore_CountUnreadMails, range_mails. cbn [mails].
    intros [= <-]. f_equal.
    pose proof (count_insert
                  (λ mail, String.eqb (RecipientID mail) r && negb (ReadStatus mail) = true)
                  (mails s) id mail (set_ReadStatus true mail) Hstored) as Hcount.
    simpl in Hcount. rewrite Hunread in Hcount.
    destruct (String.eqb (RecipientID mail) r); simpl in Hcount; lia.
Qed.

Lemma GormMailStore_where_expired_filter (row : MailEntity) (t : Time) :
  GormMailStore_where (Some expired_filter) t row
  = negb (eExpireTime row =? GoTime.zero) && (eExpireTime row <? t).
Proof.
  unfold GormMailStore_where, expired_filter. simpl.
  by destruct (eExpireTime row =? GoTime.zero), (eExpireTime row <? t).
Qed.

(** X24.  The number [DeleteExpiredMails] returns for a time is the total
    that [QueryMails] reports, at that time, for the filter that asks for
    expired mails only: in both stores, the mails an expiry run removes are
    the mails such a query counts. *)
Theorem DeleteExpiredMails_QueryMails
    (t page size : Z) (page_mails : list Mail) (total : Z) :
  (∀ s : MemoryMailStore,
     MemoryMailStore_QueryMails s (Some expired_filter) page size t = Ok (page_mails, total) →
     (MemoryMailStore_DeleteExpiredMails s t).1 = Ok total)
  ∧ (∀ s : GormMailStore,
       GormMailStore_QueryMails s (Some expired_filter) page size t = Ok (page_mails, total) →
       (GormMailStore_DeleteExpiredMails s t).1 = Ok total).
Proof.
  split; intros s Hquery.
  - unfold MemoryMailStore_QueryMails in Hquery. apply paginate_total in Hquery as ->.
    rewrite MemoryMailStore_matchedMails_length.
    unfold MemoryMailStore_DeleteExpiredMails, range_mails. simpl. do 2 f_equal.
    rewrite filter_fmap, !length_fmap. f_equal.
    apply list_filter_iff. intros [k mail]. cbn [snd]. unfold expired_before.
    by destruct (IsZero (ExpireTime mail)), (Before (ExpireTime mail) t).
  - unfold GormMailStore_DeleteExpiredMails, delete_where. simpl. f_equal.
    rewrite <-length_selected.
    assert (Z.of_nat (length (filter (λ row, GormMailStore_where (Some expired_filter) t row
                                             = true) (table_rows s)))
            = Z.of_nat (length (filter
                 (λ kv : string * MailEntity,
                    negb (eExpireTime kv.2 =? GoTime.zero) && (eExpireTime kv.2 <? t) = true)
                 (map_to_list (db s))))) as Hsame.
    { unfold table_rows. rewrite filter_fmap, length_fmap. do 2 f_equal.
      apply list_filter_iff. intros [k row]. cbn [snd].
      by rewrite GormMailStore_where_expired_filter. }
    unfold GormMailStore_QueryMails in Hquery. rewrite Hsame in Hquery.
    destruct (Z.eqb_spec (Z.of_nat (length (filter
                (λ kv : string * MailEntity,
                   negb (eExpireTime kv.2 =? GoTime.zero) && (eExpireTime kv.2 <? t) = true)
                (map_to_list (db s))))) 0) as [Hzero|Hpos].
    + injection Hquery as _ <-. by rewrite Hzero.
    + destruct (entitiesToMails _); [|done..]. by injection Hquery as _ <-.
Qed.

(** ** The manager: marking all mails of a recipient *)

Lemma set_ReadStatus_true_same (mail : Mail) :
  ReadStatus mail = true → set_ReadStatus true mail = mail.
Proof. destruct mail. simpl. by intros ->. Qed.

Lemma mark_ids_fields (ids : list string) (mail : Mail) :
  ID (mark_ids ids mail) = ID mail
  ∧ RecipientID (mark_ids ids mail) = RecipientID mail
  ∧ CreateTime (mark_ids ids mail) = CreateTime mail.
Proof. unfold mark_ids. by case_bool_decide. Qed.

Lemma range_mails_fmap (f : Mail → Mail) (m : gmap string Mail) (g : SimpleIDGenerator) :
  range_mails (mkMemoryMailStore (f <$> m) g) = f <$> (map_to_list m).*2.
Proof.
  unfold range_mails. cbn [mails]. rewrite map_to_list_fmap, <-!list_fmap_compose.
  apply list_fmap_ext. by intros i [k mail] _.
Qed.

Lemma sorted_by_CreateTime_unique (l1 l2 : list Mail) :
  NoDup (CreateTime <$> l1) → Sorted newest_first l1 → Sorted newest_first l2 →
  l1 ≡ₚ l2 → l1 = l2.
Proof.
  intros Hdistinct Hsorted1 Hsorted2 Hperm.
  apply (@Sorted_unique_strong _ newest_first newest_first_trans); [|done..].
  intros x1 x2 Hx1 Hx2 H12 H21. rewrite <-Hperm in Hx2.
  apply (NoDup_fmap_eq CreateTime l1); [done..|].
  unfold newest_first, After in H12, H21.
  destruct (Z.ltb_spec (CreateTime x1) (CreateTime x2)),
           (Z.ltb_spec (CreateTime x2) (CreateTime x1)); try done; lia.
Qed.

(** Marking some mails read does not move any mail in the listing of a
    recipient, when the creation times of the listed mails differ. *)
Lemma recipient_mails_marked
    (s : MemoryMailStore) (g : SimpleIDGenerator) (r : string) (ids : list string) :
  NoDup (CreateTime <$> filter (λ mail, String.eqb (RecipientID mail) r = true)
                          (range_mails s)) →
  recipient_mails (mkMemoryMailStore (mark_ids ids <$> mails s) g) r
  = mark_ids ids <$> recipient_mails s r.
Proof.
  intros Hdistinct. unfold recipient_mails.
  rewrite range_mails_fmap, !copyMail_fmap. fold (range_mails s).
  set (selected := filter (λ mail, String.eqb (RecipientID mail) r = true) (range_mails s))
    in *.
  assert (filter (λ mail, String.eqb (RecipientID mail) r = true)
            (mark_ids ids <$> range_mails s) = mark_ids ids <$> selected) as ->.
  { rewrite filter_fmap. f_equal. apply list_filter_iff. intros mail.
    by destruct (mark_ids_fields ids mail) as (_ & -> & _). }
  assert (CreateTime <$> (mark_ids ids <$> selected) = CreateTime <$> selected) as Htimes.
  { rewrite <-list_fmap_compose. apply list_fmap_ext. intros i mail _. simpl.
    by destruct (mark_ids_fields ids mail) as (_ & _ & ->). }
  symmetry. apply sorted_by_CreateTime_unique.
  - rewrite <-list_fmap_compose.
    assert (CreateTime ∘ mark_ids ids <$> sort_newest_first selected
            = CreateTime <$> sort_newest_first selected) as ->.
    { apply list_fmap_ext. intros i mail _. simpl.
      by destruct (mark_ids_fields ids mail) as (_ & _ & ->). }
    by rewrite sort_newest_first_Permutation.
  - eapply Sorted_fmap; [|apply Sorted_sort_newest_first].
    intros x y. unfold newest_first.
    destruct (mark_ids_fields ids x) as (_ & _ & ->).
    by destruct (mark_ids_fields ids y) as (_ & _ & ->).
  - apply Sorted_sort_newest_first.
  - by rewrite !sort_newest_first_Permutation.
Qed.

Lemma MemoryMailStore_GetMailsByRecipient_page
    (s : MemoryMailStore) (r : string) (page : Z) :
  1 ≤ page → (page - 1) * 100 + 100 ≤ GoInt.max_int →
  MemoryMailStore_GetMailsByRecipient s r page 100
  = Ok (take 100 (drop (Z.to_nat ((page - 1) * 100)) (recipient_mails s r)),
        Z.of_nat (length (recipient_mails s r))).
Proof.
  intros Hpage Hfit. unfold MemoryMailStore_GetMailsByRecipient.
  assert (default_page page = page) as ->
    by (unfold default_page; destruct (Z.leb_spec page 0); lia).
  change (default_size 100) with 100.
  by rewrite paginate_in_range.
Qed.

Lemma keys_are_IDs_range (s : MemoryMailStore) :
  keys_are_IDs s →
  NoDup (ID <$> range_mails s)
  ∧ ∀ mail, mail ∈ range_mails s →
            mails s !! ID mail = Some mail ∧ ID mail ≠ EmptyString.
Proof.
  intros Hs. split.
  - assert (ID <$> range_mails s = (map_to_list (mails s)).*1) as ->;
      [|apply NoDup_fst_map_to_list].
    unfold range_mails. rewrite <-list_fmap_compose. apply list_fmap_ext.
    intros i [k mail] Hi. simpl.
    apply list_elem_of_lookup_2, elem_of_map_to_list in Hi. by apply Hs.
  - intros mail [[k stored] [-> Hin]]%list_elem_of_fmap. simpl.
    apply elem_of_map_to_list in Hin. destruct (Hs k stored Hin) as [-> Hk]. done.
Qed.

Lemma recipient_mails_spec (s : MemoryMailStore) (r : string) :
  keys_are_IDs s →
  NoDup (ID <$> recipient_mails s r)
  ∧ ∀ mail, mail ∈ recipient_mails s r ↔ mail ∈ range_mails s ∧ RecipientID mail = r.
Proof.
  intros Hs. destruct (keys_are_IDs_range s Hs) as [Hnodup _].
  unfold recipient_mails. rewrite copyMail_fmap. split.
  - rewrite sort_newest_first_Permutation.
    eapply sublist_NoDup; [done|]. apply fmap_sublist, sublist_filter.
  - intros mail. rewrite sort_newest_first_Permutation, list_elem_of_filter. split.
    + intros [Heq Hin]. split; [done | by apply String.eqb_eq].
    + intros [Hin <-]. split; [apply String.eqb_refl | done].
Qed.

Lemma mark_ids_snoc_read (s : MemoryMailStore) (ids : list string) (x : Mail) :
  keys_are_IDs s → mails s !! ID x = Some x → ReadStatus x = true →
  mark_ids (ids ++ [ID x]) <$> mails s = mark_ids ids <$> mails s.
Proof.
  intros Hs Hx Hread. apply map_fmap_ext. intros k stored Hstored.
  destruct (Hs k stored Hstored) as [<- _]. unfold mark_ids.
  destruct (decide (ID stored = ID x)) as [Heq|Hne].
  - rewrite Heq in Hstored. assert (stored = x) as -> by congruence.
    rewrite set_ReadStatus_true_same by done. by repeat case_bool_decide.
  - assert (ID stored ∈ ids ++ [ID x] ↔ ID stored ∈ ids) as Hiff.
    { rewrite elem_of_app, list_elem_of_singleton. tauto. }
    repeat case_bool_decide; tauto.
Qed.

Lemma mark_ids_snoc_insert (s : MemoryMailStore) (ids : list string) (x : Mail) :
  keys_are_IDs s → mails s !! ID x = Some x →
  <[ID x := set_ReadStatus true x]> (mark_ids ids <$> mails s)
  = mark_ids (ids ++ [ID x]) <$> mails s.
Proof.
  intros Hs Hx. apply map_eq. intros k. destruct (decide (k = ID x)) as [->|Hne].
  - rewrite lookup_insert_eq, lookup_fmap, Hx. simpl. unfold mark_ids.
    rewrite bool_decide_eq_true_2; [done|]. apply elem_of_app. right. left.
  - rewrite lookup_insert_ne, !lookup_fmap by done.
    destruct (mails s !! k) as [stored|] eqn:Hstored; [|done]. simpl. f_equal.
    destruct (Hs k stored Hstored) as [<- _]. unfold mark_ids.
    assert (ID stored ∈ ids ++ [ID x] ↔ ID stored ∈ ids) as Hiff.
    { rewrite elem_of_app, list_elem_of_singleton. tauto. }
    repeat case_bool_decide; tauto.
Qed.

(** The inner loop of [MarkAllAsRead] on a page of stored mails: every
    write succeeds, and afterwards the mails of the page are marked too. *)
Lemma markEach_marked (s : MemoryMailStore) (ids : list string) (page_mails : list Mail) :
  keys_are_IDs s →
  Forall (λ x, x ∈ range_mails s) page_mails →
  markEach (mkMemoryMailStore (mark_ids ids <$> mails s) (idGen s)) page_mails
  = (Ok (), mkMemoryMailStore (mark_ids (ids ++ (ID <$> page_mails)) <$> mails s) (idGen s)).
Proof.
  intros Hs. revert ids. induction page_mails as [|x rest IH]; intros ids Hstored.
  { simpl. by rewrite app_nil_r. }
  apply Forall_cons in Hstored as [Hx Hrest].
  destruct (keys_are_IDs_range s Hs) as [_ Hrange].
  destruct (Hrange x Hx) as [Hlookup Hid].
  rewrite fmap_cons, (cons_middle (ID x)), app_assoc.
  cbn [markEach]. destruct (ReadStatus x) eqn:Hread.
  - rewrite <-(mark_ids_snoc_read s ids x) by done. by apply IH.
  - change (UpdateMail ?store ?m) with (MemoryMailStore_UpdateMail store m).
    unfold MemoryMailStore_UpdateMail. cbn [ID set_ReadStatus mails idGen].
    rewrite (eqb_empty_false _ Hid), lookup_fmap, Hlookup. simpl.
    rewrite copyMail_id.
    change (mkMail (ID x) (SenderID x) (RecipientID x) (Title x) (Content x)
              (Attachments x) true (CreateTime x) (ExpireTime x) (Tags x))
      with (set_ReadStatus true x).
    rewrite mark_ids_snoc_insert by done. by apply IH.
Qed.

Lemma recipient_mails_length (s : MemoryMailStore) (r : string) :
  (length (recipient_mails s r) ≤ size (mails s))%nat.
Proof.
  unfold recipient_mails, range_mails.
  rewrite sort_newest_first_Permutation, length_fmap.
  etrans; [apply length_filter|]. by rewrite length_fmap, length_map_to_list.
Qed.

Lemma drop_unmarked (l : list Mail) (a : nat) :
  NoDup (ID <$> l) → mark_ids (ID <$> take a l) <$> drop a l = drop a l.
Proof.
  intros Hnodup. rewrite <-(take_drop a l), fmap_app in Hnodup at 1.
  apply NoDup_app in Hnodup as (_ & Hdisjoint & _).
  rewrite <-(list_fmap_id (drop a l)) at 2. apply list_fmap_ext.
  intros i x Hx%list_elem_of_lookup_2. unfold mark_ids.
  rewrite bool_decide_eq_false_2; [done|].
  intros Hin. apply (Hdisjoint (ID x) Hin). by apply list_elem_of_fmap_2.
Qed.

(** The outer loop of [MarkAllAsRead] from its [k]-th turn on, when the
    first [100 * k] mails of the recipient are marked: with fuel for the
    pages that are left it ends, and all the mails of the recipient are
    marked. *)
Lemma MarkAllAsRead_loop_marked (s : MemoryMailStore) (r : string) (fuel k : nat) :
  keys_are_IDs s →
  NoDup (CreateTime <$> filter (λ mail, String.eqb (RecipientID mail) r = true)
                          (range_mails s)) →
  Z.of_nat (size (mails s)) + 100 ≤ GoInt.max_int →
  (100 * k ≤ length (recipient_mails s r))%nat →
  (length (recipient_mails s r) < 100 * k + 100 * fuel)%nat →
  MarkAllAsRead_loop fuel
    (mkMemoryMailStore
       (mark_ids (ID <$> take (100 * k) (recipient_mails s r)) <$> mails s) (idGen s))
    r (Z.of_nat k + 1) (Z.of_nat (100 * k))
  = Some (Ok (), mkMemoryMailStore
                   (mark_ids (ID <$> recipient_mails s r) <$> mails s) (idGen s)).
Proof.
  intros Hs Hdistinct Hint. revert k.
  pose proof (recipient_mails_length s r) as Hlength.
  destruct (recipient_mails_spec s r Hs) as [Hnodup Hlisted].
  set (L := recipient_mails s r) in *. unfold GoInt.max_int in Hint.
  induction fuel as [|fuel IH]; intros k Hdone Hfuel; [lia|].
  cbn [MarkAllAsRead_loop].
  change (GetMailsByRecipient ?store r ?page 100)
    with (MemoryMailStore_GetMailsByRecipient store r page 100).
  rewrite MemoryMailStore_GetMailsByRecipient_page
    by (unfold GoInt.max_int; lia).
  rewrite recipient_mails_marked by done. fold L.
  replace (Z.to_nat ((Z.of_nat k + 1 - 1) * 100)) with (100 * k)%nat by lia.
  rewrite <-fmap_drop, <-fmap_take, length_fmap.
  assert (mark_ids (ID <$> take (100 * k) L) <$> take 100 (drop (100 * k) L)
          = take 100 (drop (100 * k) L)) as ->.
  { rewrite fmap_take. by rewrite drop_unmarked. }
  set (page_mails := take 100 (drop (100 * k) L)).
  assert (length page_mails = (100 `min` (length L - 100 * k))%nat) as Hpage
    by (unfold page_mails; by rewrite length_take, length_drop).
  case_bool_decide as Hempty.
  { assert (take (100 * k) L = L) as -> by (apply take_ge; lia). done. }
  rewrite markEach_marked; [|done|].
  2: { apply Forall_forall. intros x Hx. apply Hlisted.
       unfold page_mails in Hx. apply elem_of_take in Hx as (i & Hx & _).
       apply list_elem_of_lookup_2 in Hx. eapply sublist_subseteq in Hx; [done|].
       apply sublist_drop. }
  assert ((ID <$> take (100 * k) L) ++ (ID <$> page_mails)
          = ID <$> take (100 * k + 100) L) as ->
    by (unfold page_mails; by rewrite <-fmap_app, take_take_drop).
  rewrite !length_fmap. unfold GoInt.add.
  rewrite (wrap_in_range (Z.of_nat (100 * k) + Z.of_nat (length page_mails)))
    by (unfold GoInt.in_range, GoInt.min_int, GoInt.max_int; lia).
  destruct (Z.geb_spec (Z.of_nat (100 * k) + Z.of_nat (length page_mails))
              (Z.of_nat (length L))) as [Hall|Hmore].
  { assert (take (100 * k + 100) L = L) as -> by (apply take_ge; lia). done. }
  rewrite (wrap_in_range (Z.of_nat k + 1 + 1))
    by (unfold GoInt.in_range, GoInt.min_int, GoInt.max_int; lia).
  replace (Z.of_nat k + 1 + 1) with (Z.of_nat (S k) + 1) by lia.
  replace (Z.of_nat (100 * k) + Z.of_nat (length page_mails))
    with (Z.of_nat (100 * S k)) by lia.
  replace (100 * k + 100)%nat with (100 * S k)%nat by lia.
  apply IH; lia.
Qed.

Lemma mark_ids_nil (m : gmap string Mail) : mark_ids [] <$> m = m.
Proof.
  rewrite <-(map_fmap_id m) at 2. apply map_fmap_ext. intros k mail _.
  unfold mark_ids. rewrite bool_decide_eq_false_2; [done|]. apply not_elem_of_nil.
Qed.

Lemma mark_ids_recipient_mails (s : MemoryMailStore) (r : string) :
  keys_are_IDs s →
  mark_ids (ID <$> recipient_mails s r) <$> mails s = mark_read_for r <$> mails s.
Proof.
  intros Hs. destruct (recipient_mails_spec s r Hs) as [_ Hlisted].
  destruct (keys_are_IDs_range s Hs) as [_ Hrange].
  apply map_fmap_ext. intros k stored Hstored.
  destruct (Hs k stored Hstored) as [<- _].
  assert (stored ∈ range_mails s) as Hin.
  { unfold range_mails. apply list_elem_of_fmap. exists (ID stored, stored).
    split; [done|]. by apply elem_of_map_to_list. }
  unfold mark_ids, mark_read_for.
  destruct (String.eqb_spec (RecipientID stored) r) as [Hr|Hr].
  - rewrite bool_decide_eq_true_2; [done|].
    apply list_elem_of_fmap_2, Hlisted. by split.
  - rewrite bool_decide_eq_false_2; [done|].
    intros (x & Hid & [Hx Hxr]%Hlisted)%list_elem_of_fmap.
    destruct (Hrange x Hx) as [Hlookup _]. rewrite <-Hid, Hstored in Hlookup.
    congruence.
Qed.

(** X25.  [MarkAllAsRead] on the in-memory store.  An empty recipient id is
    refused.  Otherwise, for a store that keeps its mails under their ids
    and in which no two mails of the recipient share a creation time, the
    loop over the pages ends once it has fuel for one page more than the
    mails fill, without error; afterwards every mail of the recipient is
    read and otherwise as it was, the mails of everyone else are untouched,
    and the recipient has no unread mail. *)
Theorem MarkAllAsRead_correct (s : MemoryMailStore) (r : string) (fuel : nat) :
  MarkAllAsRead fuel s EmptyString = Some (Err ErrRecipientEmpty, s)
  ∧ (r ≠ EmptyString →
     keys_are_IDs s →
     NoDup (CreateTime <$> filter (λ mail, String.eqb (RecipientID mail) r = true)
                             (range_mails s)) →
     Z.of_nat (size (mails s)) + 100 ≤ GoInt.max_int →
     (size (mails s) < 100 * fuel)%nat →
     ∃ s', MarkAllAsRead fuel s r = Some (Ok (), s')
           ∧ mails s' = mark_read_for r <$> mails s
           ∧ idGen s' = idGen s
           ∧ MemoryMailStore_CountUnreadMails s' r = Ok 0).
Proof.
  split; [done|]. intros Hr Hs Hdistinct Hint Hfuel.
  pose proof (recipient_mails_length s r) as Hlength.
  exists (mkMemoryMailStore (mark_read_for r <$> mails s) (idGen s)).
  split; [|split; [done|split; [done|]]].
  - unfold MarkAllAsRead. rewrite (eqb_empty_false _ Hr).
    pose proof (MarkAllAsRead_loop_marked s r fuel 0 Hs Hdistinct Hint) as Hloop.
    rewrite mark_ids_recipient_mails in Hloop by done.
    change (take (100 * 0) (recipient_mails s r)) with (@nil Mail) in Hloop.
    rewrite fmap_nil, mark_ids_nil in Hloop.
    destruct s as [stored g]. apply Hloop; simpl in *; lia.
  - unfold MemoryMailStore_CountUnreadMails. rewrite range_mails_fmap.
    rewrite filter_none; [done|]. apply Forall_fmap, Forall_forall. intros mail _.
    simpl. unfold mark_read_for.
    destruct (String.eqb (RecipientID mail) r) eqn:Hrecipient; simpl.
    + by rewrite Hrecipient.
    + by rewrite Hrecipient.
Qed.

(** ** Batches in the in-memory store *)

Lemma MemoryMailStore_CreateBatchMails_loop_stored
    (batch : list (option positive)) (now : nat → Z) (n : nat)
    (s : MemoryMailStore) (h : Heap) (ids : list string) :
  (∀ p, Some p ∈ batch → is_Some (h !! p)) →
  ∃ new_ids s' h',
    MemoryMailStore_CreateBatchMails_loop batch now n s h ids = (Ok (ids ++ new_ids), s', h')
    ∧ length new_ids = length (omap id batch)
    ∧ (∀ k, k ∉ new_ids → mails s' !! k = mails s !! k)
    ∧ Forall (λ id, ∃ mail, mails s' !! id = Some mail ∧ ID mail = id) new_ids.
Proof.
  revert n s h ids. induction batch as [|[p|] rest IH]; intros n s h ids Halloc.
  - exists [], s, h. rewrite app_nil_r. split; [done|]. split; [done|]. split; [done|].
    constructor.
  - destruct (Halloc p) as [m Hm]; [left|].
    rewrite (MemoryMailStore_CreateBatchMails_loop_cons _ _ _ _ _ _ _ _ Hm).
    set (m1 := if String.eqb (ID m) EmptyString
               then set_ID ("mail_" +:+ pretty (now n) +:+ "_"
                            +:+ pretty (GoInt.add (counter (idGen s)) 1)) m
               else m).
    assert (∃ g n1,
              (if String.eqb (ID m) EmptyString
               then let '(id, g) := GenerateID (idGen s) (now n) in (set_ID id m, g, S n)
               else (m, idGen s, n)) = (m1, g, n1)) as (g & n1 & ->).
    { unfold m1, GenerateID. destruct (String.eqb (ID m) EmptyString); by eexists _, _. }
    destruct (IH n1 (mkMemoryMailStore (<[ID m1 := copyMail m1]> (mails s)) g)
                (<[p := m1]> h) (ids ++ [ID m1]))
      as (new_ids & s' & h' & Hloop & Hcount & Hframe & Hstored).
    { intros q Hq. apply lookup_insert_is_Some'. right. apply Halloc. by right. }
    exists (ID m1 :: new_ids), s', h'. rewrite Hloop, <-app_assoc.
    split; [done|]. split; [simpl; by rewrite Hcount|]. split.
    + intros k [Hne Hk]%not_elem_of_cons. rewrite (Hframe k Hk). simpl.
      by rewrite lookup_insert_ne.
    + constructor; [|done]. destruct (decide (ID m1 ∈ new_ids)) as [Hin|Hnotin].
      * rewrite Forall_forall in Hstored. by apply Hstored.
      * exists m1. rewrite (Hframe _ Hnotin). simpl.
        by rewrite lookup_insert_eq, copyMail_id.
  - destruct (IH n s h ids) as (new_ids & s' & h' & Hloop & Hcount & Hframe & Hstored).
    { intros q Hq. apply Halloc. by right. }
    exists new_ids, s', h'. done.
Qed.

(** X26.  [CreateBatchMails] on the in-memory store never fails: nil entries
    are skipped, there is one id for every other entry, every id returned is
    afterwards the key of a mail that carries it, and the keys that are not
    returned keep what they held.  Unlike the GORM store, it replaces a mail
    that was stored under one of the ids. *)
Theorem MemoryMailStore_CreateBatchMails_stored
    (s : MemoryMailStore) (h : Heap) (batch : list (option positive)) (now : nat → Z) :
  (∀ p, Some p ∈ batch → is_Some (h !! p)) →
  ∃ ids s' h',
    MemoryMailStore_CreateBatchMails s h batch now = (Ok ids, s', h')
    ∧ length ids = length (omap id batch)
    ∧ (∀ k, k ∉ ids → mails s' !! k = mails s !! k)
    ∧ Forall (λ id, ∃ mail, mails s' !! id = Some mail ∧ ID mail = id) ids.
Proof.
  intros Halloc. rewrite MemoryMailStore_CreateBatchMails_loop_eq.
  apply (MemoryMailStore_CreateBatchMails_loop_stored batch now 0 s h [] Halloc).
Qed.

(** ** Filters that ask for nothing *)

(** X27.  A nil filter and a filter with no field set select every mail: in
    both stores [QueryMails] answers them alike, at whatever time, and the
    total is the number of mails stored. *)
Theorem QueryMails_no_filter (page size_ now now' : Z) (page_mails : list Mail) (total : Z) :
  let empty := mkMailFilter EmptyString EmptyString None None None false [] in
  (∀ s : MemoryMailStore,
     MemoryMailStore_QueryMails s (Some empty) page size_ now'
     = MemoryMailStore_QueryMails s None page size_ now
     ∧ (MemoryMailStore_QueryMails s None page size_ now = Ok (page_mails, total) →
        total = Z.of_nat (size (mails s))))
  ∧ (∀ s : GormMailStore,
       GormMailStore_QueryMails s (Some empty) page size_ now'
       = GormMailStore_QueryMails s None page size_ now
       ∧ (GormMailStore_QueryMails s None page size_ now = Ok (page_mails, total) →
          total = Z.of_nat (size (db s)))).
Proof.
  intros empty. split; intros s.
  - assert (filter (λ mail, matchMail mail None now = true) (range_mails s) = range_mails s)
      as Hall by (apply filter_all, Forall_forall; by intros mail _).
    split.
    + unfold MemoryMailStore_QueryMails, MemoryMailStore_matchedMails. do 3 f_equal.
    + unfold MemoryMailStore_QueryMails. intros ->%paginate_total.
      rewrite MemoryMailStore_matchedMails_length, Hall. unfold range_mails.
      by rewrite length_fmap, length_map_to_list.
  - assert (filter (λ row, GormMailStore_where None now row = true) (table_rows s)
            = table_rows s) as Hall by (apply filter_all, Forall_forall; by intros row _).
    assert (length (table_rows s) = size (db s)) as Hsize
      by (unfold table_rows; by rewrite length_fmap, length_map_to_list).
    split; [done|].
    unfold GormMailStore_QueryMails. rewrite Hall, Hsize.
    destruct (Z.eqb_spec (Z.of_nat (size (db s))) 0) as [Hzero|Hpos].
    + intros [= _ <-]. by rewrite Hzero.
    + destruct (entitiesToMails _); [|done..]. by intros [= _ <-].
Qed.

End Coverage.

(** * Closed instances

    The examples below are about mails without attachment values; the
    library interface is instantiated by [no_values]. *)

(** C1.  The two stores answer the same tag query differently.  A mail
    tagged [a], queried with the tags [a] and [b]: the in-memory store
    returns it, because one of the two tags is among its tags, and the GORM
    store does not, because it asks every tag of the filter to occur in the
    stored text.  A mail tagged [ab], queried with the tag [a]: the
    in-memory store does not return it, and the GORM store does, because
    [a] occurs in the text of the tags. *)
Theorem QueryMails_tags_differ :
  let memory m := (MemoryMailStore_CreateMail NewMemoryMailStore (Some m) 0).1.2 in
  let gorm m := (GormMailStore_CreateMail (mkGormMailStore ∅) (Some m) 0).1.2 in
  let tagged_a := example_mail "m1" (Some ["a"]) in
  let tagged_ab := example_mail "m1" (Some ["ab"]) in
  MemoryMailStore_QueryMails (memory tagged_a) (Some (example_filter ["a"; "b"])) 1 10 0
  = Ok ([tagged_a], 1)
  ∧ GormMailStore_QueryMails (gorm tagged_a) (Some (example_filter ["a"; "b"])) 1 10 0
    = Ok ([], 0)
  ∧ MemoryMailStore_QueryMails (memory tagged_ab) (Some (example_filter ["a"])) 1 10 0
    = Ok ([], 0)
  ∧ GormMailStore_QueryMails (gorm tagged_ab) (Some (example_filter ["a"])) 1 10 0
    = Ok ([mkMail "m1" "system" "user1" "Hello" "Welcome" (Some ∅) false 100 0
             (Some ["ab"])], 1).
Proof. repeat split; vm_compute; reflexivity. Qed.

(** C3, as stated, fails on the GORM store: a mail created with nil tags
    is read back with an empty list of tags that is not nil. *)
Lemma GormMailStore_nil_tags_not_kept :
  let m := example_mail "m1" None in
  let s' := (GormMailStore_CreateMail (mkGormMailStore ∅) (Some m) 0).1.2 in
  (GormMailStore_CreateMail (mkGormMailStore ∅) (Some m) 0).1.1 = Ok "m1"
  ∧ Tags m = None
  ∧ ∃ got, GormMailStore_GetMail s' "m1" = Ok got
           ∧ Tags got = Some []
           ∧ got ≠ set_ID "m1" m.
Proof.
  split; [reflexivity|]. split; [reflexivity|].
  eexists. split; [vm_compute; reflexivity|]. split; [reflexivity|]. discriminate.
Qed.

(** The GORM part of [CreateMail_GetMail] at a mail with two tags and no
    id, created in an empty table at clock reading 17. *)
Lemma CreateMail_GetMail_witness :
  let m := example_mail EmptyString (Some ["a"; "b"]) in
  let s := mkGormMailStore ∅ in
  let s' := (GormMailStore_CreateMail s (Some m) 17).1.2 in
  Forall (λ tag, ascii_string tag = true) (elems (Tags m))
  ∧ GormMailStore_CreateMail s (Some m) 17 = (Ok "mail_17", s', Some (set_ID "mail_17" m))
  ∧ ∃ got attachments,
      GormMailStore_GetMail s' "mail_17" = Ok got
      ∧ (ID m ≠ EmptyString → "mail_17" = ID m)
      ∧ ID got = "mail_17"
      ∧ SenderID got = SenderID m
      ∧ RecipientID got = RecipientID m
      ∧ Title got = Title m
      ∧ Content got = Content m
      ∧ ReadStatus got = ReadStatus m
      ∧ CreateTime got = CreateTime m
      ∧ ExpireTime got = ExpireTime m
      ∧ Tags got = Some (elems (Tags m))
      ∧ Attachments got = Some attachments
      ∧ (Attachments m = None → attachments = ∅).
Proof.
  assert (Forall (λ tag, ascii_string tag = true) ["a"; "b"]) as Hascii
    by (repeat constructor).
  split; [exact Hascii|]. split; [reflexivity|].
  exact (proj2 CreateMail_GetMail (mkGormMailStore ∅) _
           (example_mail EmptyString (Some ["a"; "b"])) 17 "mail_17" _ Hascii eq_refl).
Defined.

(** [MarkAsRead_idempotent] at an in-memory store holding one read mail. *)
Lemma MarkAsRead_idempotent_witness :
  let m := mkMail "m1" "system" "user1" "Hello" "Welcome" None true 100 0 None in
  let s := (MemoryMailStore_CreateMail NewMemoryMailStore (Some m) 0).1.2 in
  "m1" ≠ EmptyString
  ∧ GetMail s "m1" = Ok m
  ∧ ReadStatus m = true
  ∧ MarkAsRead s "m1" = (Ok (), s).
Proof.
  intros m s.
  assert ("m1" ≠ EmptyString) as Hid by discriminate.
  assert (GetMail s "m1" = Ok m) as Hget by reflexivity.
  split; [exact Hid|]. split; [exact Hget|]. split; [reflexivity|].
  exact (proj1 MarkAsRead_idempotent MemoryMailStore _ s "m1" m Hid Hget eq_refl).
Defined.

(** [CreateMail_writes_input_ID] at a mail without id, created in a new
    in-memory store at clock reading 17. *)
Lemma CreateMail_writes_input_ID_witness :
  let m := example_mail EmptyString None in
  ID m = EmptyString
  ∧ ∃ id s',
      MemoryMailStore_CreateMail NewMemoryMailStore (Some m) 17
      = (Ok id, s', Some (set_ID id m))
      ∧ id ≠ EmptyString
      ∧ mails s' !! id = Some (set_ID id m).
Proof.
  split; [reflexivity|].
  exact (proj1 CreateMail_writes_input_ID NewMemoryMailStore
           (example_mail EmptyString None) 17 eq_refl).
Defined.

(** C6.  A page number so large that [(page-1)*size] leaves the range of
    a Go [int].  With one mail stored, page [2^62 + 1] of size 4 is far
    beyond the last page, yet the product wraps around to 0 and the call
    returns the stored mail; with size 2 the product wraps to a negative
    number and the slice expression panics. *)
Theorem QueryMails_page_overflow :
  let m := example_mail "m1" None in
  let s := (MemoryMailStore_CreateMail NewMemoryMailStore (Some m) 0).1.2 in
  let page := 2 ^ 62 + 1 in
  GoInt.in_range page
  ∧ 1 ≤ (page - 1) * 4
  ∧ MemoryMailStore_QueryMails s None page 4 0 = Ok ([m], 1)
  ∧ MemoryMailStore_QueryMails s None page 2 0 = Panic.
Proof. repeat split; vm_compute; congruence. Qed.

Lemma example_table_size (n : nat) : size (example_table n) = n.
Proof.
  unfold example_table. rewrite map_size_list_to_map.
  - by rewrite length_fmap, length_seq.
  - rewrite <-list_fmap_compose. apply NoDup_fmap_2; [|apply NoDup_seq].
    intros i j Hij. by apply (inj pretty) in Hij.
Qed.

Lemma example_table_rows (n : nat) :
  map_Forall (λ _ row, is_Ok (entityToMail row) = true) (example_table n).
Proof.
  intros k row Hrow. unfold example_table in Hrow.
  apply elem_of_list_to_map_2, list_elem_of_fmap in Hrow as (i & [= -> ->] & _).
  reflexivity.
Qed.

(** C4.  With 10001 mails in the GORM store and no filter, every mail
    matches, and [ExportMailLogs] hands 10000 of them to the serializer:
    it asks [QueryMails] for a first page of 10000.  The in-memory store
    serializes every match, however many. *)
Theorem ExportMailLogs_capped :
  let s := mkGormMailStore (example_table (Z.to_nat 10001)) in
  Z.of_nat (size (db s)) = 10001
  ∧ (∀ row, GormMailStore_where None 0 row = true)
  ∧ (∃ mails_, GormMailStore_ExportMailLogs_mails s None 0 = Ok mails_
               ∧ Z.of_nat (length mails_) = 10000)
  ∧ (∀ (s : MemoryMailStore) filter_ now,
       length (MemoryMailStore_matchedMails s filter_ now)
       = length (filter (λ mail, matchMail mail filter_ now = true) (range_mails s))).
Proof.
  intros s.
  assert (Z.of_nat (size (db s)) = 10001) as Hsize.
  { unfold s. cbn [db]. rewrite example_table_size. lia. }
  assert (map_Forall (λ _ row, is_Ok (entityToMail row) = true) (db s)) as Hrows
    by apply example_table_rows.
  clearbody s.
  split; [exact Hsize|]. split; [intros row; reflexivity|]. split.
  - destruct (GormMailStore_ExportMailLogs_mails_length s 0 Hrows)
      as (mails_ & Hexport & Hlen).
    exists mails_. split; [exact Hexport|]. rewrite Hlen, Hsize. lia.
  - apply MemoryMailStore_matchedMails_length.
Qed.

(** ** Instances of the further properties *)

Lemma example_store_keys_are_IDs : keys_are_IDs example_store.
Proof.
  intros id mail Hstored. unfold example_store in Hstored. cbn [mails] in Hstored.
  repeat (apply lookup_insert_Some in Hstored as [[<- <-]|[_ Hstored]];
          [split; [reflexivity | discriminate]|]).
  by rewrite lookup_empty in Hstored.
Qed.

(** [MemoryMailStore_UpdateMail_GetMail] at [example_store], with the
    first mail of [user1] marked read. *)
Lemma MemoryMailStore_UpdateMail_GetMail_witness :
  let m := example_mail_at "m1" "user1" 100 true in
  ID m ≠ EmptyString
  ∧ is_Some (mails example_store !! ID m)
  ∧ ∃ s', MemoryMailStore_UpdateMail example_store (Some m) = (Ok (), s')
          ∧ MemoryMailStore_GetMail s' (ID m) = Ok m
          ∧ (∀ k, k ≠ ID m →
               MemoryMailStore_GetMail s' k = MemoryMailStore_GetMail example_store k)
          ∧ idGen s' = idGen example_store.
Proof.
  intros m.
  assert (ID m ≠ EmptyString) as Hid by discriminate.
  assert (is_Some (mails example_store !! ID m)) as Hstored by (vm_compute; eauto).
  split; [exact Hid|]. split; [exact Hstored|].
  exact (proj2 (proj2 (proj2 (MemoryMailStore_UpdateMail_GetMail example_store m)))
           Hid Hstored).
Defined.

(** [DeleteMail_correct] at a mail of [example_store] and at a row of
    [example_gorm_store]. *)
Lemma DeleteMail_correct_witness :
  (is_Some (mails example_store !! "m1")
   ∧ ∃ s', MemoryMailStore_DeleteMail example_store "m1" = (Ok (), s')
           ∧ MemoryMailStore_GetMail s' "m1" = Err (ErrMailNotFound "m1")
           ∧ (∀ k, k ≠ "m1" → mails s' !! k = mails example_store !! k)
           ∧ idGen s' = idGen example_store)
  ∧ ("m1" ≠ EmptyString
     ∧ is_Some (db example_gorm_store !! "m1")
     ∧ ∃ s', GormMailStore_DeleteMail example_gorm_store "m1" = (Ok (), s')
             ∧ GormMailStore_GetMail s' "m1" = Err (ErrMailNotFound "m1")
             ∧ (∀ k, k ≠ "m1" → db s' !! k = db example_gorm_store !! k)).
Proof.
  assert (is_Some (mails example_store !! "m1")) as Hmemory by (vm_compute; eauto).
  assert ("m1" ≠ EmptyString) as Hid by discriminate.
  assert (is_Some (db example_gorm_store !! "m1")) as Hgorm by (vm_compute; eauto).
  split.
  - split; [exact Hmemory|].
    exact (proj2 (proj1 DeleteMail_correct example_store "m1") Hmemory).
  - split; [exact Hid|]. split; [exact Hgorm|].
    exact (proj2 (proj2 (proj2 DeleteMail_correct example_gorm_store "m1")) Hid Hgorm).
Defined.

(** [MemoryMailStore_CreateMail_DeleteMail] at a mail without id, created
    in [example_store] and deleted again. *)
Lemma MemoryMailStore_CreateMail_DeleteMail_witness :
  let m := example_mail_at EmptyString "user3" 400 false in
  ∃ id s' m',
    MemoryMailStore_CreateMail example_store (Some m) 17 = (Ok id, s', Some m')
    ∧ mails example_store !! id = None
    ∧ ∃ s'', MemoryMailStore_DeleteMail s' id = (Ok (), s'')
             ∧ mails s'' = mails example_store.
Proof.
  intros m.
  destruct (MemoryMailStore_CreateMail_DeleteMail example_store m 17)
    as (id & s' & m' & Hcreate & _ & _ & Hdelete).
  assert (mails example_store !! id = None) as Hfree.
  { assert (id = "mail_17_1") as -> by (injection Hcreate as <- _ _; reflexivity).
    reflexivity. }
  exists id, s', m'. split; [exact Hcreate|]. split; [exact Hfree|].
  exact (Hdelete Hfree).
Defined.

(** [DeleteMailsByRecipient_correct] at [user1], in both example stores. *)
Lemma DeleteMailsByRecipient_correct_witness :
  "user1" ≠ EmptyString
  ∧ (∃ s', MemoryMailStore_DeleteMailsByRecipient example_store "user1" = (Ok (), s')
           ∧ (∀ id mail, mails s' !! id = Some mail
                         ↔ mails example_store !! id = Some mail
                           ∧ RecipientID mail ≠ "user1")
           ∧ MemoryMailStore_CountUnreadMails s' "user1" = Ok 0
           ∧ MemoryMailStore_CountMailsWithAttachments s' "user1" = Ok 0)
  ∧ (∃ s', GormMailStore_DeleteMailsByRecipient example_gorm_store "user1" = (Ok (), s')
           ∧ (∀ id row, db s' !! id = Some row
                        ↔ db example_gorm_store !! id = Some row
                          ∧ eRecipientID row ≠ "user1")
           ∧ GormMailStore_CountUnreadMails s' "user1" = Ok 0
           ∧ GormMailStore_CountMailsWithAttachments s' "user1" = Ok 0).
Proof.
  assert ("user1" ≠ EmptyString) as Hr by discriminate.
  split; [exact Hr|]. split.
  - exact (proj2 (proj1 DeleteMailsByRecipient_correct example_store "user1") Hr).
  - exact (proj2 (proj2 DeleteMailsByRecipient_correct example_gorm_store "user1") Hr).
Defined.

(** [DeleteExpiredMails_idempotent] at [example_store], for a deletion at
    time 50 and a later query for expired mails at time 40. *)
Lemma DeleteExpiredMails_idempotent_witness :
  let f := mkMailFilter EmptyString EmptyString None None None true [] in
  let s' := (MemoryMailStore_DeleteExpiredMails example_store 50).2 in
  fExpiredOnly f = true
  ∧ 40 ≤ 50
  ∧ MemoryMailStore_matchedMails s' (Some f) 40 = [].
Proof.
  intros f s'.
  assert (fExpiredOnly f = true) as Hf by reflexivity.
  assert (40 ≤ 50) as Hnow by lia.
  split; [exact Hf|]. split; [exact Hnow|].
  exact (proj2 (proj1 DeleteExpiredMails_idempotent example_store 50) f 40 Hf Hnow).
Defined.

(** [MemoryMailStore_QueryMails_sound] at the first page of two of the
    mails of [user1] in [example_store]. *)
Lemma MemoryMailStore_QueryMails_sound_witness :
  let f := Some (recipient_filter "user1") in
  let page_mails :=
    [example_mail_at "m2" "user1" 200 true; example_mail_at "m1" "user1" 100 false] in
  GoInt.in_range 2
  ∧ MemoryMailStore_QueryMails example_store f 1 2 0 = Ok (page_mails, 2)
  ∧ 2 = Z.of_nat (length (filter (λ mail, matchMail mail f 0 = true)
                            (range_mails example_store)))
  ∧ Z.of_nat (length page_mails) ≤ default_size 2
  ∧ page_mails `sublist_of` MemoryMailStore_matchedMails example_store f 0
  ∧ Sorted newest_first page_mails
  ∧ Forall (λ mail, matchMail mail f 0 = true ∧ mail ∈ range_mails example_store) page_mails.
Proof.
  intros f page_mails.
  assert (GoInt.in_range 2) as Hsize by (vm_compute; split; discriminate).
  assert (MemoryMailStore_QueryMails example_store f 1 2 0 = Ok (page_mails, 2)) as Hquery
    by (vm_compute; reflexivity).
  split; [exact Hsize|]. split; [exact Hquery|].
  exact (MemoryMailStore_QueryMails_sound example_store f 1 2 0 page_mails 2 Hsize Hquery).
Defined.

(** [MemoryMailStore_matchedMails_unique] at [example_store], whose three
    mails were created at three instants. *)
Lemma MemoryMailStore_matchedMails_unique_witness :
  let l := [example_mail_at "m3" "user2" 300 false;
            example_mail_at "m2" "user1" 200 true;
            example_mail_at "m1" "user1" 100 false] in
  NoDup (CreateTime <$> range_mails example_store)
  ∧ Sorted newest_first l
  ∧ l ≡ₚ filter (λ mail, matchMail mail None 0 = true) (range_mails example_store)
  ∧ l = MemoryMailStore_matchedMails example_store None 0.
Proof.
  intros l.
  assert (NoDup (CreateTime <$> range_mails example_store)) as Hdistinct
    by (apply (bool_decide_unpack _); vm_compute; exact I).
  assert (Sorted newest_first l) as Hsorted
    by (repeat (constructor; try reflexivity)).
  assert (l ≡ₚ filter (λ mail, matchMail mail None 0 = true) (range_mails example_store))
    as Hperm.
  { change (filter (λ mail, matchMail mail None 0 = true) (range_mails example_store))
      with [example_mail_at "m3" "user2" 300 false;
            example_mail_at "m1" "user1" 100 false;
            example_mail_at "m2" "user1" 200 true].
    apply Permutation_skip, Permutation_swap. }
  split; [exact Hdistinct|]. split; [exact Hsorted|]. split; [exact Hperm|].
  exact (MemoryMailStore_matchedMails_unique example_store None 0 l Hdistinct Hsorted Hperm).
Defined.


(** [GetMailsByRecipient_QueryMails] at the recipient [user1]. *)
Lemma GetMailsByRecipient_QueryMails_witness :
  "user1" ≠ EmptyString
  ∧ MemoryMailStore_GetMailsByRecipient example_store "user1" 1 10
    = MemoryMailStore_QueryMails example_store (Some (recipient_filter "user1")) 1 10 0
  ∧ GormMailStore_GetMailsByRecipient example_gorm_store "user1" 1 10
    = GormMailStore_QueryMails example_gorm_store (Some (recipient_filter "user1")) 1 10 0.
Proof.
  assert ("user1" ≠ EmptyString) as Hr by discriminate.
  split; [exact Hr|]. split.
  - exact (proj1 (GetMailsByRecipient_QueryMails "user1" 1 10 0 Hr) example_store).
  - exact (proj2 (GetMailsByRecipient_QueryMails "user1" 1 10 0 Hr) example_gorm_store).
Defined.

(** [CountUnreadMails_QueryMails] at [user1] in [example_store], who has
    one unread mail. *)
Lemma CountUnreadMails_QueryMails_witness :
  let page_mails := [example_mail_at "m1" "user1" 100 false] in
  "user1" ≠ EmptyString
  ∧ MemoryMailStore_QueryMails example_store (Some (unread_filter "user1")) 1 10 0
    = Ok (page_mails, 1)
  ∧ MemoryMailStore_CountUnreadMails example_store "user1" = Ok 1.
Proof.
  intros page_mails.
  assert ("user1" ≠ EmptyString) as Hr by discriminate.
  assert (MemoryMailStore_QueryMails example_store (Some (unread_filter "user1")) 1 10 0
          = Ok (page_mails, 1)) as Hquery by (vm_compute; reflexivity).
  split; [exact Hr|]. split; [exact Hquery|].
  exact (proj1 (CountUnreadMails_QueryMails "user1" 1 10 0 page_mails 1 Hr)
           example_store Hquery).
Defined.

(** [GormMailStore_where_matchMail] at a mail tagged [urgent] and [new]
    and a filter for unread mails tagged [urgent]. *)
Lemma GormMailStore_where_matchMail_witness :
  let mail := example_mail "m1" (Some ["urgent"; "new"]) in
  let row := mkMailEntity "m1" "system" "user1" "Hello" "Welcome" "{}" false 100 0
               (GoJSON.Marshal_strings ["urgent"; "new"]) in
  let f := mkMailFilter EmptyString "user1" (Some false) None None false ["urgent"] in
  mailToEntity mail = Ok row
  ∧ Forall (λ tag, tag ∈ elems (Tags mail)
                   ∧ ascii_string tag = true
                   ∧ GoJSON.escape_string tag = tag) (fTags f)
  ∧ GormMailStore_where (Some f) 0 row = matchMail mail (Some f) 0.
Proof.
  intros mail row f.
  assert (mailToEntity mail = Ok row) as Hrow by reflexivity.
  assert (Forall (λ tag, tag ∈ elems (Tags mail)
                         ∧ ascii_string tag = true
                         ∧ GoJSON.escape_string tag = tag) (fTags f)) as Htags.
  { repeat constructor. }
  split; [exact Hrow|]. split; [exact Htags|].
  exact (GormMailStore_where_matchMail mail row f 0 Hrow Htags).
Defined.


(** [CreateMail_taken_ID] at the id [m1], which both example stores hold. *)
Lemma CreateMail_taken_ID_witness :
  let m := example_mail_at "m1" "user2" 500 false in
  ID m ≠ EmptyString
  ∧ is_Some (mails example_store !! ID m)
  ∧ is_Some (db example_gorm_store !! ID m)
  ∧ (∃ s', MemoryMailStore_CreateMail example_store (Some m) 17 = (Ok (ID m), s', Some m)
           ∧ MemoryMailStore_GetMail s' (ID m) = Ok m
           ∧ size (mails s') = size (mails example_store))
  ∧ (∃ e, GormMailStore_CreateMail example_gorm_store (Some m) 17
          = (Err e, example_gorm_store, Some m)
          ∧ (e = ErrCreate ∨ e = ErrMarshalAttachments)).
Proof.
  intros m.
  assert (ID m ≠ EmptyString) as Hid by discriminate.
  assert (is_Some (mails example_store !! ID m)) as Hmemory by (vm_compute; eauto).
  assert (is_Some (db example_gorm_store !! ID m)) as Hgorm by (vm_compute; eauto).
  split; [exact Hid|]. split; [exact Hmemory|]. split; [exact Hgorm|]. split.
  - exact (proj1 CreateMail_taken_ID example_store m 17 Hid Hmemory).
  - exact (proj1 (proj2 CreateMail_taken_ID) example_gorm_store m 17 Hid Hgorm).
Defined.

(** [GormMailStore_QueryMails_sound] at the mails of [user1] in
    [example_gorm_store]. *)
Lemma GormMailStore_QueryMails_sound_witness :
  let f := Some (recipient_filter "user1") in
  let read id created read :=
    mkMail id "system" "user1" "Hello" "Welcome" (Some ∅) read created 0 (Some []) in
  let page_mails := [read "m2" 200 true; read "m1" 100 false] in
  GormMailStore_QueryMails example_gorm_store f 1 10 0 = Ok (page_mails, 2)
  ∧ 2 = Z.of_nat (length (filter (λ row, GormMailStore_where f 0 row = true)
                            (table_rows example_gorm_store)))
  ∧ Z.of_nat (length page_mails) ≤ default_size 10
  ∧ Z.of_nat (length page_mails) ≤ 2
  ∧ Sorted newest_first page_mails
  ∧ Forall (λ mail, ∃ row, row ∈ table_rows example_gorm_store
                           ∧ GormMailStore_where f 0 row = true
                           ∧ entityToMail row = Ok mail) page_mails.
Proof.
  intros f read page_mails.
  assert (GormMailStore_QueryMails example_gorm_store f 1 10 0 = Ok (page_mails, 2))
    as Hquery by (vm_compute; reflexivity).
  split; [exact Hquery|].
  exact (GormMailStore_QueryMails_sound example_gorm_store f 1 10 0 page_mails 2 Hquery).
Defined.

(** [prepareMailForSending_idempotent] at a mail without creation time,
    prepared at time 50 and again at time 60. *)
Lemma prepareMailForSending_idempotent_witness :
  let mail := example_mail_at "m1" "user1" 0 true in
  50 ≠ 0
  ∧ prepareMailForSending (prepareMailForSending mail 50) 60 = prepareMailForSending mail 50.
Proof.
  intros mail.
  assert (50 ≠ 0) as Hnow by lia.
  split; [exact Hnow|].
  exact (prepareMailForSending_idempotent mail 50 60 Hnow).
Defined.

(** [SendMail_GetMail] at a read mail without id or creation time, sent
    through the GORM store at time 50. *)
Lemma SendMail_GetMail_witness :
  let m := example_mail_at EmptyString "user1" 0 true in
  let s := mkGormMailStore ∅ in
  let s' := (SendMail s (Some m) 50 17).1.2 in
  Forall (λ tag, ascii_string tag = true) (elems (Tags m))
  ∧ SendMail s (Some m) 50 17
    = (Ok "mail_17", s', Some (set_ID "mail_17" (prepareMailForSending m 50)))
  ∧ ∃ attachments,
      Some (set_ID "mail_17" (prepareMailForSending m 50))
      = Some (set_ID "mail_17" (prepareMailForSending m 50))
      ∧ (ID m ≠ EmptyString → "mail_17" = ID m)
      ∧ GormMailStore_GetMail s' "mail_17"
        = Ok (mkMail "mail_17" (SenderID m) (RecipientID m) (Title m) (Content m)
                (Some attachments) false
                (if decide (CreateTime m = 0) then 50 else CreateTime m)
                (ExpireTime m) (Some (elems (Tags m)))).
Proof.
  intros m s s'.
  assert (Forall (λ tag, ascii_string tag = true) (elems (Tags m))) as Hascii by constructor.
  assert (SendMail s (Some m) 50 17
          = (Ok "mail_17", s', Some (set_ID "mail_17" (prepareMailForSending m 50))))
    as Hsend by reflexivity.
  split; [exact Hascii|]. split; [exact Hsend|].
  exact (proj2 (proj2 (proj2 (SendMail_GetMail m 50 17))) s s' "mail_17" _ Hascii Hsend).
Defined.

(** [SendSystemAnnouncement_correct] at a mail with an id, sent through a
    new in-memory store. *)
Lemma SendSystemAnnouncement_correct_witness :
  let m := example_mail "news" (Some ["event"]) in
  let f := mkMailFilter EmptyString "all_players" None None None false
             ["system_announcement"] in
  ∃ id s' got,
    SendSystemAnnouncement NewMemoryMailStore (Some m) 50 17 = (Ok id, s', Some got)
    ∧ id = "news"
    ∧ Tags got = Some ["event"; "system_announcement"]
    ∧ matchMail got (Some f) 60 = true.
Proof.
  intros m f.
  destruct (proj2 (SendSystemAnnouncement_correct NewMemoryMailStore m 50 17 60 f))
    as (id & s' & got & Hsend & _ & _ & Hown & _ & _ & _ & _ & _ & Htags & _ & Hmatch).
  exists id, s', got. split; [exact Hsend|].
  split; [apply Hown; discriminate|]. split; [exact Htags|].
  apply Hmatch. reflexivity.
Defined.

(** [GenerateID_injective] at two generators whose counters are equal. *)
Lemma GenerateID_injective_witness :
  let g1 := mkSimpleIDGenerator 7 in
  let g2 := mkSimpleIDGenerator 7 in
  (GenerateID g1 17).1 = (GenerateID g2 17).1
  ∧ 17 = 17
  ∧ (GenerateID g1 17).2 = (GenerateID g2 17).2.
Proof.
  intros g1 g2.
  assert ((GenerateID g1 17).1 = (GenerateID g2 17).1) as Heq by reflexivity.
  split; [exact Heq|].
  exact (proj1 GenerateID_injective g1 g2 17 17 Heq).
Defined.

(** [MemoryMailStore_CreateMail_twice] at two mails without id, created
    in a new store at the same reading of the clock. *)
Lemma MemoryMailStore_CreateMail_twice_witness :
  let m1 := example_mail_at EmptyString "user1" 100 false in
  let m2 := example_mail_at EmptyString "user2" 100 false in
  ID m1 = EmptyString
  ∧ ID m2 = EmptyString
  ∧ ∃ id1 id2 s1 s2,
      MemoryMailStore_CreateMail NewMemoryMailStore (Some m1) 17
      = (Ok id1, s1, Some (set_ID id1 m1))
      ∧ MemoryMailStore_CreateMail s1 (Some m2) 17 = (Ok id2, s2, Some (set_ID id2 m2))
      ∧ id1 ≠ id2
      ∧ MemoryMailStore_GetMail s2 id1 = Ok (set_ID id1 m1)
      ∧ MemoryMailStore_GetMail s2 id2 = Ok (set_ID id2 m2).
Proof.
  intros m1 m2.
  split; [reflexivity|]. split; [reflexivity|].
  exact (MemoryMailStore_CreateMail_twice NewMemoryMailStore m1 m2 17 17 eq_refl eq_refl).
Defined.

(** [SendBatchMail_correct] at three recipient ids, one of them empty,
    sent through a new in-memory store. *)
Lemma SendBatchMail_correct_witness :
  let m := example_mail_at "template" "nobody" 0 true in
  let recipientIDs := ["user1"; EmptyString; "user2"] in
  let clock (i : nat) := 1000 + Z.of_nat i in
  Z.of_nat (length recipientIDs) ≤ GoInt.max_int
  ∧ ∃ ids s',
      SendBatchMail NewMemoryMailStore (Some m) recipientIDs 50 clock
      = (Ok ids, s',
         Some (if decide (recipientIDs = []) then m else prepareMailForSending m 50))
      ∧ length ids = length (filter (λ r, r ≠ EmptyString) recipientIDs)
      ∧ NoDup ids
      ∧ Forall (λ id, id ≠ EmptyString) ids
      ∧ (∀ i id r,
           ids !! i = Some id →
           filter (λ r, r ≠ EmptyString) recipientIDs !! i = Some r →
           MemoryMailStore_GetMail s' id
           = Ok (mkMail id (SenderID m) r (Title m) (Content m)
                   (Some (default ∅ (Attachments m))) false
                   (if decide (CreateTime m = 0) then 50 else CreateTime m)
                   (ExpireTime m) (Some (elems (Tags m)))))
      ∧ (∀ k, k ∉ ids → mails s' !! k = mails NewMemoryMailStore !! k).
Proof.
  intros m recipientIDs clock.
  assert (Z.of_nat (length recipientIDs) ≤ GoInt.max_int) as Hint
    by (vm_compute; discriminate).
  split; [exact Hint|].
  exact (proj2 (SendBatchMail_correct NewMemoryMailStore m recipientIDs 50 clock Hint)).
Defined.

(** [keys_are_IDs_invariant] at [example_store]: after a mail without id
    is created, the mails are still kept under their ids. *)
Lemma keys_are_IDs_invariant_witness :
  keys_are_IDs example_store
  ∧ keys_are_IDs
      (MemoryMailStore_CreateMail example_store
         (Some (example_mail_at EmptyString "user3" 400 false)) 17).1.2
  ∧ ∀ id mail, MemoryMailStore_GetMail example_store id = Ok mail →
               ID mail = id ∧ id ≠ EmptyString.
Proof.
  split; [exact example_store_keys_are_IDs|]. split.
  - exact (proj1 (proj2 keys_are_IDs_invariant example_store example_store_keys_are_IDs)
             (Some (example_mail_at EmptyString "user3" 400 false)) 17).
  - exact (proj2 (proj2 (proj2 (proj2 (proj2 (proj2
             (proj2 keys_are_IDs_invariant example_store example_store_keys_are_IDs))))))).
Defined.

(** [MarkAsRead_CountUnreadMails] at the unread mail of [user1] in
    [example_store]. *)
Lemma MarkAsRead_CountUnreadMails_witness :
  let mail := example_mail_at "m1" "user1" 100 false in
  keys_are_IDs example_store
  ∧ mails example_store !! "m1" = Some mail
  ∧ ReadStatus mail = false
  ∧ ∃ s', MarkAsRead example_store "m1" = (Ok (), s')
          ∧ MemoryMailStore_GetMail s' "m1" = Ok (set_ReadStatus true mail)
          ∧ (∀ k, k ≠ "m1" → mails s' !! k = mails example_store !! k)
          ∧ ∀ r n, MemoryMailStore_CountUnreadMails example_store r = Ok n →
                   MemoryMailStore_CountUnreadMails s' r
                   = Ok (if String.eqb (RecipientID mail) r then n - 1 else n).
Proof.
  intros mail.
  assert (mails example_store !! "m1" = Some mail) as Hstored by reflexivity.
  assert (ReadStatus mail = false) as Hunread by reflexivity.
  split; [exact example_store_keys_are_IDs|]. split; [exact Hstored|].
  split; [exact Hunread|].
  exact (MarkAsRead_CountUnreadMails example_store "m1" mail
           example_store_keys_are_IDs Hstored Hunread).
Defined.

(** [DeleteExpiredMails_QueryMails] at a store with one mail that expired
    at time 10 and one that never expires, at time 50. *)
Lemma DeleteExpiredMails_QueryMails_witness :
  let expired := mkMail "e1" "system" "user1" "Hello" "Welcome" None false 100 10 None in
  let s := mkMemoryMailStore
             (<["e1" := expired]> (<["m1" := example_mail_at "m1" "user1" 100 false]> ∅))
             (mkSimpleIDGenerator 0) in
  MemoryMailStore_QueryMails s (Some expired_filter) 1 10 50 = Ok ([expired], 1)
  ∧ (MemoryMailStore_DeleteExpiredMails s 50).1 = Ok 1.
Proof.
  intros expired s.
  assert (MemoryMailStore_QueryMails s (Some expired_filter) 1 10 50 = Ok ([expired], 1))
    as Hquery by (vm_compute; reflexivity).
  split; [exact Hquery|].
  exact (proj1 (DeleteExpiredMails_QueryMails 50 1 10 [expired] 1) s Hquery).
Defined.

(** [MarkAllAsRead_correct] at [user1] in [example_store], with fuel for
    one page. *)
Lemma MarkAllAsRead_correct_witness :
  "user1" ≠ EmptyString
  ∧ keys_are_IDs example_store
  ∧ NoDup (CreateTime <$> filter (λ mail, String.eqb (RecipientID mail) "user1" = true)
                            (range_mails example_store))
  ∧ Z.of_nat (size (mails example_store)) + 100 ≤ GoInt.max_int
  ∧ (size (mails example_store) < 100 * 1)%nat
  ∧ ∃ s', MarkAllAsRead 1 example_store "user1" = Some (Ok (), s')
          ∧ mails s' = mark_read_for "user1" <$> mails example_store
          ∧ idGen s' = idGen example_store
          ∧ MemoryMailStore_CountUnreadMails s' "user1" = Ok 0.
Proof.
  assert ("user1" ≠ EmptyString) as Hr by discriminate.
  assert (NoDup (CreateTime <$> filter (λ mail, String.eqb (RecipientID mail) "user1" = true)
                                  (range_mails example_store))) as Hdistinct
    by (apply (bool_decide_unpack _); vm_compute; exact I).
  assert (Z.of_nat (size (mails example_store)) + 100 ≤ GoInt.max_int) as Hint
    by (vm_compute; discriminate).
  assert (size (mails example_store) < 100 * 1)%nat as Hfuel
    by (apply (bool_decide_unpack _); vm_compute; exact I).
  split; [exact Hr|]. split; [exact example_store_keys_are_IDs|].
  split; [exact Hdistinct|]. split; [exact Hint|]. split; [exact Hfuel|].
  exact (proj2 (MarkAllAsRead_correct example_store "user1" 1)
           Hr example_store_keys_are_IDs Hdistinct Hint Hfuel).
Defined.

(** [MemoryMailStore_CreateBatchMails_stored] at a batch of two mails and
    a nil entry, one mail with an id and one without. *)
Lemma MemoryMailStore_CreateBatchMails_stored_witness :
  let h : gmap positive Mail :=
    <[1%positive := example_mail_at "b1" "user1" 100 false]>
      (<[2%positive := example_mail_at EmptyString "user2" 100 false]> ∅) in
  let batch := [Some 1%positive; None; Some 2%positive] in
  let now (i : nat) := 1000 + Z.of_nat i in
  (∀ p, Some p ∈ batch → is_Some (h !! p))
  ∧ ∃ ids s' h',
      MemoryMailStore_CreateBatchMails example_store h batch now = (Ok ids, s', h')
      ∧ length ids = length (omap id batch)
      ∧ (∀ k, k ∉ ids → mails s' !! k = mails example_store !! k)
      ∧ Forall (λ id, ∃ mail, mails s' !! id = Some mail ∧ ID mail = id) ids.
Proof.
  intros h batch now.
  assert (∀ p, Some p ∈ batch → is_Some (h !! p)) as Halloc.
  { intros p Hp. unfold batch in Hp.
    apply elem_of_cons in Hp as [[= ->]|Hp]; [vm_compute; eauto|].
    apply elem_of_cons in Hp as [[=]|Hp].
    apply elem_of_cons in Hp as [[= ->]|Hp]; [vm_compute; eauto|].
    by apply elem_of_nil in Hp. }
  split; [exact Halloc|].
  exact (MemoryMailStore_CreateBatchMails_stored example_store h batch now Halloc).
Defined.

(** [QueryMails_no_filter] at [example_store]. *)
Lemma QueryMails_no_filter_witness :
  let page_mails := [example_mail_at "m3" "user2" 300 false;
                     example_mail_at "m2" "user1" 200 true;
                     example_mail_at "m1" "user1" 100 false] in
  MemoryMailStore_QueryMails example_store None 1 10 0 = Ok (page_mails, 3)
  ∧ 3 = Z.of_nat (size (mails example_store)).
Proof.
  intros page_mails.
  assert (MemoryMailStore_QueryMails example_store None 1 10 0 = Ok (page_mails, 3))
    as Hquery by (vm_compute; reflexivity).
  split; [exact Hquery|].
  exact (proj2 (proj1 (QueryMails_no_filter 1 10 0 0 page_mails 3) example_store) Hquery).
Defined.
